(** * Article extraction (content.js): shallow embedding and properties

    The content script's [ArticleExtractor] locates the main article of a
    page by a cascade of strategies, normalises its text and reports an
    extraction result.  This development embeds the extractor over an
    explicit document tree and proves the properties the specification
    states about it.

    Conventions of the embedding:
    - a JavaScript string is the list of its UTF-16 code units;
    - a thrown exception is the [Throw] case of [completion];
    - [dataset.extractionMethod] writes go to a store keyed by node
      reference, threaded through the strategies;
    - a number is an IEEE 754 double: a finite one is kept as the
      rational it is, and every operation of the scorer rounds its exact
      result to the nearest double. *)

From Stdlib Require Import QArith Qminmax Qabs Qround Qpower Lqa Sorted.
From Stdlib Require Import String Ascii DecimalString.
From Stdlib Require DecimalPos DecimalZ.
From stdpp Require Import gmap list.

Set Warnings "-register-all".
Local Open Scope list_scope.
Local Open Scope nat_scope.

(** ** Strings *)

Abbreviation jsstring := (list N).

(** A source literal (ASCII) as code units. *)
Definition lit (s : string) : jsstring :=
  map N_of_ascii (list_ascii_of_string s).

Definition LF : N := 10%N.
Definition SPACE : N := 32%N.

(** ECMAScript WhiteSpace and LineTerminator code points: the class [\s]
    of regular expressions, and what [String.prototype.trim] strips. *)
Definition isWhiteSpace (c : N) : bool :=
  match c with
  | 9 | 10 | 11 | 12 | 13 | 32 | 160 | 5760
  | 8232 | 8233 | 8239 | 8287 | 12288 | 65279 => true
  | _ => (8192 <=? c) && (c <=? 8202)
  end%N.

Fixpoint trimStart (s : jsstring) : jsstring :=
  match s with
  | [] => []
  | c :: s' => if isWhiteSpace c then trimStart s' else s
  end.

Definition trimEnd (s : jsstring) : jsstring := rev (trimStart (rev s)).

(** [s.trim()] *)
Definition trim (s : jsstring) : jsstring := trimEnd (trimStart s).

(** [s.replace(/\s+/g, ' ')]: every maximal run of white space becomes one
    space.  [inRun] records that the previous code unit was white space. *)
Fixpoint collapseWsFrom (inRun : bool) (s : jsstring) : jsstring :=
  match s with
  | [] => []
  | c :: s' =>
      if isWhiteSpace c
      then (if inRun then collapseWsFrom true s'
            else SPACE :: collapseWsFrom true s')
      else c :: collapseWsFrom false s'
  end.

Definition collapseWhitespace (s : jsstring) : jsstring :=
  collapseWsFrom false s.

(** The maximal white-space prefix of [s]. *)
Fixpoint wsPrefix (s : jsstring) : jsstring :=
  match s with
  | [] => []
  | c :: s' => if isWhiteSpace c then c :: wsPrefix s' else []
  end.

Definition countLF (s : jsstring) : nat :=
  length (List.filter (N.eqb LF) s).

(** Number of code units of [s] up to and including its last line feed
    (0 when there is none). *)
Fixpoint throughLastLF (s : jsstring) : nat :=
  match s with
  | [] => 0
  | c :: s' =>
      match throughLastLF s' with
      | 0 => if N.eqb c LF then 1 else 0
      | S k => S (S k)
      end
  end.

(** [s.replace(/\n\s*\n\s*\n/g, '\n\n')].  A match starts at a line feed
    whose white-space run holds at least three line feeds; the greedy
    quantifiers make it end at the last line feed of that run.  [skip]
    counts the code units of the current match still to be consumed. *)
Fixpoint collapseBreaksFrom (skip : nat) (s : jsstring) : jsstring :=
  match s with
  | [] => []
  | c :: s' =>
      match skip with
      | S k => collapseBreaksFrom k s'
      | 0 =>
          if N.eqb c LF
          then (let run := wsPrefix s in
                if 3 <=? countLF run
                then LF :: LF :: collapseBreaksFrom (throughLastLF run - 1) s'
                else c :: collapseBreaksFrom 0 s')
          else c :: collapseBreaksFrom 0 s'
      end
  end.

Definition collapseLineBreaks (s : jsstring) : jsstring :=
  collapseBreaksFrom 0 s.

(** [cleanText(text)] *)
Definition cleanText (text : jsstring) : jsstring :=
  match text with
  | [] => []
  | _ => trim (collapseLineBreaks (collapseWhitespace text))
  end.

(** [s.split(/\s+/)]: the pieces between the maximal white-space runs; a
    run at either end leaves an empty piece there, and the empty string
    splits into one empty piece.  [cur] is the current piece, reversed. *)
Fixpoint splitWsFrom (inRun : bool) (cur : jsstring) (s : jsstring)
  : list jsstring :=
  match s with
  | [] => [rev cur]
  | c :: s' =>
      if isWhiteSpace c
      then (if inRun then splitWsFrom true [] s'
            else rev cur :: splitWsFrom true [] s')
      else splitWsFrom false (c :: cur) s'
  end.

Definition splitWhitespace (s : jsstring) : list jsstring :=
  splitWsFrom false [] s.

Definition nonEmpty (w : jsstring) : bool :=
  match w with [] => false | _ => true end.

(** [countWords(text)] *)
Definition countWords (text : jsstring) : nat :=
  match text with
  | [] => 0
  | _ => length (List.filter nonEmpty (splitWhitespace (trim text)))
  end.

(** [s.includes(k)] *)
Fixpoint startsWith (k s : jsstring) : bool :=
  match k, s with
  | [], _ => true
  | _ :: _, [] => false
  | a :: k', b :: s' => N.eqb a b && startsWith k' s'
  end.

Fixpoint includes (s k : jsstring) : bool :=
  startsWith k s ||
  match s with
  | [] => false
  | _ :: s' => includes s' k
  end.

(** [s.substring(0, n)] *)
Definition substring0 (n : nat) (s : jsstring) : jsstring := take n s.

(** ** Exceptions *)

Record exn := { message : jsstring }.

Inductive completion (A : Type) : Type :=
| Normal (a : A)
| Throw (e : exn).
Arguments Normal {A} a.
Arguments Throw {A} e.

#[global] Instance completion_ret : MRet completion := fun A a => Normal a.
#[global] Instance completion_bind : MBind completion :=
  fun A B f c => match c with Normal a => f a | Throw e => Throw e end.

(** ** Document tree *)

Inductive namespace := HTML | SVG.

(** The part of a [DOMRect] the scorer reads.  A coordinate stands for
    the double nearest to it: itself, when it is a double. *)
Record DOMRect := { rectLeft : Q; rectWidth : Q }.

Record attrs := {
  ns : namespace;
  localName : jsstring;
  classAttr : jsstring;
  idAttr : jsstring;
  (** [None]: [getBoundingClientRect()] throws on this element. *)
  boundingRect : option DOMRect
}.

Inductive node :=
| Text (data : jsstring)
| Element (a : attrs) (children : list node).

Record Document := {
  href : jsstring;
  title : jsstring;
  documentChildren : list node;
  (** [window.innerWidth]; read as the double nearest to it *)
  innerWidth : Q;
  (** [document.body.innerText], a rendering of the body's text; read
      only when the body's [textContent] is empty. *)
  bodyInnerText : jsstring
}.

(** An element on its own: what [Element] carries. *)
Record elementNode := {
  attributes : attrs;
  childNodes : list node
}.

Definition toNode (el : elementNode) : node :=
  Element (attributes el) (childNodes el).

Fixpoint nodeText (n : node) : jsstring :=
  match n with
  | Text s => s
  | Element _ kids => concat (List.map nodeText kids)
  end.

(** [el.textContent] *)
Definition textContent (el : elementNode) : jsstring := nodeText (toNode el).

(** An element met during a traversal: where it is, and its parent
    element ([None] for a child of the document itself). *)
Record located := {
  path : list nat;
  element : elementNode;
  parentElement : option elementNode
}.

(** The elements of a subtree in document order, the root first. *)
Fixpoint subtreeElements (parent : option elementNode) (p : list nat)
  (n : node) : list located :=
  match n with
  | Text _ => []
  | Element a kids =>
      let el := {| attributes := a; childNodes := kids |} in
      {| path := p; element := el; parentElement := parent |} ::
      (fix children (i : nat) (ks : list node) : list located :=
         match ks with
         | [] => []
         | k :: ks' =>
             subtreeElements (Some el) (p ++ [i]) k ++ children (S i) ks'
         end) 0 kids
  end.

Fixpoint forestElements (parent : option elementNode) (p : list nat)
  (i : nat) (ks : list node) : list located :=
  match ks with
  | [] => []
  | k :: ks' =>
      subtreeElements parent (p ++ [i]) k ++ forestElements parent p (S i) ks'
  end.

(** Elements strictly below [el]; paths are relative to [el]. *)
Definition descendantElements (el : elementNode) : list located :=
  forestElements (Some el) [] 0 (childNodes el).

(** Every element of the document. *)
Definition documentElements (doc : Document) : list located :=
  forestElements None [] 0 (documentChildren doc).

Definition isElement (n : node) : bool :=
  match n with Element _ _ => true | Text _ => false end.

Definition hasLocalName (name : jsstring) (n : node) : bool :=
  match n with
  | Element a _ => bool_decide (localName a = name)
  | Text _ => false
  end.

(** [document.body]: the first [body] or [frameset] child of the [html]
    document element. *)
Definition documentBody (doc : Document) : option elementNode :=
  match List.find isElement (documentChildren doc) with
  | Some (Element a kids) =>
      if bool_decide (localName a = lit "html")
      then match List.find (fun k => hasLocalName (lit "body") k
                                     || hasLocalName (lit "frameset") k) kids
           with
           | Some (Element b bkids) =>
               Some {| attributes := b; childNodes := bkids |}
           | _ => None
           end
      else None
  | _ => None
  end.

(** ** Selectors *)

(** The selectors the script uses: a type selector, a class selector, or
    a comma-separated list of these.  A type selector is compared with
    the element's local name (lower case in an HTML document), a class
    selector with the tokens of its class attribute, case-sensitively. *)
Inductive simpleSelector :=
| TypeSelector (name : jsstring)
| ClassSelector (name : jsstring).

Fixpoint splitOnFrom (sep : N -> bool) (cur : jsstring) (s : jsstring)
  : list jsstring :=
  match s with
  | [] => [rev cur]
  | c :: s' =>
      if sep c then rev cur :: splitOnFrom sep [] s'
      else splitOnFrom sep (c :: cur) s'
  end.

Definition splitOn (sep : N -> bool) (s : jsstring) : list jsstring :=
  splitOnFrom sep [] s.

Definition COMMA : N := 44%N.
Definition DOT : N := 46%N.

Definition parseSimple (s : jsstring) : simpleSelector :=
  match trim s with
  | c :: name => if N.eqb c DOT then ClassSelector name
                 else TypeSelector (c :: name)
  | [] => TypeSelector []
  end.

Definition parseSelector (s : jsstring) : list simpleSelector :=
  List.map parseSimple (splitOn (N.eqb COMMA) s).

(** HTML's ASCII white space, which separates the tokens of a class
    attribute. *)
Definition isAsciiWhitespace (c : N) : bool :=
  match c with
  | 9 | 10 | 12 | 13 | 32 => true
  | _ => false
  end%N.

Definition classList (a : attrs) : list jsstring :=
  List.filter nonEmpty (splitOn isAsciiWhitespace (classAttr a)).

Definition matchesSimple (n : node) (sel : simpleSelector) : bool :=
  match n with
  | Text _ => false
  | Element a _ =>
      match sel with
      | TypeSelector name => bool_decide (localName a = name)
      | ClassSelector name => bool_decide (name ∈ classList a)
      end
  end.

Definition matchesSelector (sel : list simpleSelector) (n : node) : bool :=
  existsb (matchesSimple n) sel.

Definition elementMatches (sel : list simpleSelector) (l : located) : bool :=
  matchesSelector sel (toNode (element l)).

(** ** Extraction results and the dataset store *)

Record ExtractionResult := {
  success : bool;
  text : jsstring;
  wordCount : nat;
  url : jsstring;
  resultTitle : jsstring;
  extractionMethod : option jsstring;
  error : option jsstring
}.

(** A reference to a node: an element of the live document, by its path,
    or the container that [document.createElement] makes during a run. *)
Inductive nodeRef :=
| InDocument (p : list nat)
| Created.

#[global] Instance nodeRef_eq_dec : EqDecision nodeRef.
Proof. solve_decision. Defined.

#[global] Instance nodeRef_countable : Countable nodeRef :=
  inj_countable'
    (fun r => match r with InDocument p => Some p | Created => None end)
    (fun o => match o with Some p => InDocument p | None => Created end)
    (fun r => match r with InDocument _ => eq_refl | Created => eq_refl end).

(** [dataset.extractionMethod] of every node that has one. *)
Abbreviation store := (gmap nodeRef jsstring).

(** A computation that may throw and may write the store.  The store
    survives a throw, as the mutated document does. *)
Definition M (A : Type) : Type := store -> completion A * store.

#[global] Instance M_ret : MRet M := fun A a st => (Normal a, st).
#[global] Instance M_bind : MBind M :=
  fun A B f m st =>
    match m st with
    | (Normal a, st') => f a st'
    | (Throw e, st') => (Throw e, st')
    end.

Definition lift {A : Type} (c : completion A) : M A := fun st => (c, st).

Definition setExtractionMethod (r : nodeRef) (tag : jsstring) : M unit :=
  fun st => (Normal tt, <[r := tag]> st).

(** [r.dataset.extractionMethod || 'unknown'] *)
Definition getExtractionMethod (r : nodeRef) : M jsstring :=
  fun st =>
    (Normal match st !! r with
            | Some (c :: tag) => c :: tag
            | _ => lit "unknown"
            end, st).

(** [document.createElement]: the new node carries no dataset entry. *)
Definition createElement : M nodeRef :=
  fun st => (Normal Created, delete Created st).

Record candidate := {
  ref : nodeRef;
  content : elementNode
}.

Definition candidateOf (l : located) : candidate :=
  {| ref := InDocument (path l); content := element l |}.

(** ** Case conversion *)

Definition isAscii (c : N) : bool := (c <? 128)%N.

Definition asciiLower (c : N) : N :=
  if ((65 <=? c) && (c <=? 90))%N then (c + 32)%N else c.

Definition asciiUpper (c : N) : N :=
  if ((97 <=? c) && (c <=? 122))%N then (c - 32)%N else c.

(** ** Numbers *)

(** A JavaScript number is an IEEE 754 double, and every arithmetic
    operation returns the double nearest to the exact result, a tie going
    to the double with an even significand.  A finite double is kept as
    the rational it is. *)

Definition pow2 (e : Z) : Q := (2 ^ e)%Q.

(** The exponent of a positive rational: [2^e <= q < 2^(e+1)]. *)
Definition exponentOf (q : Q) : Z :=
  let e := (Z.log2 (Qnum q) - Z.log2 (Zpos (Qden q)))%Z in
  if Qle_bool (pow2 e) q then e else (e - 1)%Z.

(** The nearest integer, a tie going to the even one. *)
Definition roundHalfEven (q : Q) : Z :=
  let f := Qfloor q in
  match (q - inject_Z f ?= 1 # 2)%Q with
  | Lt => f
  | Gt => (f + 1)%Z
  | Eq => if Z.even f then f else (f + 1)%Z
  end.

(** The doubles around [q] are the multiples of [2^k]: 53 significant
    bits, and no exponent below that of the subnormal numbers. *)
Definition spacingExponent (q : Q) : Z :=
  (Z.max (exponentOf (Qabs q)) (-1022) - 52)%Z.

(** Rounding to the nearest double.  The exponent is not bounded above
    here: [number] below adds the overflow. *)
Definition fl (q : Q) : Q :=
  let k := spacingExponent q in
  Qred (inject_Z (roundHalfEven (q / pow2 k)) * pow2 k)%Q.

(** A double.  The sign of a zero is not kept: the script only adds,
    subtracts, multiplies, compares, and divides by the constants 2 and
    100, none of which can tell the two zeros apart. *)
Inductive double :=
| Finite (q : Q)
| Infinite (negative : bool)
| NaN.

Definition isNegative (q : Q) : bool := negb (Qle_bool 0 q).

(** The double a real number rounds to: the value of a numeric literal,
    and of an operation with that exact result. *)
Definition number (q : Q) : double :=
  let r := fl q in
  if Qle_bool (pow2 1024) (Qabs r) then Infinite (isNegative r)
  else Finite r.

Definition negate (x : double) : double :=
  match x with
  | Finite a => Finite (- a)
  | Infinite s => Infinite (negb s)
  | NaN => NaN
  end.

Definition add (x y : double) : double :=
  match x, y with
  | Finite a, Finite b => number (a + b)
  | Finite _, Infinite s | Infinite s, Finite _ => Infinite s
  | Infinite s, Infinite s' => if Bool.eqb s s' then Infinite s else NaN
  | _, _ => NaN
  end.

Definition subtract (x y : double) : double := add x (negate y).

Definition multiply (x y : double) : double :=
  match x, y with
  | Finite a, Finite b => number (a * b)
  | Finite a, Infinite s | Infinite s, Finite a =>
      if Qeq_bool a 0 then NaN else Infinite (xorb s (isNegative a))
  | Infinite s, Infinite s' => Infinite (xorb s s')
  | _, _ => NaN
  end.

(** A zero divisor is taken as [+0]. *)
Definition divide (x y : double) : double :=
  match x, y with
  | Finite a, Finite b =>
      if Qeq_bool b 0
      then (if Qeq_bool a 0 then NaN else Infinite (isNegative a))
      else number (a / b)
  | Finite _, Infinite _ => Finite 0
  | Infinite s, Finite b => Infinite (xorb s (isNegative b))
  | _, _ => NaN
  end.

(** [Math.abs(x)] *)
Definition Math_abs (x : double) : double :=
  match x with
  | Finite a => Finite (Qabs a)
  | Infinite _ => Infinite false
  | NaN => NaN
  end.

(** [x < y]: false as soon as one side is [NaN]. *)
Definition lessThan (x y : double) : bool :=
  match x, y with
  | Finite a, Finite b => negb (Qle_bool b a)
  | Finite _, Infinite s => negb s
  | Infinite s, Finite _ => s
  | Infinite s, Infinite s' => s && negb s'
  | _, _ => false
  end.

Declare Scope double_scope.
Delimit Scope double_scope with double.
Bind Scope double_scope with double.
Infix "+" := add : double_scope.
Infix "-" := subtract : double_scope.
Infix "*" := multiply : double_scope.
Infix "/" := divide : double_scope.
Infix "<?" := lessThan : double_scope.

(** ** The extractor *)

Module ArticleExtractor.

Definition selectors_article : jsstring := lit "article".
Definition selectors_main : jsstring := lit "main".

Definition selectors_content : list jsstring :=
  [ lit ".content"; lit ".article-content"; lit ".post-content";
    lit ".entry-content"; lit ".article-body"; lit ".post-body";
    lit ".story-body"; lit ".article-text"; lit ".content-body";
    lit ".main-content" ].

Definition selectors_exclude : list jsstring :=
  [ lit "nav"; lit "header"; lit "footer"; lit "aside"; lit ".sidebar";
    lit ".navigation"; lit ".menu"; lit ".ads"; lit ".advertisement";
    lit ".comments"; lit ".social"; lit ".share"; lit ".related";
    lit ".recommended"; lit ".popup"; lit ".modal"; lit "script";
    lit "style"; lit "noscript" ].

Definition textSelector : jsstring := lit "p, h1, h2, h3, h4, h5, h6".
Definition containerSelector : jsstring := lit "div, section, article, main".

Definition excludedTags : list jsstring :=
  [ lit "nav"; lit "header"; lit "footer"; lit "aside"; lit "script";
    lit "style" ].

Definition excludeKeywords : list jsstring :=
  [ lit "nav"; lit "menu"; lit "sidebar"; lit "ads"; lit "advertisement";
    lit "comments"; lit "social"; lit "share"; lit "popup"; lit "modal" ].

Definition msgNoContent : jsstring :=
  lit "No article content found on this page. This might not be an article page.".
Definition msgTooShort : jsstring :=
  lit "Article content too short for analysis (minimum 100 characters required)".
Definition msgFailedPrefix : jsstring :=
  lit "Failed to extract article text: ".

Definition tagSemanticArticle : jsstring := lit "semantic-article".
Definition tagSemanticMain : jsstring := lit "semantic-main".
Definition tagClassBased : jsstring := lit "class-based".
Definition tagHeuristic : jsstring := lit "heuristic".
Definition tagParagraphs : jsstring := lit "paragraphs".

(** The [TypeError] of calling [toLowerCase] on the [className] of an
    SVG element, which is an [SVGAnimatedString] and not a string. *)
Definition classNameTypeError : exn :=
  {| message := lit "element.className.toLowerCase is not a function" |}.

Definition Qltb (x y : Q) : bool := negb (Qle_bool y x).

Definition ofNat (n : nat) : Q := inject_Z (Z.of_nat n).

Section Host.

(** What the host decides: lower-casing outside ASCII (the Unicode case
    tables), and which selector strings its selector engine rejects by
    throwing. *)
Variable unicodeLower : jsstring -> jsstring.
Variable selectorError : jsstring -> option exn.

Variable doc : Document.

(** [s.toLowerCase()] *)
Definition toLowerCase (s : jsstring) : jsstring :=
  if forallb isAscii s then List.map asciiLower s else unicodeLower s.

(** [el.tagName]: upper case for an HTML element of an HTML document. *)
Definition tagName (el : elementNode) : jsstring :=
  match ns (attributes el) with
  | HTML => List.map asciiUpper (localName (attributes el))
  | SVG => localName (attributes el)
  end.

(** [el.className.toLowerCase()] *)
Definition classNameLower (el : elementNode) : completion jsstring :=
  match ns (attributes el) with
  | HTML => Normal (toLowerCase (classAttr (attributes el)))
  | SVG => Throw classNameTypeError
  end.

(** [scope.querySelectorAll(sel)], [scope] given by its elements in
    document order. *)
Definition querySelectorAll (scope : list located) (sel : jsstring)
  : completion (list located) :=
  match selectorError sel with
  | Some e => Throw e
  | None => Normal (List.filter (elementMatches (parseSelector sel)) scope)
  end.

(** [scope.querySelector(sel)] *)
Definition querySelector (scope : list located) (sel : jsstring)
  : completion (option located) :=
  found ← querySelectorAll scope sel;
  mret (head found).

Definition shouldExcludeElement (element : option elementNode)
  : completion bool :=
  match element with
  | None => Normal true
  | Some el =>
      let tagName := toLowerCase (tagName el) in
      className ← classNameLower el;
      let id := toLowerCase (idAttr (attributes el)) in
      if bool_decide (tagName ∈ excludedTags) then Normal true
      else Normal (existsb (fun keyword => includes className keyword
                                           || includes id keyword)
                           excludeKeywords)
  end.

Definition isValidContent (element : option elementNode) : completion bool :=
  match element with
  | None => Normal false
  | Some el =>
      let text := trim (textContent el) in
      paragraphs ← querySelectorAll (descendantElements el) (lit "p");
      Normal ((200 <? length text) && (2 <=? length paragraphs))
  end.

Definition hasContentHint (s : jsstring) : bool :=
  includes s (lit "content") || includes s (lit "article")
  || includes s (lit "post") || includes s (lit "story").

Definition hasNavigationHint (s : jsstring) : bool :=
  includes s (lit "nav") || includes s (lit "sidebar")
  || includes s (lit "menu") || includes s (lit "footer").

(** The [try] block at the end of [calculateContentScore]: a throwing
    [getBoundingClientRect] leaves the score as it is.  The coordinates
    of the box and the width of the window are doubles: the fields are
    read as the doubles nearest to them. *)
Definition centerBonus (el : elementNode) (score : Q) : Q :=
  match boundingRect (attributes el) with
  | None => score
  | Some rect =>
      let viewportWidth := number (innerWidth doc) in
      let elementCenter :=
        (number (rectLeft rect) + number (rectWidth rect) / number 2)%double in
      let viewportCenter := (viewportWidth / number 2)%double in
      let centerDistance :=
        Math_abs (elementCenter - viewportCenter)%double in
      if (centerDistance <? viewportWidth * number 0.3)%double
      then fl (score + 5) else score
  end.

(** The score is a sum of a few small terms on top of twice a list
    length: it stays a finite double, kept as a rational, and [fl] rounds
    each operation. *)
Definition calculateContentScore (el : elementNode) : completion Q :=
  let score := 0%Q in
  paragraphs ← querySelectorAll (descendantElements el) (lit "p");
  let score := fl (score + fl (ofNat (length paragraphs) * 2)) in
  let textLength := length (trim (textContent el)) in
  let score := fl (score + Qmin (fl (ofNat textLength / 100)) 20) in
  className ← classNameLower el;
  let id := toLowerCase (idAttr (attributes el)) in
  let score := if hasContentHint className then fl (score + 10) else score in
  let score := if hasContentHint id then fl (score + 10) else score in
  let score :=
    if hasNavigationHint className then fl (score - 20) else score in
  Normal (centerBonus el score).

Definition findSemanticContent : M (option candidate) :=
  article ← lift (querySelector (documentElements doc) selectors_article);
  valid ← lift (match article with
                | Some el => isValidContent (Some (element el))
                | None => Normal false
                end);
  match article, valid with
  | Some el, true =>
      setExtractionMethod (InDocument (path el)) tagSemanticArticle;;
      mret (Some (candidateOf el))
  | _, _ =>
      main ← lift (querySelector (documentElements doc) selectors_main);
      valid ← lift (match main with
                    | Some el => isValidContent (Some (element el))
                    | None => Normal false
                    end);
      match main, valid with
      | Some el, true =>
          setExtractionMethod (InDocument (path el)) tagSemanticMain;;
          mret (Some (candidateOf el))
      | _, _ => mret None
      end
  end.

(** The [for] loop of [findContentByClass] over the remaining selectors. *)
Fixpoint findContentByClassFrom (selectors : list jsstring)
  : M (option candidate) :=
  match selectors with
  | [] => mret None
  | selector :: rest =>
      found ← lift (querySelector (documentElements doc) selector);
      valid ← lift (match found with
                    | Some el => isValidContent (Some (element el))
                    | None => Normal false
                    end);
      match found, valid with
      | Some el, true =>
          setExtractionMethod (InDocument (path el)) tagClassBased;;
          mret (Some (candidateOf el))
      | _, _ => findContentByClassFrom rest
      end
  end.

Definition findContentByClass : M (option candidate) :=
  findContentByClassFrom selectors_content.

Record scoredCandidate := {
  scoredElement : located;
  score : Q
}.

(** The [forEach] of [findContentByHeuristics]: the containers that are
    not excluded and score above 0, in document order. *)
Fixpoint collectCandidates (containers : list located)
  : completion (list scoredCandidate) :=
  match containers with
  | [] => Normal []
  | container :: rest =>
      excluded ← shouldExcludeElement (Some (element container));
      if (excluded : bool) then collectCandidates rest
      else
        score ← calculateContentScore (element container);
        candidates ← collectCandidates rest;
        Normal (if Qltb 0 score
                then {| scoredElement := container; score := score |}
                     :: candidates
                else candidates)
  end.

(** [candidates.sort((a, b) => b.score - a.score)]: a stable sort into
    descending score order. *)
Fixpoint insertByScore (c : scoredCandidate) (sorted : list scoredCandidate)
  : list scoredCandidate :=
  match sorted with
  | [] => [c]
  | d :: sorted' =>
      if Qltb (score c) (score d) then d :: insertByScore c sorted'
      else c :: sorted
  end.

Definition sortByScore (candidates : list scoredCandidate)
  : list scoredCandidate :=
  foldr insertByScore [] candidates.

Definition findContentByHeuristics : M (option candidate) :=
  containers ← lift (querySelectorAll (documentElements doc)
                                      containerSelector);
  candidates ← lift (collectCandidates containers);
  match sortByScore candidates with
  | best :: _ =>
      if Qltb 10 (score best)
      then setExtractionMethod (InDocument (path (scoredElement best)))
                               tagHeuristic;;
           mret (Some (candidateOf (scoredElement best)))
      else mret None
  | [] => mret None
  end.

(** The [<div>] that [document.createElement('div')] returns. *)
Definition emptyDiv : attrs :=
  {| ns := HTML; localName := lit "div"; classAttr := []; idAttr := [];
     boundingRect := Some {| rectLeft := 0; rectWidth := 0 |} |}.

(** The [forEach] of [findContentFromParagraphs]: the clones appended to
    the container so far and [totalText]. *)
Fixpoint gatherParagraphs (paragraphs : list located) (kids : list node)
  (totalText : jsstring) : completion (list node * jsstring) :=
  match paragraphs with
  | [] => Normal (kids, totalText)
  | p :: rest =>
      let text := trim (textContent (element p)) in
      if 50 <? length text
      then
        excluded ← shouldExcludeElement (parentElement p);
        if (excluded : bool) then gatherParagraphs rest kids totalText
        else gatherParagraphs rest (kids ++ [toNode (element p)])
                              (totalText ++ text ++ [SPACE])
      else gatherParagraphs rest kids totalText
  end.

Definition findContentFromParagraphs : M (option candidate) :=
  paragraphs ← lift (querySelectorAll (documentElements doc) (lit "p"));
  if length paragraphs <? 3 then mret None
  else
    container ← createElement;
    gathered ← lift (gatherParagraphs paragraphs [] []);
    let '(kids, totalText) := gathered in
    if 200 <? length totalText
    then setExtractionMethod container tagParagraphs;;
         mret (Some {| ref := container;
                       content := {| attributes := emptyDiv;
                                     childNodes := kids |} |})
    else mret None.

(** [els.forEach(el => el.remove())] for the descendants matching [sel]:
    the subtree without them. *)
Fixpoint prune (sel : list simpleSelector) (n : node) : node :=
  match n with
  | Text s => Text s
  | Element a kids =>
      Element a
        ((fix children (ks : list node) : list node :=
            match ks with
            | [] => []
            | k :: ks' =>
                if matchesSelector sel k then children ks'
                else prune sel k :: children ks'
            end) kids)
  end.

Definition removeMatching (sel : list simpleSelector) (el : elementNode)
  : elementNode :=
  match prune sel (toNode el) with
  | Element a kids => {| attributes := a; childNodes := kids |}
  | Text _ => el
  end.

(** One turn of the exclusion loop: a selector the host rejects throws
    inside the [try] and leaves the clone as it is. *)
Definition removeExcluded (clone : elementNode) (selector : jsstring)
  : elementNode :=
  match selectorError selector with
  | Some _ => clone
  | None => removeMatching (parseSelector selector) clone
  end.

(** The [forEach] that builds [text] from the paragraphs and headings. *)
Fixpoint joinParagraphs (paragraphs : list located) (text : jsstring)
  : jsstring :=
  match paragraphs with
  | [] => text
  | p :: rest =>
      let pText := trim (textContent (element p)) in
      if 0 <? length pText
      then joinParagraphs rest (text ++ pText ++ [LF; LF])
      else joinParagraphs rest text
  end.

Definition extractTextFromElement (el : elementNode) : completion jsstring :=
  let clone := el in
  let clone := foldl removeExcluded clone selectors_exclude in
  paragraphs ← querySelectorAll (descendantElements clone) textSelector;
  let text := joinParagraphs paragraphs [] in
  if length (trim text) =? 0 then Normal (textContent clone)
  else Normal text.

(** The search for a content element at the head of [extractArticleText]. *)
Definition locateContent : M (option candidate) :=
  contentElement ← findSemanticContent;
  contentElement ← match contentElement with
                   | None => findContentByClass
                   | Some _ => mret contentElement
                   end;
  contentElement ← match contentElement with
                   | None => findContentByHeuristics
                   | Some _ => mret contentElement
                   end;
  match contentElement with
  | None => findContentFromParagraphs
  | Some _ => mret contentElement
  end.

(** The body of the [try] block of [extractArticleText]. *)
Definition extractArticleTextBody : M ExtractionResult :=
  contentElement ← locateContent;
  match contentElement with
  | None =>
      mret {| success := false;
              error := Some msgNoContent;
              text := [];
              wordCount := 0;
              url := href doc;
              resultTitle := title doc;
              extractionMethod := None |}
  | Some contentElement =>
      extractedText ← lift (extractTextFromElement (content contentElement));
      let cleanedText := cleanText extractedText in
      if length cleanedText <? 100
      then mret {| success := false;
                   error := Some msgTooShort;
                   text := cleanedText;
                   wordCount := countWords cleanedText;
                   url := href doc;
                   resultTitle := title doc;
                   extractionMethod := None |}
      else
        method ← getExtractionMethod (ref contentElement);
        mret {| success := true;
                text := cleanedText;
                wordCount := countWords cleanedText;
                url := href doc;
                resultTitle := title doc;
                extractionMethod := Some method;
                error := None |}
  end.

Definition extractArticleText (st : store) : ExtractionResult * store :=
  match extractArticleTextBody st with
  | (Normal result, st') => (result, st')
  | (Throw e, st') =>
      ({| success := false;
          error := Some (msgFailedPrefix ++ message e);
          text := [];
          wordCount := 0;
          url := href doc;
          resultTitle := title doc;
          extractionMethod := None |}, st')
  end.

End Host.

End ArticleExtractor.

(** ** The fallback listener *)

Definition msgPageTooShort : jsstring :=
  lit "Page content too short for analysis".
Definition msgFallbackPrefix : jsstring := lit "Fallback extraction failed: ".
Definition tagFallback : jsstring := lit "fallback".

(** The [TypeError] of reading [textContent] off a missing body. *)
Definition nullBodyTypeError : exn :=
  {| message := lit "Cannot read properties of null (reading 'textContent')" |}.

(** The reply of the fallback listener to an [extractText] request. *)
Definition fallbackExtractText (doc : Document) : ExtractionResult :=
  match documentBody doc with
  | None =>
      {| success := false;
         error := Some (msgFallbackPrefix ++ message nullBodyTypeError);
         text := [];
         wordCount := 0;
         url := href doc;
         resultTitle := title doc;
         extractionMethod := None |}
  | Some body =>
      let bodyText := match textContent body with
                      | [] => bodyInnerText doc
                      | t => t
                      end in
      let cleanText := trim (collapseWhitespace bodyText) in
      if 100 <? length cleanText
      then {| success := true;
              text := substring0 5000 cleanText;
              wordCount := length (splitWhitespace cleanText);
              url := href doc;
              resultTitle := title doc;
              extractionMethod := Some tagFallback;
              error := None |}
      else {| success := false;
              error := Some msgPageTooShort;
              text := cleanText;
              wordCount := 0;
              url := href doc;
              resultTitle := title doc;
              extractionMethod := None |}
  end.

Import ArticleExtractor.

(** * The specification's vocabulary *)

(** ** The cascade of strategies, as the specification words it *)

Inductive strategy :=
| SemanticArticle
| SemanticMain
| ClassBased
| Heuristic
| Paragraphs.

(** The fixed order of the locator. *)
Definition cascade : list strategy :=
  [SemanticArticle; SemanticMain; ClassBased; Heuristic; Paragraphs].

Definition methodTag (s : strategy) : jsstring :=
  match s with
  | SemanticArticle => tagSemanticArticle
  | SemanticMain => tagSemanticMain
  | ClassBased => tagClassBased
  | Heuristic => tagHeuristic
  | Paragraphs => tagParagraphs
  end.

Section Cascade.

Variable unicodeLower : jsstring -> jsstring.
Variable selectorError : jsstring -> option exn.
Variable doc : Document.

(** A semantic strategy: select the first node of the given kind and
    accept it if it is valid content. *)
Definition semanticStrategy (selector tag : jsstring) : M (option candidate) :=
  found ← lift (querySelector selectorError (documentElements doc) selector);
  match found with
  | None => mret None
  | Some el =>
      valid ← lift (isValidContent selectorError (Some (element el)));
      if (valid : bool)
      then setExtractionMethod (InDocument (path el)) tag;;
           mret (Some (candidateOf el))
      else mret None
  end.

Definition runStrategy (s : strategy) : M (option candidate) :=
  match s with
  | SemanticArticle => semanticStrategy selectors_article tagSemanticArticle
  | SemanticMain => semanticStrategy selectors_main tagSemanticMain
  | ClassBased => findContentByClass selectorError doc
  | Heuristic => findContentByHeuristics unicodeLower selectorError doc
  | Paragraphs => findContentFromParagraphs unicodeLower selectorError doc
  end.

(** Run the strategies in order and stop at the first that yields a
    candidate; report which one it was. *)
Fixpoint firstSuccess (strategies : list strategy)
  : M (option (strategy * candidate)) :=
  match strategies with
  | [] => mret None
  | s :: rest =>
      r ← runStrategy s;
      match r with
      | Some c => mret (Some (s, c))
      | None => firstSuccess rest
      end
  end.

End Cascade.

(** ** The class-based strategy, selector by selector *)

(** What one selector contributes: of all the nodes it matches, the first
    in document order, and only if that node is valid content. *)
Definition firstMatchIfValid (selectorError : jsstring -> option exn)
  (doc : Document) (selector : jsstring)
  : completion (option located) :=
  matching ← querySelectorAll selectorError (documentElements doc) selector;
  match matching with
  | [] => Normal None
  | el :: _ =>
      valid ← isValidContent selectorError (Some (element el));
      Normal (if (valid : bool) then Some el else None)
  end.

(** ** Measures and variants of a node *)

(** The two measures of a node the specification speaks of. *)
Definition paragraphCount (el : elementNode) : nat :=
  length (List.filter (elementMatches (parseSelector (lit "p")))
                      (descendantElements el)).

Definition textLength (el : elementNode) : nat :=
  length (trim (textContent el)).

(** The same node with another class attribute. *)
Definition withClass (cls : jsstring) (el : elementNode) : elementNode :=
  {| attributes := {| ns := ns (attributes el);
                      localName := localName (attributes el);
                      classAttr := cls;
                      idAttr := idAttr (attributes el);
                      boundingRect := boundingRect (attributes el) |};
     childNodes := childNodes el |}.

(** The same node on a host without layout geometry. *)
Definition withoutGeometry (el : elementNode) : elementNode :=
  {| attributes := {| ns := ns (attributes el);
                      localName := localName (attributes el);
                      classAttr := classAttr (attributes el);
                      idAttr := idAttr (attributes el);
                      boundingRect := None |};
     childNodes := childNodes el |}.

(** How far the horizontal centre of a layout box is from the centre of
    the viewport, in double arithmetic. *)
Definition centerDistance (doc : Document) (rect : DOMRect) : double :=
  Math_abs (number (rectLeft rect) + number (rectWidth rect) / number 2
            - number (innerWidth doc) / number 2)%double.

(** The node has a layout box whose horizontal centre is less than
    [reach] away from the centre of the viewport. *)
Definition centredWithin (reach : double) (doc : Document)
  (el : elementNode) : Prop :=
  match boundingRect (attributes el) with
  | None => False
  | Some rect => (centerDistance doc rect <? reach)%double = true
  end.

(** 30% of the width of the viewport. *)
Definition widthShare (doc : Document) : double :=
  (number (innerWidth doc) * number 0.3)%double.

(** 30% of the half-width of the viewport. *)
Definition halfWidthShare (doc : Document) : double :=
  (number (innerWidth doc) / number 2 * number 0.3)%double.

(** The class-name keywords of the navigation penalty. *)
Definition navigationKeywords : list jsstring :=
  [ lit "nav"; lit "sidebar"; lit "menu"; lit "footer" ].

(** The score accumulated before the geometry check, from the paragraph
    count, the text length and the lower-cased class name and id. *)
Definition scoreBeforeGeometry (paragraphs textLength : nat)
  (className id : jsstring) : Q :=
  let score := fl (0 + fl (ofNat paragraphs * 2)) in
  let score := fl (score + Qmin (fl (ofNat textLength / 100)) 20) in
  let score := if hasContentHint className then fl (score + 10) else score in
  let score := if hasContentHint id then fl (score + 10) else score in
  if hasNavigationHint className then fl (score - 20) else score.

(** The host accepts the selector. *)
Definition accepted (selectorError : jsstring -> option exn)
  (selector : jsstring) : bool :=
  match selectorError selector with
  | None => true
  | Some _ => false
  end.

(** Which elements a traversal meets does not depend on where it starts
    counting paths, nor on the parent it is told for the roots. *)
Definition sameElements (n : node) : Prop :=
  forall parent parent' p p',
    List.map element (subtreeElements parent p n)
    = List.map element (subtreeElements parent' p' n).

(** ** Example documents *)

(** An HTML element without class, id or layout box. *)
Definition plain (name : string) (kids : list node) : node :=
  Element {| ns := HTML; localName := lit name; classAttr := [];
             idAttr := []; boundingRect := None |} kids.

Definition plainElement (name : string) (kids : list node) : elementNode :=
  {| attributes := {| ns := HTML; localName := lit name; classAttr := [];
                      idAttr := []; boundingRect := None |};
     childNodes := kids |}.

Definition page (width : Q) (body : list node) : Document :=
  {| href := lit "https://example.org/story";
     title := lit "Story";
     documentChildren :=
       [ plain "html" [ plain "head" []; plain "body" body ] ];
     innerWidth := width;
     bodyInnerText := [] |}.

(** A host whose selector engine accepts every selector. *)
Definition acceptAll : jsstring -> option exn := fun _ => None.

(** Two short paragraphs under one container. *)
Definition twoParagraphs : elementNode :=
  plainElement "div"
    [ plain "p" [Text (lit "First paragraph.")];
      plain "p" [Text (lit "Second paragraph.")] ].

(** A column whose centre is at 700 of a viewport 1000 wide: 200 from
    the viewport centre. *)
Definition sideColumn : elementNode :=
  {| attributes := {| ns := HTML; localName := lit "div"; classAttr := [];
                      idAttr := [];
                      boundingRect :=
                        Some {| rectLeft := 600; rectWidth := 200 |} |};
     childNodes := [ plain "p" [Text (lit "Related stories")] ] |}.

(** A sentence of 60 code units, and a paragraph holding it. *)
Definition sentence : jsstring :=
  lit "The committee met on Tuesday to review the budget proposals.".

Definition paragraph : node := plain "p" [Text sentence].

(** Three paragraphs inside an SVG [foreignObject]: their parent is an
    SVG element. *)
Definition svgPage : Document :=
  page 1024
    [ Element {| ns := SVG; localName := lit "svg"; classAttr := [];
                 idAttr := []; boundingRect := None |}
        [ Element {| ns := SVG; localName := lit "foreignObject";
                     classAttr := []; idAttr := []; boundingRect := None |}
            [ paragraph; paragraph; paragraph ] ] ].

(** A host whose selector engine throws on [.ads]. *)
Definition rejectAds (selector : jsstring) : option exn :=
  if bool_decide (selector = lit ".ads")
  then Some {| message := lit "'.ads' is not a valid selector" |}
  else None.

Definition secondSentence : jsstring :=
  lit "Members agreed to publish the final figures before the vote.".

Definition articleAttrs (rect : option DOMRect) : attrs :=
  {| ns := HTML; localName := lit "article"; classAttr := []; idAttr := [];
     boundingRect := rect |}.

(** [<article><h1>Title</h1><p>p1</p><p>p2</p></article>] *)
Definition exampleArticle (rect : option DOMRect) (p1 p2 : jsstring)
  : elementNode :=
  {| attributes := articleAttrs rect;
     childNodes := [ plain "h1" [Text (lit "Title")];
                     plain "p" [Text p1];
                     plain "p" [Text p2] ] |}.

(** The page with that article and nothing else. *)
Definition articlePage (width : Q) (rect : option DOMRect) (p1 p2 : jsstring)
  : Document :=
  page width [ toNode (exampleArticle rect p1 p2) ].

(** A layout box centred in a viewport 1000 wide. *)
Definition centredBox : DOMRect := {| rectLeft := 100; rectWidth := 800 |}.

(** The article where the traversal of the page meets it. *)
Definition articleLocated (rect : option DOMRect) (p1 p2 : jsstring)
  : located :=
  {| path := [0; 1; 0];
     element := exampleArticle rect p1 p2;
     parentElement :=
       Some (plainElement "body" [toNode (exampleArticle rect p1 p2)]) |}.

(** The score of the article before the geometry check: 4 for its two
    paragraphs and a hundredth per code unit of text. *)
Definition exampleScore (rect : option DOMRect) (p1 p2 : jsstring) : Q :=
  fl (fl (0 + fl (ofNat 2 * 2))
      + Qmin (fl (ofNat (textLength (exampleArticle rect p1 p2)) / 100)) 20).

(** A column with one short paragraph and the layout box from [left] to
    [left + width]. *)
Definition columnAt (left width : Q) : elementNode :=
  {| attributes := {| ns := HTML; localName := lit "div"; classAttr := [];
                      idAttr := [];
                      boundingRect :=
                        Some {| rectLeft := left; rectWidth := width |} |};
     childNodes := [ plain "p" [Text (lit "Related stories")] ] |}.

(** A block with a content hint in its id, four paragraphs and two code
    units of text, centred in a viewport 1000 wide. *)
Definition hintedBlock (cls : string) : elementNode :=
  {| attributes := {| ns := HTML; localName := lit "div";
                      classAttr := lit cls; idAttr := lit "story";
                      boundingRect := Some centredBox |};
     childNodes := [ plain "p" [Text (lit "a")]; plain "p" [Text (lit "b")];
                     plain "p" []; plain "p" [] ] |}.

(** A [<div>] with a class attribute. *)
Definition classed (cls : string) (kids : list node) : elementNode :=
  {| attributes := {| ns := HTML; localName := lit "div";
                      classAttr := lit cls; idAttr := [];
                      boundingRect := None |};
     childNodes := kids |}.

(** Four paragraphs, 240 code units of text: valid content. *)
Definition story : list node := [paragraph; paragraph; paragraph; paragraph].

(** A page on which [.content] matches a short block first and a long one
    second, and [.article-body] matches a long block. *)
Definition classPage : Document :=
  page 1024
    [ toNode (classed "content" [paragraph]);
      toNode (classed "content" story);
      toNode (classed "article-body" story) ].

(** ** Words and normal form of a text *)

(** The words of a text: the non-empty pieces between white-space runs. *)
Definition words (s : jsstring) : list jsstring :=
  List.filter nonEmpty (splitWhitespace s).

(** Every white-space code unit of [s] is a space that does not follow
    white space; [prev] tells whether white space precedes [s]. *)
Fixpoint isCollapsed (prev : bool) (s : jsstring) : bool :=
  match s with
  | [] => true
  | c :: s' =>
      if isWhiteSpace c
      then N.eqb c SPACE && negb prev && isCollapsed true s'
      else isCollapsed false s'
  end.

(** The text does not end in white space. *)
Definition endsOutsideWhiteSpace (s : jsstring) : Prop :=
  forall r c, s = r ++ [c] -> isWhiteSpace c = false.

(** The text the fallback listener works on: the body's [textContent],
    or its [innerText] when that is empty, cleaned. *)
Definition fallbackCleanText (doc : Document) (body : elementNode)
  : jsstring :=
  trim (collapseWhitespace
          match textContent body with
          | [] => bodyInnerText doc
          | c :: t => c :: t
          end).

(** A body text of 1001 words, 5004 code units once cleaned. *)
Definition longBodyPage : Document :=
  page 1024 [Text (concat (repeat (lit "word ") 1001))].

(** A block of downloads: its class name contains [ads] inside
    [downloads]. *)
Definition downloadsBlock : elementNode := classed "downloads" story.

(** ** The heuristic strategy, container by container *)

(** [a] may stand before [b] after the sort: its score is not lower. *)
Definition notBelow (a b : scoredCandidate) : Prop :=
  (score b <= score a)%Q.

Section HeuristicVocabulary.

Variable unicodeLower : jsstring -> jsstring.
Variable selectorError : jsstring -> option exn.
Variable doc : Document.

(** What one container contributes to the candidates: nothing when it is
    excluded or its score is not above 0, else itself with its score. *)
Definition candidateFor (container : located)
  : completion (option scoredCandidate) :=
  excluded ← shouldExcludeElement unicodeLower (Some (element container));
  if (excluded : bool) then Normal None
  else
    s ← calculateContentScore unicodeLower selectorError doc
          (element container);
    Normal (if Qltb 0 s
            then Some {| scoredElement := container; score := s |}
            else None).

End HeuristicVocabulary.

(** The example article, centred in a viewport 1000 wide. *)
Definition centredArticlePage : Document :=
  articlePage 1000 (Some centredBox) sentence secondSentence.

Definition centredArticle : located :=
  articleLocated (Some centredBox) sentence secondSentence.

(** ** The paragraph strategy, paragraph by paragraph *)

(** The paragraph is copied into the container: its trimmed text is
    longer than 50 and its parent is not excluded. *)
Definition qualifies (unicodeLower : jsstring -> jsstring) (p : located)
  : bool :=
  (50 <? length (trim (textContent (element p))))
  && match shouldExcludeElement unicodeLower (parentElement p) with
     | Normal false => true
     | _ => false
     end.

(** What a copied paragraph adds to [totalText]. *)
Definition paragraphShare (p : located) : jsstring :=
  trim (textContent (element p)) ++ [SPACE].

(** One paragraph of 243 code units of text and two of one letter. *)
Definition oneLongParagraphPage : Document :=
  page 1024
    [ plain "p" [Text (sentence ++ SPACE :: sentence ++ SPACE :: sentence
                       ++ SPACE :: sentence)];
      plain "p" [Text (lit "a")];
      plain "p" [Text (lit "b")] ].

(** ** Removal of excluded nodes, child by child *)

(** The children of a pruned element: the inner loop of [prune]. *)
Fixpoint pruneForest (sel : list simpleSelector) (ks : list node)
  : list node :=
  match ks with
  | [] => []
  | k :: ks' =>
      if matchesSelector sel k then pruneForest sel ks'
      else prune sel k :: pruneForest sel ks'
  end.

(** No element of the traversal matches the selector. *)
Definition noneMatches (sel : list simpleSelector) (l : list located)
  : Prop :=
  Forall (fun x => elementMatches sel x = false) l.

(** Every element of the first traversal has the attributes of some
    element of the second. *)
Definition attributesAmong (l l' : list located) : Prop :=
  forall x, In x l ->
    exists x', In x' l' /\ attributes (element x) = attributes (element x').

(** ** The normalizer, in closed form *)

(** The clone after the exclusion loop. *)
Definition filteredClone (selectorError : jsstring -> option exn)
  (el : elementNode) : elementNode :=
  foldl (removeExcluded selectorError) el selectors_exclude.

(** The trimmed, non-empty texts of the paragraphs and headings left in
    the clone, in document order. *)
Definition textBlocks (selectorError : jsstring -> option exn)
  (el : elementNode) : list jsstring :=
  List.filter nonEmpty
    (List.map (fun p => trim (textContent (element p)))
       (List.filter (elementMatches (parseSelector textSelector))
          (descendantElements (filteredClone selectorError el)))).

(** A text block as it enters the extracted text. *)
Definition withBreak (block : jsstring) : jsstring := block ++ [LF; LF].

(** ** The dataset store around a run *)

(** [st'] differs from [st] on no element of the document, except
    perhaps the candidate returned. *)
Definition datasetFrame (r : completion (option candidate))
  (st st' : store) : Prop :=
  forall p,
    match r with
    | Normal (Some c) => InDocument p <> ref c
    | _ => True
    end ->
    st' !! InDocument p = st !! InDocument p.

(** ** Pages without markers, and an article with little paragraph text *)

(** The selectors the search for a content element hands to the host. *)
Definition locatorSelectors : list jsstring :=
  selectors_article :: selectors_main :: containerSelector :: lit "p"
  :: selectors_content.

(** The local names the container selector lists. *)
Definition containerNames : list jsstring :=
  [ lit "div"; lit "section"; lit "article"; lit "main" ].

(** An element the first four strategies can pick up: a container by its
    local name, or any element by one of the class names of the
    class-based strategy. *)
Definition hasMarker (l : located) : bool :=
  bool_decide (localName (attributes (element l)) ∈ containerNames)
  || existsb (fun cls => bool_decide (DOT :: cls ∈ selectors_content))
             (classList (attributes (element l))).

Definition withoutMarkers (doc : Document) : bool :=
  forallb (fun l => negb (hasMarker l)) (documentElements doc).

(** The number of [<p>] elements of the whole document. *)
Definition documentParagraphCount (doc : Document) : nat :=
  length (List.filter (elementMatches (parseSelector (lit "p")))
                      (documentElements doc)).

(** A navigation menu followed by two paragraphs. *)
Definition menuPage : Document :=
  page 1024
    [ plain "nav" [ plain "ul" [ plain "li" [Text sentence];
                                 plain "li" [Text secondSentence] ] ];
      paragraph; paragraph ].

(** An article whose 240 code units of text sit in a [<span>], beside
    two short paragraphs. *)
Definition captionedArticle : elementNode :=
  plainElement "article"
    [ plain "span" [Text (sentence ++ sentence ++ sentence ++ sentence)];
      plain "p" [Text (lit "Photo: agency")];
      plain "p" [Text (lit "Updated today")] ].

Definition captionedPage : Document := page 1024 [toNode captionedArticle].

Definition captionedLocated : located :=
  {| path := [0; 1; 0];
     element := captionedArticle;
     parentElement := Some (plainElement "body" [toNode captionedArticle]) |}.

(** ** Sentences *)

(** A sentence as it is typed: 48 code units or more, no white space at
    its ends and none doubled inside. *)
Definition sentenceLike (p : jsstring) : Prop :=
  cleanText p = p /\ 48 <= length p.

(** ** The tokens of a text *)

(** The number of tokens that white space delimits in [s]: the code
    units that are not white space and either start the text or follow
    white space.  [afterWhiteSpace] tells whether a token can start
    here. *)
Fixpoint countTokens (afterWhiteSpace : bool) (s : jsstring) : nat :=
  match s with
  | [] => 0
  | c :: s' =>
      if isWhiteSpace c then countTokens true s'
      else (if afterWhiteSpace then 1 else 0) + countTokens false s'
  end.

Definition tokenCount (s : jsstring) : nat := countTokens true s.

(** ** Containers with scores that differ only by rounding *)

(** A block with one code unit of text and [n] empty paragraphs. *)
Definition sparseBlock (cls : string) (n : nat) : elementNode :=
  classed cls (Text (lit "a") :: repeat (plain "p" []) n).

(** Three containers: the sums 10 + 6 + 0.01, 16 + 0.01 and 16 + 0.01
    are the same number, but the first is the double
    16.009999999999998 and the others the double 16.01. *)
Definition tiePage : Document :=
  page 1024
    [ toNode (sparseBlock "content" 3);
      toNode (sparseBlock "" 8);
      toNode (sparseBlock "" 8) ].

Definition tieContainer (i : nat) (cls : string) (n : nat) : located :=
  {| path := [0; 1; i];
     element := sparseBlock cls n;
     parentElement :=
       Some (plainElement "body"
               [ toNode (sparseBlock "content" 3);
                 toNode (sparseBlock "" 8);
                 toNode (sparseBlock "" 8) ]) |}.

(** * The background service *)

Module BiasDetectionService.

(** [url.startsWith(prefix)] *)
Definition urlStartsWith (url prefix : jsstring) : bool :=
  startsWith prefix url.

(** [canInjectScript(url)]; [None] is a tab without a [url]. *)
Definition canInjectScript (url : option jsstring) : bool :=
  match url with
  | None | Some [] => false
  | Some url =>
      if urlStartsWith url (lit "chrome://")
         || urlStartsWith url (lit "chrome-extension://")
         || urlStartsWith url (lit "moz-extension://")
         || urlStartsWith url (lit "edge://")
         || urlStartsWith url (lit "about:")
         || urlStartsWith url (lit "file://")
      then false
      else urlStartsWith url (lit "http://")
           || urlStartsWith url (lit "https://")
  end.

(** [ToInt32]: the signed 32-bit integer congruent to [z]. *)
Definition toInt32 (z : Z) : Z := ((z + 2 ^ 31) mod 2 ^ 32 - 2 ^ 31)%Z.

(** [x << k] *)
Definition shiftLeft (x : Z) (k : Z) : Z := toInt32 (toInt32 x * 2 ^ k)%Z.

(** [x & x] *)
Definition andSelf (x : Z) : Z := toInt32 x.

(** One turn of the loop of [generateCacheKey]. *)
Definition hashStep (hash : Z) (char : N) : Z :=
  let hash := ((shiftLeft hash 5 - hash) + Z.of_N char)%Z in
  andSelf hash.

Definition hashOf (text : jsstring) : Z := fold_left hashStep text 0%Z.

(** [n.toString()] of an integer. *)
Definition numberToString (n : Z) : jsstring :=
  lit (NilZero.string_of_int (Z.to_int n)).

Definition generateCacheKey (text : jsstring) : jsstring :=
  numberToString (hashOf text).

(** 24 hours in milliseconds. *)
Definition cacheExpiry : Z := (24 * 60 * 60 * 1000)%Z.

Section Cache.

(** The type of analysis results. *)
Variable R : Type.

Record cacheEntry := {
  result : R;
  timestamp : Z
}.

(** The [Map] of the service: its entries in insertion order. *)
Definition cache := list (jsstring * cacheEntry).

Definition keys (c : cache) : list jsstring := List.map fst c.

(** [map.get(key)] *)
Fixpoint mapGet (key : jsstring) (c : cache) : option cacheEntry :=
  match c with
  | [] => None
  | (k, v) :: c' => if bool_decide (k = key) then Some v else mapGet key c'
  end.

(** [map.set(key, value)]: an existing key keeps its place. *)
Fixpoint mapSet (key : jsstring) (value : cacheEntry) (c : cache) : cache :=
  match c with
  | [] => [(key, value)]
  | (k, v) :: c' =>
      if bool_decide (k = key) then (k, value) :: c'
      else (k, v) :: mapSet key value c'
  end.

(** [map.delete(key)] *)
Fixpoint mapDelete (key : jsstring) (c : cache) : cache :=
  match c with
  | [] => []
  | (k, v) :: c' =>
      if bool_decide (k = key) then c' else (k, v) :: mapDelete key c'
  end.

(** [getFromCache(key)] at time [now] *)
Definition getFromCache (key : jsstring) (now : Z) (c : cache) : option R :=
  match mapGet key c with
  | Some cached =>
      if (now - timestamp cached <? cacheExpiry)%Z
      then Some (result cached)
      else None
  | None => None
  end.

(** [saveToCache(key, result)] at time [now] *)
Definition saveToCache (key : jsstring) (r : R) (now : Z) (c : cache)
  : cache :=
  let c := mapSet key {| result := r; timestamp := now |} c in
  if 100 <? length c
  then match c with
       | (oldestKey, _) :: _ => mapDelete oldestKey c
       | [] => c
       end
  else c.

End Cache.

Arguments result {R} _.
Arguments timestamp {R} _.
Arguments mapGet {R} key c.
Arguments mapSet {R} key value c.
Arguments mapDelete {R} key c.
Arguments keys {R} c.
Arguments getFromCache {R} key now c.
Arguments saveToCache {R} key r now c.

(** The hash as a polynomial in 31, before it is wrapped. *)
Definition polynomialHash (text : jsstring) : Z :=
  fold_left (fun h c => (31 * h + Z.of_N c)%Z) text 0%Z.

(** A cache as the service keeps it: distinct keys, at most 100 entries. *)
Definition wellFormed {R : Type} (c : cache R) : Prop :=
  NoDup (keys c) /\ length c <= 100.

End BiasDetectionService.

(** A cache with one analysis, saved at time 0 under the key of ["Aa"]. *)
Definition oneEntryCache : BiasDetectionService.cache nat :=
  [ (BiasDetectionService.generateCacheKey (lit "Aa"),
     {| BiasDetectionService.result := 7;
        BiasDetectionService.timestamp := 0 |}) ].

(** * Properties *)

(** ** The string functions on examples *)

Example cleanText_demo :
  cleanText (lit "  two   words ") = lit "two words".
Proof. reflexivity. Qed.

Example collapseLineBreaks_demo :
  collapseLineBreaks [97; 10; 32; 10; 10; 9; 98]%N = [97; 10; 10; 9; 98]%N.
Proof. reflexivity. Qed.

Example splitWhitespace_demo :
  splitWhitespace (lit " a  b ") = [ []; lit "a"; lit "b"; [] ].
Proof. reflexivity. Qed.

Example countWords_demo : countWords (lit " a  b ") = 2.
Proof. reflexivity. Qed.

Example parseSelector_demo :
  parseSelector (lit "div, .main-content")
  = [TypeSelector (lit "div"); ClassSelector (lit "main-content")].
Proof. reflexivity. Qed.

(** ** White space, trimming and cleaning *)

Lemma LF_isWhiteSpace : isWhiteSpace LF = true.
Proof. reflexivity. Qed.

Lemma SPACE_isWhiteSpace : isWhiteSpace SPACE = true.
Proof. reflexivity. Qed.

Lemma trimStart_suffix (s : jsstring) : exists ws, s = ws ++ trimStart s.
Proof.
  induction s as [|c s IH]; simpl.
  - exists []. reflexivity.
  - destruct (isWhiteSpace c).
    + destruct IH as [ws IH]. exists (c :: ws). simpl. congruence.
    + exists []. reflexivity.
Qed.

Lemma trimStart_head (s : jsstring) (c : N) (r : jsstring) :
  trimStart s = c :: r -> isWhiteSpace c = false.
Proof.
  induction s as [|d s IH]; simpl; [discriminate|].
  destruct (isWhiteSpace d) eqn:E; [exact IH|].
  intros H. injection H as -> _. exact E.
Qed.

Lemma trimEnd_prefix (s : jsstring) : exists ws, s = trimEnd s ++ ws.
Proof.
  unfold trimEnd. destruct (trimStart_suffix (rev s)) as [ws H].
  exists (rev ws). rewrite <- rev_app_distr.
  rewrite <- H. symmetry. apply List.rev_involutive.
Qed.

(** A trimmed, non-empty string starts with a code unit that is not
    white space. *)
Lemma trim_head (s : jsstring) (c : N) (r : jsstring) :
  trim s = c :: r -> isWhiteSpace c = false.
Proof.
  unfold trim. intros H.
  destruct (trimEnd_prefix (trimStart s)) as [ws Hws].
  rewrite H in Hws. simpl in Hws.
  exact (trimStart_head _ _ _ Hws).
Qed.

Lemma trimStart_fixed (c : N) (s : jsstring) :
  isWhiteSpace c = false -> trimStart (c :: s) = c :: s.
Proof. intros H. simpl. rewrite H. reflexivity. Qed.

Lemma trimStart_app_keep (s t : jsstring) (c : N) :
  isWhiteSpace c = false -> exists r, trimStart (s ++ c :: t) = r ++ c :: t.
Proof.
  intros Hc. induction s as [|d s IH]; simpl.
  - rewrite Hc. exists []. reflexivity.
  - destruct (isWhiteSpace d).
    + exact IH.
    + exists (d :: s). reflexivity.
Qed.

(** Trimming the end keeps the first code unit of a string that starts
    outside white space. *)
Lemma trimEnd_keeps_head (c : N) (s : jsstring) :
  isWhiteSpace c = false -> exists r, trimEnd (c :: s) = c :: r.
Proof.
  intros Hc. unfold trimEnd. simpl rev.
  destruct (trimStart_app_keep (rev s) [] c Hc) as [r Hr].
  rewrite Hr, rev_app_distr. simpl. eauto.
Qed.

Lemma trim_keeps_head (c : N) (s : jsstring) :
  isWhiteSpace c = false -> exists r, trim (c :: s) = c :: r.
Proof.
  intros Hc. unfold trim. rewrite (trimStart_fixed _ _ Hc).
  exact (trimEnd_keeps_head _ _ Hc).
Qed.

Lemma trimStart_In (s : jsstring) (c : N) : In c (trimStart s) -> In c s.
Proof.
  destruct (trimStart_suffix s) as [ws H]. intros Hin.
  rewrite H. apply in_or_app. right. exact Hin.
Qed.

Lemma trim_In (s : jsstring) (c : N) : In c (trim s) -> In c s.
Proof.
  unfold trim, trimEnd. intros H.
  apply in_rev in H. apply trimStart_In in H. apply in_rev in H.
  exact (trimStart_In _ _ H).
Qed.

(** After [replace(/\s+/g, ' ')] the only white space left is the space. *)
Lemma collapseWsFrom_ws (b : bool) (s : jsstring) (c : N) :
  In c (collapseWsFrom b s) -> isWhiteSpace c = true -> c = SPACE.
Proof.
  revert b. induction s as [|d s IH]; intros b; simpl; [tauto|].
  destruct (isWhiteSpace d) eqn:E.
  - destruct b; simpl.
    + apply IH.
    + intros [<-|H] Hc; [reflexivity|]. exact (IH true H Hc).
  - simpl. intros [<-|H] Hc; [congruence|]. exact (IH false H Hc).
Qed.

Lemma collapseWhitespace_no_LF (s : jsstring) :
  ~ In LF (collapseWhitespace s).
Proof.
  intros H. pose proof (collapseWsFrom_ws _ _ _ H LF_isWhiteSpace).
  discriminate.
Qed.

(** Without a line feed there is nothing for the second [replace] to
    match. *)
Lemma collapseBreaksFrom_no_LF (s : jsstring) :
  ~ In LF s -> collapseBreaksFrom 0 s = s.
Proof.
  induction s as [|c s IH]; simpl; [reflexivity|].
  intros H. destruct (N.eqb_spec c LF) as [->|_].
  - exfalso. apply H. left. reflexivity.
  - rewrite IH; [reflexivity|]. intros Hin. apply H. right. exact Hin.
Qed.

(** [cleanText] is in effect the first [replace] followed by [trim]. *)
Lemma cleanText_eq (s : jsstring) :
  cleanText s = trim (collapseWhitespace s).
Proof.
  destruct s as [|c s]; [reflexivity|].
  unfold cleanText, collapseLineBreaks.
  rewrite collapseBreaksFrom_no_LF by apply collapseWhitespace_no_LF.
  reflexivity.
Qed.

Lemma cleanText_no_LF (s : jsstring) : ~ In LF (cleanText s).
Proof.
  rewrite cleanText_eq. intros H.
  exact (collapseWhitespace_no_LF s (trim_In _ _ H)).
Qed.

(** ** Counting words *)

Lemma splitWsFrom_word (cur s : jsstring) :
  cur <> [] ->
  1 <= length (List.filter nonEmpty (splitWsFrom false cur s)).
Proof.
  revert cur. induction s as [|c s IH]; intros cur Hcur; simpl.
  - destruct (rev cur) eqn:E; simpl; [|lia].
    apply (f_equal (@rev N)) in E. rewrite List.rev_involutive in E.
    simpl in E. contradiction.
  - destruct (isWhiteSpace c).
    + destruct (rev cur) eqn:E; simpl; [|lia].
      apply (f_equal (@rev N)) in E. rewrite List.rev_involutive in E.
      simpl in E. contradiction.
    + apply IH. discriminate.
Qed.

(** A string that starts outside white space has at least one word. *)
Lemma countWords_pos (c : N) (s : jsstring) :
  isWhiteSpace c = false -> 1 <= countWords (c :: s).
Proof.
  intros Hc. unfold countWords.
  destruct (trim_keeps_head c s Hc) as [r ->].
  unfold splitWhitespace. simpl. rewrite Hc.
  apply splitWsFrom_word. discriminate.
Qed.

Lemma countWords_cleanText (s : jsstring) :
  1 <= length (cleanText s) -> 1 <= countWords (cleanText s).
Proof.
  rewrite cleanText_eq. intros H.
  destruct (trim (collapseWhitespace s)) as [|c r] eqn:E; [simpl in H; lia|].
  apply countWords_pos. exact (trim_head _ _ _ E).
Qed.

(** ** The extraction result *)

Section ExtractorProperties.

Variable unicodeLower : jsstring -> jsstring.
Variable selectorError : jsstring -> option exn.
Variable doc : Document.

#[local] Abbreviation extract :=
  (extractArticleText unicodeLower selectorError doc).

(** The four shapes of a result: nothing found or a fault (empty text),
    and a cleaned text that is too short or long enough. *)
Lemma extractArticleText_shape (st : store) :
  let r := fst (extract st) in
  (success r = false /\ text r = [] /\ wordCount r = 0 /\
   (error r = Some msgNoContent \/
    exists e, error r = Some (msgFailedPrefix ++ message e)))
  \/
  (exists t, text r = cleanText t /\ wordCount r = countWords (cleanText t) /\
     ((success r = false /\ length (cleanText t) < 100 /\
       error r = Some msgTooShort)
      \/ (success r = true /\ 100 <= length (cleanText t)))).
Proof.
  unfold extractArticleText, extractArticleTextBody.
  unfold mbind, M_bind, mret, M_ret, lift, getExtractionMethod.
  destruct (locateContent _ _ _ st) as [[[c|]|e] st1]; simpl.
  - destruct (extractTextFromElement _ _) as [t|e]; simpl.
    + right. exists t.
      destruct (Nat.ltb_spec (length (cleanText t)) 100); simpl;
        repeat split; auto.
    + left. repeat split. right. eauto.
  - left. repeat split. left. reflexivity.
  - left. repeat split. right. eauto.
Qed.

(** A result with [success] comes from a located candidate and reports
    the tag read off that candidate. *)
Lemma extractArticleText_success (st : store) :
  success (fst (extract st)) = true ->
  exists c st1,
    locateContent unicodeLower selectorError doc st = (Normal (Some c), st1)
    /\ extractionMethod (fst (extract st))
       = Some match st1 !! ref c with
              | Some (x :: tag) => x :: tag
              | _ => lit "unknown"
              end.
Proof.
  unfold extractArticleText, extractArticleTextBody.
  unfold mbind, M_bind, mret, M_ret, lift, getExtractionMethod.
  destruct (locateContent _ _ _ st) as [[[c|]|e] st1]; simpl;
    try discriminate.
  destruct (extractTextFromElement _ _) as [t|e]; simpl; try discriminate.
  destruct (length (cleanText t) <? 100); simpl; try discriminate.
  intros _. exists c, st1. split; reflexivity.
Qed.

Lemma msgFailed_nonempty (e : exn) : msgFailedPrefix ++ message e <> [].
Proof. discriminate. Qed.

(** C1. Every result of [extractArticleText]: with [success] the text has
    at least 100 code units and at least one word is counted; without
    [success] the [error] field holds a non-empty message. *)
Theorem extractArticleText_result_invariant (st : store) :
  let r := fst (extractArticleText unicodeLower selectorError doc st) in
  (success r = true -> 100 <= length (text r) /\ 1 <= wordCount r) /\
  (success r = false -> exists msg, error r = Some msg /\ msg <> []).
Proof.
  intros r. subst r.
  destruct (extractArticleText_shape st)
    as [(Hs & _ & _ & He) | (t & Ht & Hw & Hc)].
  - split; [congruence|]. intros _.
    destruct He as [He | [e He]]; rewrite He.
    + eexists. split; [reflexivity | discriminate].
    + eexists. split; [reflexivity | apply msgFailed_nonempty].
  - destruct Hc as [(Hs & _ & He) | (Hs & Hlen)].
    + split; [congruence|]. intros _. rewrite He.
      eexists. split; [reflexivity | discriminate].
    + split; [|congruence]. intros _. rewrite Ht, Hw.
      split; [exact Hlen|]. apply countWords_cleanText. lia.
Qed.

(** The too-short result keeps the cleaned text and counts its words. *)
Lemma extractArticleText_too_short_keeps_text (st : store) :
  let r := fst (extract st) in
  error r = Some msgTooShort ->
  exists t, text r = cleanText t /\ length (text r) < 100 /\
            wordCount r = countWords (text r).
Proof.
  intros r. subst r.
  destruct (extractArticleText_shape st)
    as [(_ & _ & _ & He) | (t & Ht & Hw & Hc)].
  - destruct He as [He | [e He]]; rewrite He; discriminate.
  - destruct Hc as [(_ & Hlen & _) | (Hs & _)].
    + intros _. exists t. rewrite Ht, Hw. auto.
    + intros He. exfalso. revert Hs He.
      unfold extractArticleText, extractArticleTextBody.
      unfold mbind, M_bind, mret, M_ret, lift, getExtractionMethod.
      destruct (locateContent _ _ _ st) as [[[c|]|e] st1]; simpl;
        try discriminate.
      destruct (extractTextFromElement _ _) as [t0|e]; simpl;
        try discriminate.
      destruct (length (cleanText t0) <? 100); simpl; discriminate.
Qed.

End ExtractorProperties.

Lemma splitWsFrom_nonempty (b : bool) (cur s : jsstring) :
  1 <= length (splitWsFrom b cur s).
Proof.
  revert b cur. induction s as [|c s IH]; intros b cur; simpl; [lia|].
  destruct (isWhiteSpace c); [destruct b|]; simpl; try apply IH. lia.
Qed.

(** The fallback listener's results obey the same invariant. *)
Lemma fallbackExtractText_result_invariant (doc : Document) :
  let r := fallbackExtractText doc in
  (success r = true -> 100 <= length (text r) /\ 1 <= wordCount r) /\
  (success r = false -> exists msg, error r = Some msg /\ msg <> []).
Proof.
  unfold fallbackExtractText.
  destruct (documentBody doc) as [body|]; cbn zeta.
  - destruct (Nat.ltb_spec 100
                (length (trim (collapseWhitespace
                   match textContent body with
                   | [] => bodyInnerText doc
                   | c :: t => c :: t
                   end)))) as [Hlen | Hlen];
      cbn [success text wordCount error].
    + split; [|discriminate]. intros _. split.
      * unfold substring0. rewrite length_take. lia.
      * apply splitWsFrom_nonempty.
    + split; [discriminate|]. intros _.
      eexists. split; [reflexivity | discriminate].
  - cbn [success text wordCount error]. split; [discriminate|]. intros _.
    eexists. split; [reflexivity | discriminate].
Qed.

(** C5 (failing input). The normalizer puts a double line break after
    each paragraph, and [cleanText] then turns each of them into one
    space: the cleaned text of two paragraphs has no line break left. *)
Theorem cleanText_drops_paragraph_breaks :
  extractTextFromElement acceptAll twoParagraphs
  = Normal (lit "First paragraph." ++ [LF; LF]
            ++ lit "Second paragraph." ++ [LF; LF])
  /\ cleanText (lit "First paragraph." ++ [LF; LF]
                ++ lit "Second paragraph." ++ [LF; LF])
     = lit "First paragraph. Second paragraph."
  /\ forall t, ~ In LF (cleanText t).
Proof.
  split; [reflexivity|]. split; [reflexivity|]. exact cleanText_no_LF.
Qed.

(** C7 (failing input). On a short page the fallback listener keeps the
    text it gathered but reports a word count of 0, whatever the number
    of words in that text. *)
Theorem fallback_short_text_wordCount_zero :
  let r := fallbackExtractText (page 1024 [Text (lit "hello world")]) in
  success r = false /\ text r = lit "hello world" /\
  wordCount r = 0 /\ countWords (text r) = 2.
Proof. repeat split. Qed.

Section CascadeProperties.

Variable unicodeLower : jsstring -> jsstring.
Variable selectorError : jsstring -> option exn.
Variable doc : Document.

#[local] Abbreviation run := (runStrategy unicodeLower selectorError doc).
#[local] Abbreviation first := (firstSuccess unicodeLower selectorError doc).
#[local] Abbreviation locate := (locateContent unicodeLower selectorError doc).

(** One case analysis on the outcome of the next query or strategy. *)
Local Ltac case_outcome :=
  match goal with
  | |- context [querySelector ?e ?s ?sel] =>
      destruct (querySelector e s sel) as [[?|]|?]
  | |- context [isValidContent ?e ?x] =>
      destruct (isValidContent e x) as [[|]|?]
  | |- context [findContentByClass ?e ?d ?st] =>
      destruct (findContentByClass e d st) as [[[?|]|?] ?]
  | |- context [findContentByHeuristics ?u ?e ?d ?st] =>
      destruct (findContentByHeuristics u e d st) as [[[?|]|?] ?]
  | |- context [findContentFromParagraphs ?u ?e ?d ?st] =>
      destruct (findContentFromParagraphs u e d st) as [[[?|]|?] ?]
  end; cbv beta iota; try reflexivity.

(** The search written in [extractArticleText] is the first success over
    the cascade. *)
Lemma locateContent_firstSuccess (st : store) :
  locate st = (r ← first cascade; mret (snd <$> r)) st.
Proof.
  unfold locateContent, cascade, firstSuccess, runStrategy.
  unfold findSemanticContent, semanticStrategy.
  unfold mbind, M_bind, mret, M_ret, lift, setExtractionMethod.
  repeat case_outcome.
Qed.

Lemma semanticStrategy_tagged (selector tag : jsstring) (st st' : store)
  (c : candidate) :
  semanticStrategy selectorError doc selector tag st = (Normal (Some c), st') ->
  st' !! ref c = Some tag.
Proof.
  unfold semanticStrategy.
  unfold mbind, M_bind, mret, M_ret, lift, setExtractionMethod.
  repeat case_outcome; intros H; inversion H; subst.
  apply lookup_insert_eq.
Qed.

Lemma findContentByClassFrom_tagged (selectors : list jsstring)
  (st st' : store) (c : candidate) :
  findContentByClassFrom selectorError doc selectors st
  = (Normal (Some c), st') ->
  st' !! ref c = Some tagClassBased.
Proof.
  induction selectors as [|selector rest IH]; cbn [findContentByClassFrom].
  - intros H. inversion H.
  - unfold mbind, M_bind, mret, M_ret, lift, setExtractionMethod.
    repeat case_outcome; try exact IH; intros H; inversion H; subst.
    apply lookup_insert_eq.
Qed.

Lemma findContentByHeuristics_tagged (st st' : store) (c : candidate) :
  findContentByHeuristics unicodeLower selectorError doc st
  = (Normal (Some c), st') ->
  st' !! ref c = Some tagHeuristic.
Proof.
  unfold findContentByHeuristics.
  unfold mbind, M_bind, mret, M_ret, lift, setExtractionMethod.
  destruct (querySelectorAll _ _ _) as [containers|e];
    [|intros H; inversion H].
  destruct (collectCandidates _ _ _ _) as [candidates|e];
    [|intros H; inversion H].
  destruct (sortByScore candidates) as [|best rest];
    [intros H; inversion H|].
  destruct (Qltb 10 (score best)); intros H; inversion H; subst.
  apply lookup_insert_eq.
Qed.

Lemma findContentFromParagraphs_tagged (st st' : store) (c : candidate) :
  findContentFromParagraphs unicodeLower selectorError doc st
  = (Normal (Some c), st') ->
  st' !! ref c = Some tagParagraphs.
Proof.
  unfold findContentFromParagraphs.
  unfold mbind, M_bind, mret, M_ret, lift, setExtractionMethod, createElement.
  destruct (querySelectorAll _ _ _) as [paragraphs|e];
    [|intros H; inversion H].
  destruct (length paragraphs <? 3); [intros H; inversion H|].
  destruct (gatherParagraphs _ _ _ _) as [[kids totalText]|e];
    [|intros H; inversion H].
  destruct (200 <? length totalText); intros H; inversion H; subst.
  apply lookup_insert_eq.
Qed.

(** A strategy that yields a candidate has just written its own tag on
    that candidate. *)
Lemma runStrategy_tagged (s : strategy) (st st' : store) (c : candidate) :
  run s st = (Normal (Some c), st') -> st' !! ref c = Some (methodTag s).
Proof.
  destruct s; cbn [runStrategy methodTag].
  - apply semanticStrategy_tagged.
  - apply semanticStrategy_tagged.
  - apply findContentByClassFrom_tagged.
  - apply findContentByHeuristics_tagged.
  - apply findContentFromParagraphs_tagged.
Qed.

Lemma firstSuccess_tagged (strategies : list strategy) (st st' : store)
  (s : strategy) (c : candidate) :
  first strategies st = (Normal (Some (s, c)), st') ->
  st' !! ref c = Some (methodTag s).
Proof.
  revert st. induction strategies as [|s0 rest IH]; intros st;
    cbn [firstSuccess].
  - intros H. inversion H.
  - unfold mbind, M_bind, mret, M_ret.
    destruct (run s0 st) as [[[c0|]|e] st1] eqn:E.
    + intros H. inversion H; subst. exact (runStrategy_tagged _ _ _ _ E).
    + apply IH.
    + intros H. inversion H.
Qed.

Lemma methodTag_truthy (s : strategy) :
  exists c tag, methodTag s = c :: tag.
Proof. destruct s; cbv; eauto. Qed.


End CascadeProperties.

(** ** The class-based strategy *)

Section ClassBased.

Variable selectorError : jsstring -> option exn.
Variable doc : Document.

#[local] Abbreviation byClassFrom := (findContentByClassFrom selectorError doc).

Lemma findContentByClassFrom_skip (selector : jsstring)
  (rest : list jsstring) (st : store) :
  firstMatchIfValid selectorError doc selector = Normal None ->
  byClassFrom (selector :: rest) st = byClassFrom rest st.
Proof.
  cbn [findContentByClassFrom]. unfold firstMatchIfValid, querySelector.
  unfold mbind, M_bind, mret, M_ret, lift, completion_bind, completion_ret.
  destruct (querySelectorAll _ _ _) as [[|el others]|e]; cbn [head];
    [reflexivity | | discriminate].
  destruct (isValidContent _ _) as [[|]|e]; [discriminate | reflexivity |
                                             discriminate].
Qed.

Lemma findContentByClassFrom_hit (selector : jsstring)
  (rest : list jsstring) (st : store) (el : located) :
  firstMatchIfValid selectorError doc selector = Normal (Some el) ->
  byClassFrom (selector :: rest) st
  = (Normal (Some (candidateOf el)),
     <[InDocument (path el) := tagClassBased]> st).
Proof.
  cbn [findContentByClassFrom]. unfold firstMatchIfValid, querySelector.
  unfold mbind, M_bind, mret, M_ret, lift, completion_bind, completion_ret,
    setExtractionMethod.
  destruct (querySelectorAll _ _ _) as [[|el0 others]|e]; cbn [head];
    [discriminate | | discriminate].
  destruct (isValidContent _ _) as [[|]|e]; [|discriminate|discriminate].
  intros H. inversion H; subst. reflexivity.
Qed.

Lemma findContentByClassFrom_throw (selector : jsstring)
  (rest : list jsstring) (st : store) (e : exn) :
  firstMatchIfValid selectorError doc selector = Throw e ->
  byClassFrom (selector :: rest) st = (Throw e, st).
Proof.
  cbn [findContentByClassFrom]. unfold firstMatchIfValid, querySelector.
  unfold mbind, M_bind, mret, M_ret, lift, completion_bind, completion_ret.
  destruct (querySelectorAll _ _ _) as [[|el0 others]|e0]; cbn [head];
    [discriminate | | intros H; inversion H; reflexivity].
  destruct (isValidContent _ _) as [[|]|e0]; [discriminate|discriminate|].
  intros H. inversion H; subst. reflexivity.
Qed.

(** The loop returns a node exactly when the selectors split into a
    prefix that contributes nothing, a selector whose first match is
    valid, and a rest that plays no part. *)
Lemma findContentByClassFrom_spec (selectors : list jsstring) (st st' : store)
  (c : candidate) :
  byClassFrom selectors st = (Normal (Some c), st') <->
  exists before selector after el,
    selectors = before ++ selector :: after /\
    Forall (fun s => firstMatchIfValid selectorError doc s = Normal None)
           before /\
    firstMatchIfValid selectorError doc selector = Normal (Some el) /\
    c = candidateOf el /\
    st' = <[InDocument (path el) := tagClassBased]> st.
Proof.
  split.
  - induction selectors as [|selector rest IH].
    + cbn. intros H. inversion H.
    + destruct (firstMatchIfValid selectorError doc selector)
        as [[el|]|e] eqn:E.
      * rewrite (findContentByClassFrom_hit _ rest st _ E).
        intros H. inversion H; subst.
        exists [], selector, rest, el. repeat split; auto.
      * rewrite (findContentByClassFrom_skip _ rest st E). intros H.
        destruct (IH H) as (before & sel & after & el & -> & Hb & Hs & Hc).
        exists (selector :: before), sel, after, el.
        repeat split; try tauto. constructor; assumption.
      * rewrite (findContentByClassFrom_throw _ rest st _ E).
        intros H. inversion H.
  - intros (before & selector & after & el & -> & Hb & Hs & -> & ->).
    induction Hb as [|s before Hs0 Hb IH].
    + apply findContentByClassFrom_hit. exact Hs.
    + cbn [app]. rewrite (findContentByClassFrom_skip _ _ st Hs0). exact IH.
Qed.

(** C8. The class-based strategy tries the selectors of the fixed list in
    order; each contributes only its first match in document order, and
    only if that match is valid; the node returned is that of the first
    selector that contributes one, whatever the selectors after it would
    match. *)
Theorem findContentByClass_first_valid_selector (st st' : store)
  (c : candidate) :
  findContentByClass selectorError doc st = (Normal (Some c), st') <->
  exists before selector after el,
    selectors_content = before ++ selector :: after /\
    Forall (fun s => firstMatchIfValid selectorError doc s = Normal None)
           before /\
    firstMatchIfValid selectorError doc selector = Normal (Some el) /\
    c = candidateOf el /\
    st' = <[InDocument (path el) := tagClassBased]> st.
Proof. apply findContentByClassFrom_spec. Qed.

End ClassBased.

(** The second, valid match of [.content] is never looked at: the first
    match is too short, so the loop moves on and returns the block found
    by [.article-body]. *)
Example findContentByClass_first_match_only :
  firstMatchIfValid acceptAll classPage (lit ".content") = Normal None
  /\ fst (findContentByClass acceptAll classPage ∅)
     = Normal (Some {| ref := InDocument [0; 1; 2];
                       content := classed "article-body" story |})
  /\ snd (findContentByClass acceptAll classPage ∅) !! InDocument [0; 1; 2]
     = Some tagClassBased.
Proof. repeat split. Qed.

(** ** Traversals *)

(** Induction on a tree with the hypothesis for every child. *)
Lemma node_forall_ind (P : node -> Prop)
  (HText : forall s, P (Text s))
  (HElement : forall a kids, Forall P kids -> P (Element a kids)) :
  forall n, P n.
Proof.
  fix IH 1. intros [s | a kids].
  - apply HText.
  - apply HElement. induction kids as [|k kids IHkids].
    + constructor.
    + constructor; [apply IH | exact IHkids].
Qed.

Lemma subtreeElements_Element (parent : option elementNode) (p : list nat)
  (a : attrs) (kids : list node) :
  subtreeElements parent p (Element a kids)
  = {| path := p; element := {| attributes := a; childNodes := kids |};
       parentElement := parent |}
    :: forestElements (Some {| attributes := a; childNodes := kids |}) p 0 kids.
Proof.
  cbn [subtreeElements]. f_equal.
  generalize (Some {| attributes := a; childNodes := kids |}) as el.
  generalize 0 as i. induction kids as [|k kids IH]; intros i el.
  - reflexivity.
  - cbn [forestElements]. rewrite <- IH. reflexivity.
Qed.

Lemma forestElements_elements (kids : list node) :
  Forall sameElements kids ->
  forall parent parent' p p' i i',
    List.map element (forestElements parent p i kids)
    = List.map element (forestElements parent' p' i' kids).
Proof.
  induction 1 as [|k kids Hk _ IH]; intros; cbn [forestElements].
  - reflexivity.
  - rewrite !List.map_app.
    rewrite (Hk parent parent' (p ++ [i]) (p' ++ [i'])).
    rewrite (IH parent parent' p p' (S i) (S i')). reflexivity.
Qed.

Lemma subtreeElements_elements (n : node) : sameElements n.
Proof.
  induction n as [s | a kids IH] using node_forall_ind; intros ? ? ? ?.
  - reflexivity.
  - rewrite !subtreeElements_Element. cbn [List.map element]. f_equal.
    apply forestElements_elements. exact IH.
Qed.

(** The descendants of an element are those of its children, whatever
    its own attributes. *)
Lemma descendantElements_elements (el el' : elementNode) :
  childNodes el = childNodes el' ->
  List.map element (descendantElements el)
  = List.map element (descendantElements el').
Proof.
  unfold descendantElements. intros ->.
  apply forestElements_elements.
  apply Forall_forall. intros k _. apply subtreeElements_elements.
Qed.

Lemma filter_elements_length (sel : list simpleSelector)
  (l l' : list located) :
  List.map element l = List.map element l' ->
  length (List.filter (elementMatches sel) l)
  = length (List.filter (elementMatches sel) l').
Proof.
  revert l'. induction l as [|x l IH]; intros [|x' l'] H;
    try discriminate; [reflexivity|].
  cbn [List.map] in H. injection H as Hx Hl.
  cbn [List.filter].
  assert (elementMatches sel x = elementMatches sel x') as ->
    by (unfold elementMatches; rewrite Hx; reflexivity).
  destruct (elementMatches sel x'); cbn [length];
    rewrite (IH l' Hl); reflexivity.
Qed.

(** ** Rounding to the nearest double *)

Lemma pow2_pos (e : Z) : (0 < pow2 e)%Q.
Proof. apply Qpower_0_lt. reflexivity. Qed.

Lemma pow2_le (a b : Z) : (a <= b)%Z -> (pow2 a <= pow2 b)%Q.
Proof. intros H. apply Qpower_le_compat_l; [exact H | discriminate]. Qed.

Lemma pow2_plus (a b : Z) : (pow2 (a + b) == pow2 a * pow2 b)%Q.
Proof. apply Qpower_plus. discriminate. Qed.

Lemma pow2_Z (n : Z) : (0 <= n)%Z -> (pow2 n == inject_Z (2 ^ n))%Q.
Proof. intros H. unfold pow2. rewrite Zpower_Qpower by exact H. reflexivity. Qed.

Lemma exponentOf_spec (q : Q) :
  (0 < q)%Q ->
  (pow2 (exponentOf q) <= q)%Q /\ (q < pow2 (exponentOf q + 1))%Q.
Proof.
  intros Hq. destruct q as [n d].
  assert (Hn : (0 < n)%Z).
  { unfold Qlt in Hq. simpl in Hq. lia. }
  unfold exponentOf. cbn [Qnum Qden].
  set (a := Z.log2 n). set (b := Z.log2 (Z.pos d)).
  destruct (Z.log2_spec n Hn) as [Ha1 Ha2]. fold a in Ha1, Ha2.
  destruct (Z.log2_spec (Z.pos d) eq_refl) as [Hb1 Hb2]. fold b in Hb1, Hb2.
  assert (Ha0 : (0 <= a)%Z) by apply Z.log2_nonneg.
  assert (Hb0 : (0 <= b)%Z) by apply Z.log2_nonneg.
  assert (HN1 : (pow2 a <= inject_Z n)%Q).
  { rewrite pow2_Z by exact Ha0. rewrite <- Zle_Qle. exact Ha1. }
  assert (HN2 : (inject_Z n < pow2 (a + 1))%Q).
  { rewrite pow2_Z by lia. rewrite <- Zlt_Qlt. rewrite <- Z.add_1_r in Ha2.
    exact Ha2. }
  assert (HD1 : (pow2 b <= inject_Z (Z.pos d))%Q).
  { rewrite pow2_Z by exact Hb0. rewrite <- Zle_Qle. exact Hb1. }
  assert (HD2 : (inject_Z (Z.pos d) < pow2 (b + 1))%Q).
  { rewrite pow2_Z by lia. rewrite <- Zlt_Qlt. rewrite <- Z.add_1_r in Hb2.
    exact Hb2. }
  assert (HD0 : (0 < inject_Z (Z.pos d))%Q) by reflexivity.
  assert (Hup : (n # d < pow2 (a - b + 1))%Q).
  { rewrite (Qmake_Qdiv n d). apply Qlt_shift_div_r; [exact HD0|].
    apply Qlt_le_trans with (pow2 (a + 1)); [exact HN2|].
    replace (a + 1)%Z with ((a - b + 1) + b)%Z by lia.
    rewrite pow2_plus. apply Qmult_le_l; [apply pow2_pos | exact HD1]. }
  assert (Hlo : (pow2 (a - b - 1) <= n # d)%Q).
  { rewrite (Qmake_Qdiv n d). apply Qle_shift_div_l; [exact HD0|].
    apply Qle_trans with (pow2 a); [|exact HN1].
    replace a with ((a - b - 1) + (b + 1))%Z at 2 by lia.
    rewrite pow2_plus. apply Qmult_le_l; [apply pow2_pos|].
    apply Qlt_le_weak. exact HD2. }
  destruct (Qle_bool (pow2 (a - b)) (n # d)) eqn:E.
  - apply Qle_bool_iff in E. split; assumption.
  - split; [exact Hlo|].
    replace (a - b - 1 + 1)%Z with (a - b)%Z by lia.
    apply Qnot_le_lt. intros H. apply Qle_bool_iff in H. congruence.
Qed.

Lemma roundHalfEven_bounds (q : Q) :
  (Qfloor q <= roundHalfEven q <= Qfloor q + 1)%Z.
Proof.
  unfold roundHalfEven.
  destruct (q - inject_Z (Qfloor q) ?= 1 # 2)%Q; [|lia|lia].
  destruct (Z.even (Qfloor q)); lia.
Qed.

Lemma roundHalfEven_Z (n : Z) : roundHalfEven (inject_Z n) = n.
Proof.
  unfold roundHalfEven. rewrite Qfloor_Z.
  destruct (Qcompare_spec (inject_Z n - inject_Z n) (1 # 2)) as [E | E | E];
    [lra | reflexivity | lra].
Qed.

Lemma roundHalfEven_le (a b : Q) :
  (a <= b)%Q -> (roundHalfEven a <= roundHalfEven b)%Z.
Proof.
  intros Hab. pose proof (Qfloor_resp_le a b Hab) as Hf.
  pose proof (roundHalfEven_bounds a) as Ha.
  pose proof (roundHalfEven_bounds b) as Hb.
  destruct (Z.eq_dec (Qfloor a) (Qfloor b)) as [E | E]; [|lia].
  unfold roundHalfEven. rewrite <- E.
  destruct (Qcompare_spec (a - inject_Z (Qfloor a)) (1 # 2)) as [Ea|Ea|Ea];
    destruct (Qcompare_spec (b - inject_Z (Qfloor a)) (1 # 2)) as [Eb|Eb|Eb];
    try lia; try lra; destruct (Z.even (Qfloor a)); lia.
Qed.

Lemma roundHalfEven_comp (a b : Q) :
  (a == b)%Q -> roundHalfEven a = roundHalfEven b.
Proof.
  intros H. apply Z.le_antisymm; apply roundHalfEven_le; lra.
Qed.

Lemma fl_eq (q : Q) :
  (fl q == inject_Z (roundHalfEven (q / pow2 (spacingExponent q)))
           * pow2 (spacingExponent q))%Q.
Proof. unfold fl. apply Qred_correct. Qed.

(** A rational that is a multiple of the spacing around [x] bounds the
    rounding of [x] as it bounds [x]. *)
Lemma fl_le_multiple (x b : Q) (n : Z) :
  (x <= b)%Q -> (b == inject_Z n * pow2 (spacingExponent x))%Q ->
  (fl x <= b)%Q.
Proof.
  intros Hx Hb. rewrite fl_eq, Hb.
  apply Qmult_le_compat_r; [|apply Qlt_le_weak, pow2_pos].
  rewrite <- Zle_Qle. rewrite <- (roundHalfEven_Z n).
  apply roundHalfEven_le. apply Qle_shift_div_r; [apply pow2_pos|].
  rewrite <- Hb. exact Hx.
Qed.

Lemma fl_ge_multiple (x b : Q) (n : Z) :
  (b <= x)%Q -> (b == inject_Z n * pow2 (spacingExponent x))%Q ->
  (b <= fl x)%Q.
Proof.
  intros Hx Hb. rewrite fl_eq, Hb.
  apply Qmult_le_compat_r; [|apply Qlt_le_weak, pow2_pos].
  rewrite <- Zle_Qle. rewrite <- (roundHalfEven_Z n) at 1.
  apply roundHalfEven_le. apply Qle_shift_div_l; [apply pow2_pos|].
  rewrite <- Hb. exact Hx.
Qed.

Lemma pow2_multiple (e k : Z) :
  (k <= e)%Z -> (pow2 e == inject_Z (2 ^ (e - k)) * pow2 k)%Q.
Proof.
  intros H. rewrite <- pow2_Z by lia. rewrite <- pow2_plus.
  replace (e - k + k)%Z with e by lia. reflexivity.
Qed.

Lemma exponentOf_le (u v : Q) :
  (0 < u)%Q -> (u <= v)%Q -> (exponentOf u <= exponentOf v)%Z.
Proof.
  intros Hu Huv.
  destruct (exponentOf_spec u Hu) as [Hu1 _].
  destruct (exponentOf_spec v) as [_ Hv2]; [lra|].
  destruct (Z_le_gt_dec (exponentOf u) (exponentOf v)) as [H | H];
    [exact H|].
  pose proof (pow2_le (exponentOf v + 1) (exponentOf u)) as Hp.
  lapply Hp; [|lia]. intros Hp'. lra.
Qed.

(** Rounding to the nearest double is monotone. *)
Lemma fl_le (x y : Q) : (x <= y)%Q -> (fl x <= fl y)%Q.
Proof.
  intros Hxy.
  destruct (Z.eq_dec (spacingExponent x) (spacingExponent y)) as [Hk | Hk].
  - rewrite !fl_eq, Hk.
    apply Qmult_le_compat_r; [|apply Qlt_le_weak, pow2_pos].
    rewrite <- Zle_Qle. apply roundHalfEven_le.
    apply Qmult_le_compat_r; [exact Hxy|].
    apply Qlt_le_weak, Qinv_lt_0_compat, pow2_pos.
  - destruct (Qlt_le_dec 0 x) as [Hx | Hx];
      [|destruct (Qlt_le_dec y 0) as [Hy | Hy]].
    + (* 0 < x <= y *)
      assert (Hy : (0 < y)%Q) by lra.
      assert (Hax : (Qabs x == x)%Q) by (apply Qabs_pos; lra).
      assert (Hay : (Qabs y == y)%Q) by (apply Qabs_pos; lra).
      destruct (exponentOf_spec (Qabs x)) as [_ Hx2]; [lra|].
      destruct (exponentOf_spec (Qabs y)) as [Hy1 _]; [lra|].
      pose proof (exponentOf_le (Qabs x) (Qabs y)) as He.
      lapply He; [clear He; intros He | lra].
      lapply He; [clear He; intros He | lra].
      unfold spacingExponent in Hk.
      set (ex := exponentOf (Qabs x)) in *.
      set (ey := exponentOf (Qabs y)) in *.
      assert (Hlt : (ex < ey /\ -1022 < ey)%Z) by lia.
      pose proof (pow2_le (ex + 1) ey) as Hp.
      lapply Hp; [clear Hp; intros Hp | lia].
      apply Qle_trans with (pow2 ey).
      * apply (fl_le_multiple x (pow2 ey) (2 ^ (ey - spacingExponent x)));
          [lra|]. apply pow2_multiple. unfold spacingExponent. fold ex. lia.
      * apply (fl_ge_multiple y (pow2 ey) (2 ^ (ey - spacingExponent y)));
          [lra|]. apply pow2_multiple. unfold spacingExponent. fold ey. lia.
    + (* x <= y < 0 *)
      assert (Hx' : (x < 0)%Q) by lra.
      assert (Hax : (Qabs x == - x)%Q) by (apply Qabs_neg; lra).
      assert (Hay : (Qabs y == - y)%Q) by (apply Qabs_neg; lra).
      destruct (exponentOf_spec (Qabs x)) as [Hx1 _]; [lra|].
      destruct (exponentOf_spec (Qabs y)) as [_ Hy2]; [lra|].
      pose proof (exponentOf_le (Qabs y) (Qabs x)) as He.
      lapply He; [clear He; intros He | lra].
      lapply He; [clear He; intros He | lra].
      unfold spacingExponent in Hk.
      set (ex := exponentOf (Qabs x)) in *.
      set (ey := exponentOf (Qabs y)) in *.
      assert (Hlt : (ey < ex /\ -1022 < ex)%Z) by lia.
      pose proof (pow2_le (ey + 1) ex) as Hp.
      lapply Hp; [clear Hp; intros Hp | lia].
      apply Qle_trans with (- pow2 ex)%Q.
      * apply (fl_le_multiple x (- pow2 ex)
                 (- 2 ^ (ex - spacingExponent x))); [lra|].
        rewrite inject_Z_opp.
        rewrite (pow2_multiple ex (spacingExponent x)) at 1;
          [ring | unfold spacingExponent; fold ex; lia].
      * apply (fl_ge_multiple y (- pow2 ex)
                 (- 2 ^ (ex - spacingExponent y))); [lra|].
        rewrite inject_Z_opp.
        rewrite (pow2_multiple ex (spacingExponent y)) at 1;
          [ring | unfold spacingExponent; fold ey; lia].
    + (* x <= 0 <= y *)
      apply Qle_trans with 0%Q.
      * apply (fl_le_multiple x 0 0); [exact Hx | ring].
      * apply (fl_ge_multiple y 0 0); [exact Hy | ring].
Qed.

Lemma fl_comp (x y : Q) : (x == y)%Q -> fl x = fl y.
Proof.
  intros H.
  assert (E : (fl x == fl y)%Q) by (apply Qle_antisym; apply fl_le; lra).
  unfold fl in *. apply Qred_complete. apply Qeq_Qred_iff. exact E.
Qed.

Lemma fl_nonneg (x : Q) : (0 <= x)%Q -> (0 <= fl x)%Q.
Proof. intros H. apply (fl_ge_multiple x 0 0); [exact H | ring]. Qed.

Lemma roundHalfEven_error (m : Q) :
  (Qabs (inject_Z (roundHalfEven m) - m) <= 1 # 2)%Q.
Proof.
  pose proof (Qfloor_le m) as Hlo. pose proof (Qlt_floor m) as Hhi.
  rewrite inject_Z_plus in Hhi. change (inject_Z 1) with 1%Q in Hhi.
  apply Qabs_Qle_condition. unfold roundHalfEven.
  destruct (Qcompare_spec (m - inject_Z (Qfloor m)) (1 # 2)) as [E | E | E].
  - destruct (Z.even (Qfloor m));
      [|rewrite inject_Z_plus; change (inject_Z 1) with 1%Q]; split; lra.
  - split; lra.
  - rewrite inject_Z_plus. change (inject_Z 1) with 1%Q. split; lra.
Qed.

(** The rounding error is at most half the spacing. *)
Lemma fl_error (x : Q) :
  (Qabs (fl x - x) <= pow2 (spacingExponent x - 1))%Q.
Proof.
  pose proof (fl_eq x) as Hf. revert Hf.
  set (k := spacingExponent x). set (m := (x / pow2 k)%Q). intros Hf.
  pose proof (pow2_pos k) as Hk.
  assert (Hx : (x == m * pow2 k)%Q) by (unfold m; field; lra).
  assert (Hh : (pow2 (k - 1) == (1 # 2) * pow2 k)%Q).
  { replace (k - 1)%Z with (-1 + k)%Z by lia. rewrite pow2_plus.
    reflexivity. }
  assert (Hd : (fl x - x == (inject_Z (roundHalfEven m) - m) * pow2 k)%Q).
  { rewrite Hf. rewrite Hx at 1. ring. }
  rewrite Hd, Hh, Qabs_Qmult, (Qabs_pos (pow2 k)) by lra.
  apply Qmult_le_compat_r; [apply roundHalfEven_error | lra].
Qed.

Lemma spacingExponent_bound (x : Q) (E : Z) :
  (Qabs x < pow2 E)%Q -> (0 <= E)%Z -> (spacingExponent x <= E - 53)%Z.
Proof.
  intros Hx HE. unfold spacingExponent.
  assert (He : (exponentOf (Qabs x) < E)%Z); [|lia].
  destruct (Qlt_le_dec 0 (Qabs x)) as [Hpos | Hzero].
  - destruct (exponentOf_spec (Qabs x) Hpos) as [H1 _].
    destruct (Z_lt_ge_dec (exponentOf (Qabs x)) E) as [H | H]; [exact H|].
    pose proof (pow2_le E (exponentOf (Qabs x))) as Hp.
    lapply Hp; [|lia]. intros Hp'. lra.
  - pose proof (Qabs_nonneg x) as H0.
    assert (Hq : (Qabs x == 0)%Q) by lra.
    destruct (Qabs x) as [n d]. unfold Qeq in Hq. simpl in Hq.
    assert (n = 0%Z) by lia. subst n.
    unfold exponentOf. cbn [Qnum Qden]. change (Z.log2 0) with 0%Z.
    pose proof (Z.log2_nonneg (Z.pos d)).
    destruct (Qle_bool _ _) eqn:Eb; [|lia].
    apply Qle_bool_iff in Eb.
    pose proof (pow2_pos (0 - Z.log2 (Z.pos d))) as Hp.
    assert (Hz : (0 # d == 0)%Q) by reflexivity. lra.
Qed.

(** Below [2^34] in absolute value a rounding moves a number by at most
    [2^-20]. *)
Lemma fl_near (x : Q) :
  (- (17179869184) < x < 17179869184)%Q ->
  (x - (1 # 1048576) <= fl x <= x + (1 # 1048576))%Q.
Proof.
  intros Hx.
  assert (Ha : (Qabs x < pow2 34)%Q).
  { apply Qabs_Qlt_condition. change (pow2 34) with (17179869184 # 1)%Q.
    exact Hx. }
  pose proof (spacingExponent_bound x 34 Ha) as Hk.
  lapply Hk; [clear Hk; intros Hk | lia].
  pose proof (fl_error x) as He.
  pose proof (pow2_le (spacingExponent x - 1) (-20)) as Hp.
  lapply Hp; [clear Hp; intros Hp | lia].
  change (pow2 (-20)) with (1 # 1048576)%Q in Hp.
  assert (Hb : (Qabs (fl x - x) <= 1 # 1048576)%Q) by lra.
  apply Qabs_Qle_condition in Hb. lra.
Qed.

(** Doubles at work: the literals 0.1, 0.2 and 0.3, the sum of the first
    two, which is not the third, an overflow, and a tie between 0 and
    the smallest double, which goes to 0. *)
Example double_arithmetic_demo :
  number 0.1 = Finite (3602879701896397 # 36028797018963968)
  /\ number 0.3 = Finite (5404319552844595 # 18014398509481984)
  /\ (number 0.1 + number 0.2)%double
     = Finite (1351079888211149 # 4503599627370496)
  /\ (number 0.1 + number 0.2 <? number 0.3)%double = false
  /\ (number 0.3 <? number 0.1 + number 0.2)%double = true
  /\ (number (10 ^ 308) * number 10)%double = Infinite false
  /\ (number (pow2 (-1074)) / number 2)%double = Finite 0
  /\ (number 33 - number 20.5)%double = Finite (25 # 2).
Proof. vm_compute. repeat split. Qed.

(** ** The content scorer *)

Section Scorer.

Variable unicodeLower : jsstring -> jsstring.
Variable selectorError : jsstring -> option exn.
Variable doc : Document.

#[local] Abbreviation scoreOf :=
  (calculateContentScore unicodeLower selectorError doc).
#[local] Abbreviation lower := (toLowerCase unicodeLower).

Lemma calculateContentScore_eq (el : elementNode) :
  scoreOf el
  = match selectorError (lit "p") with
    | Some e => Throw e
    | None =>
        match ns (attributes el) with
        | SVG => Throw classNameTypeError
        | HTML =>
            Normal (centerBonus doc el
                      (scoreBeforeGeometry
                         (paragraphCount el) (textLength el)
                         (lower (classAttr (attributes el)))
                         (lower (idAttr (attributes el)))))
        end
    end.
Proof.
  unfold calculateContentScore, querySelectorAll, classNameLower.
  unfold mbind, completion_bind.
  destruct (selectorError (lit "p")); [reflexivity|].
  destruct (ns (attributes el)); reflexivity.
Qed.

Lemma Qltb_lt (x y : Q) : Qltb x y = true <-> (x < y)%Q.
Proof.
  unfold Qltb. rewrite negb_true_iff. split.
  - intros H. apply Qnot_le_lt. intros Hle.
    apply Qle_bool_iff in Hle. congruence.
  - intros H. destruct (Qle_bool y x) eqn:E; [|reflexivity].
    apply Qle_bool_iff in E. exfalso. exact (Qlt_not_le _ _ H E).
Qed.

Lemma ofNat_le (a b : nat) : a <= b -> (ofNat a <= ofNat b)%Q.
Proof. intros H. unfold ofNat. rewrite <- Zle_Qle. lia. Qed.

Lemma scoreBeforeGeometry_mono (n1 n2 l1 l2 : nat) (cls id : jsstring) :
  n1 <= n2 -> l1 <= l2 ->
  (scoreBeforeGeometry n1 l1 cls id <= scoreBeforeGeometry n2 l2 cls id)%Q.
Proof.
  intros Hn Hl. unfold scoreBeforeGeometry.
  assert (Hp : (fl (0 + fl (ofNat n1 * 2)) <= fl (0 + fl (ofNat n2 * 2)))%Q).
  { apply fl_le. apply Qplus_le_r. apply fl_le.
    apply Qmult_le_compat_r; [apply ofNat_le; exact Hn | discriminate]. }
  assert (Ht : (Qmin (fl (ofNat l1 / 100)) 20
                <= Qmin (fl (ofNat l2 / 100)) 20)%Q).
  { apply Q.min_le_compat_r. apply fl_le. unfold Qdiv.
    apply Qmult_le_compat_r; [apply ofNat_le; exact Hl | discriminate]. }
  assert (H2 : (fl (fl (0 + fl (ofNat n1 * 2))
                    + Qmin (fl (ofNat l1 / 100)) 20)
                <= fl (fl (0 + fl (ofNat n2 * 2))
                       + Qmin (fl (ofNat l2 / 100)) 20))%Q)
    by (apply fl_le; lra).
  cbv zeta.
  destruct (hasContentHint cls), (hasContentHint id),
    (hasNavigationHint cls);
    repeat first [ assumption | apply fl_le | apply Qplus_le_l ].
Qed.

Lemma centerBonus_eq (el : elementNode) (s : Q) :
  centerBonus doc el s
  = match boundingRect (attributes el) with
    | None => s
    | Some rect =>
        if (centerDistance doc rect <? widthShare doc)%double
        then fl (s + 5) else s
    end.
Proof. reflexivity. Qed.

Lemma centerBonus_mono (el1 el2 : elementNode) (s1 s2 : Q) :
  attributes el1 = attributes el2 -> (s1 <= s2)%Q ->
  (centerBonus doc el1 s1 <= centerBonus doc el2 s2)%Q.
Proof.
  intros Ha Hs. rewrite !centerBonus_eq, Ha.
  destruct (boundingRect (attributes el2)) as [rect|]; [|exact Hs].
  destruct (lessThan _ _); [|exact Hs]. apply fl_le. lra.
Qed.

Lemma centerBonus_centred (el : elementNode) (s : Q) :
  centredWithin (widthShare doc) doc el ->
  centerBonus doc el s = fl (s + 5).
Proof.
  rewrite centerBonus_eq. unfold centredWithin.
  destruct (boundingRect (attributes el)); [|intros []].
  intros ->. reflexivity.
Qed.

Lemma centerBonus_not_centred (el : elementNode) (s : Q) :
  ~ centredWithin (widthShare doc) doc el ->
  centerBonus doc el s = s.
Proof.
  rewrite centerBonus_eq. unfold centredWithin.
  destruct (boundingRect (attributes el)); [|reflexivity].
  destruct (lessThan _ _); [|reflexivity]. intros H. contradiction H.
  reflexivity.
Qed.

Lemma centredWithin_dec (reach : double) (el : elementNode) :
  centredWithin reach doc el \/ ~ centredWithin reach doc el.
Proof.
  unfold centredWithin. destruct (boundingRect (attributes el)); [|tauto].
  destruct (lessThan _ _); [left; reflexivity | right; discriminate].
Qed.

Lemma paragraphCount_withClass (cls : jsstring) (el : elementNode) :
  paragraphCount (withClass cls el) = paragraphCount el.
Proof.
  unfold paragraphCount. apply filter_elements_length.
  apply descendantElements_elements. reflexivity.
Qed.

Lemma paragraphCount_withoutGeometry (el : elementNode) :
  paragraphCount (withoutGeometry el) = paragraphCount el.
Proof.
  unfold paragraphCount. apply filter_elements_length.
  apply descendantElements_elements. reflexivity.
Qed.

(** The penalty test of the scorer looks for the four keywords. *)
Lemma hasNavigationHint_keywords (s : jsstring) :
  hasNavigationHint s = true
  <-> exists keyword,
        In keyword navigationKeywords /\ includes s keyword = true.
Proof.
  unfold hasNavigationHint, navigationKeywords. split.
  - intros H. repeat (apply orb_true_iff in H as [H | H]);
      eexists; (split; [|exact H]); cbn [In]; tauto.
  - intros (keyword & Hin & Hk). cbn [In] in Hin.
    destruct Hin as [<- | [<- | [<- | [<- | []]]]]; rewrite Hk;
      rewrite ?orb_true_r; reflexivity.
Qed.

Lemma hasNavigationHint_none (s : jsstring) :
  (forall keyword, In keyword navigationKeywords ->
                   includes s keyword = false) ->
  hasNavigationHint s = false.
Proof.
  intros H. destruct (hasNavigationHint s) eqn:E; [|reflexivity].
  apply hasNavigationHint_keywords in E as (keyword & Hin & Hk).
  rewrite (H keyword Hin) in Hk. discriminate.
Qed.

(** Without the penalty the score before the geometry check is not
    negative, and it stays below [2^34] for a node with fewer than
    [2^32] paragraphs. *)
Lemma scoreBeforeGeometry_bounds (n l : nat) (cls id : jsstring) :
  hasNavigationHint cls = false -> (Z.of_nat n < 2 ^ 32)%Z ->
  (0 <= scoreBeforeGeometry n l cls id
   /\ scoreBeforeGeometry n l cls id <= 8589934592 + 41)%Q.
Proof.
  intros Hno Hn. unfold scoreBeforeGeometry. rewrite Hno. cbv zeta.
  assert (Hx0 : (0 <= ofNat n * 2 /\ ofNat n * 2 <= 8589934592)%Q).
  { unfold ofNat.
    assert (H0 : (inject_Z 0 <= inject_Z (Z.of_nat n))%Q)
      by (rewrite <- Zle_Qle; lia).
    assert (H1 : (inject_Z (Z.of_nat n) <= inject_Z (2 ^ 32))%Q)
      by (rewrite <- Zle_Qle; lia).
    change (inject_Z 0) with 0%Q in H0.
    change (inject_Z (2 ^ 32)) with 4294967296%Q in H1. split; lra. }
  pose proof (fl_nonneg (ofNat n * 2)) as Ha0.
  pose proof (fl_near (ofNat n * 2)) as Hb0.
  lapply Ha0; [clear Ha0; intros Ha0 | lra].
  lapply Hb0; [clear Hb0; intros Hb0 | lra].
  set (a0 := fl (ofNat n * 2)) in *.
  pose proof (fl_nonneg (0 + a0)) as Ha1.
  pose proof (fl_near (0 + a0)) as Hb1.
  lapply Ha1; [clear Ha1; intros Ha1 | lra].
  lapply Hb1; [clear Hb1; intros Hb1 | lra].
  set (a1 := fl (0 + a0)) in *.
  assert (Hm : (0 <= Qmin (fl (ofNat l / 100)) 20
                /\ Qmin (fl (ofNat l / 100)) 20 <= 20)%Q).
  { split; [|apply Q.le_min_r]. apply Q.min_glb; [|discriminate].
    apply fl_nonneg. unfold Qdiv.
    apply Qmult_le_0_compat; [|discriminate]. apply (ofNat_le 0). lia. }
  set (m := Qmin (fl (ofNat l / 100)) 20) in *.
  pose proof (fl_nonneg (a1 + m)) as Ha2.
  pose proof (fl_near (a1 + m)) as Hb2.
  lapply Ha2; [clear Ha2; intros Ha2 | lra].
  lapply Hb2; [clear Hb2; intros Hb2 | lra].
  set (a2 := fl (a1 + m)) in *.
  pose proof (fl_nonneg (a2 + 10)) as Ha3.
  pose proof (fl_near (a2 + 10)) as Hb3.
  lapply Ha3; [clear Ha3; intros Ha3 | lra].
  lapply Hb3; [clear Hb3; intros Hb3 | lra].
  destruct (hasContentHint cls).
  - set (a3 := fl (a2 + 10)) in *.
    pose proof (fl_nonneg (a3 + 10)) as Ha4.
    pose proof (fl_near (a3 + 10)) as Hb4.
    lapply Ha4; [clear Ha4; intros Ha4 | lra].
    lapply Hb4; [clear Hb4; intros Hb4 | lra].
    destruct (hasContentHint id); split; lra.
  - destruct (hasContentHint id); split; lra.
Qed.

(** C9 (amended). The score does not decrease when a node gains
    paragraphs or text while its attributes stay the same.  A class name
    with any of nav, sidebar, menu, footer makes the scorer subtract 20
    once, in double arithmetic, from the score accumulated before the
    geometry check, however many of the keywords it contains: against
    the same node with a class name that has none of them (and the same
    content hints) the score is lower by 20 up to the rounding of that
    subtraction and of the additions around it, which for a node with
    fewer than 2^32 paragraphs is less than 1/100000. *)
Theorem calculateContentScore_monotone_and_penalty :
  (forall el1 el2 s1,
     attributes el1 = attributes el2 ->
     paragraphCount el1 <= paragraphCount el2 ->
     textLength el1 <= textLength el2 ->
     scoreOf el1 = Normal s1 ->
     exists s2, scoreOf el2 = Normal s2 /\ (s1 <= s2)%Q)
  /\
  (forall el cls before,
     (forall keyword,
        In keyword navigationKeywords ->
        includes (lower (classAttr (attributes el))) keyword = false) ->
     (exists keyword,
        In keyword navigationKeywords
        /\ includes (lower cls) keyword = true) ->
     hasContentHint (lower cls)
     = hasContentHint (lower (classAttr (attributes el))) ->
     scoreOf (withoutGeometry el) = Normal before ->
     exists s s',
       scoreOf el = Normal s
       /\ scoreOf (withClass cls el) = Normal s'
       /\ (~ centredWithin (widthShare doc) doc el ->
           s = before /\ s' = fl (before - 20))
       /\ (centredWithin (widthShare doc) doc el ->
           s = fl (before + 5) /\ s' = fl (fl (before - 20) + 5))
       /\ ((Z.of_nat (paragraphCount el) < 2 ^ 32)%Z ->
           (Qabs (s - s' - 20) <= 1 # 100000)%Q)).
Proof.
  split.
  - intros el1 el2 s1 Ha Hn Hl. rewrite !calculateContentScore_eq.
    destruct (selectorError (lit "p")); [discriminate|].
    rewrite <- Ha. destruct (ns (attributes el1)); [|discriminate].
    intros H. injection H as <-. eexists. split; [reflexivity|].
    apply centerBonus_mono; [exact Ha|].
    apply scoreBeforeGeometry_mono; assumption.
  - intros el cls before Hno Hyes Hc. rewrite !calculateContentScore_eq.
    apply hasNavigationHint_none in Hno.
    apply hasNavigationHint_keywords in Hyes.
    destruct (selectorError (lit "p")); [discriminate|].
    cbn [withClass withoutGeometry attributes ns classAttr idAttr].
    destruct (ns (attributes el)); [|discriminate].
    rewrite paragraphCount_withClass, paragraphCount_withoutGeometry.
    change (textLength (withClass cls el)) with (textLength el).
    change (textLength (withoutGeometry el)) with (textLength el).
    rewrite !centerBonus_eq.
    cbn [boundingRect attributes withoutGeometry withClass].
    intros H. injection H as <-.
    set (b := scoreBeforeGeometry (paragraphCount el) (textLength el)
                (lower (classAttr (attributes el)))
                (lower (idAttr (attributes el)))).
    assert (Hb' : scoreBeforeGeometry (paragraphCount el) (textLength el)
                    (lower cls) (lower (idAttr (attributes el)))
                  = fl (b - 20)).
    { unfold b, scoreBeforeGeometry. rewrite Hno, Hyes, Hc. reflexivity. }
    rewrite Hb'. eexists _, _. split; [reflexivity|].
    split; [reflexivity|]. unfold centredWithin.
    assert (Hbound : (Z.of_nat (paragraphCount el) < 2 ^ 32)%Z ->
                     (0 <= b /\ b <= 8589934592 + 41)%Q)
      by (intros Hn; apply scoreBeforeGeometry_bounds; assumption).
    destruct (boundingRect (attributes el)) as [rect|];
      [destruct (lessThan _ _)|].
    + split; [intros H; contradiction H; reflexivity|].
      split; [intros _; split; reflexivity|].
      intros Hn. destruct (Hbound Hn) as [H0 H1].
      pose proof (fl_near (b + 5)) as E1.
      lapply E1; [clear E1; intros E1 | lra].
      pose proof (fl_near (b - 20)) as E2.
      lapply E2; [clear E2; intros E2 | lra].
      pose proof (fl_near (fl (b - 20) + 5)) as E3.
      lapply E3; [clear E3; intros E3 | lra].
      apply Qabs_Qle_condition. split; lra.
    + split; [intros _; split; reflexivity|].
      split; [discriminate|].
      intros Hn. destruct (Hbound Hn) as [H0 H1].
      pose proof (fl_near (b - 20)) as E2.
      lapply E2; [clear E2; intros E2 | lra].
      apply Qabs_Qle_condition. split; lra.
    + split; [intros _; split; reflexivity|].
      split; [intros []|].
      intros Hn. destruct (Hbound Hn) as [H0 H1].
      pose proof (fl_near (b - 20)) as E2.
      lapply E2; [clear E2; intros E2 | lra].
      apply Qabs_Qle_condition. split; lra.
Qed.

End Scorer.

(** More paragraphs and more text under the same attributes: a higher
    score. *)
Example calculateContentScore_more_content :
  exists s1 s2,
    calculateContentScore id acceptAll (page 1024 [])
      (classed "content" [paragraph]) = Normal s1
    /\ calculateContentScore id acceptAll (page 1024 [])
         (classed "content" story) = Normal s2
    /\ (s1 <= s2)%Q.
Proof.
  eexists _, _. split; [reflexivity|]. split; [reflexivity|].
  vm_compute. discriminate.
Qed.

(** A class name with all four keywords costs 20, once; on these scores
    the subtraction happens to be exact. *)
Example calculateContentScore_all_hints :
  exists s s',
    calculateContentScore id acceptAll (page 1024 []) (classed "" story)
    = Normal s
    /\ calculateContentScore id acceptAll (page 1024 [])
         (classed "nav sidebar menu footer" story) = Normal s'
    /\ (s' == s - 20)%Q.
Proof. eexists _, _. repeat split. Qed.

Lemma calculateContentScore_monotone_and_penalty_witness :
  (forall keyword,
     In keyword navigationKeywords ->
     includes (toLowerCase id (classAttr (attributes (hintedBlock "content"))))
       keyword = false)
  /\ (exists keyword,
        In keyword navigationKeywords
        /\ includes (toLowerCase id (lit "content nav")) keyword = true)
  /\ calculateContentScore id acceptAll (page 1000 [])
       (withoutGeometry (hintedBlock "content")) = Normal (fl (2802 # 100))
  /\ exists s s',
       calculateContentScore id acceptAll (page 1000 [])
         (hintedBlock "content") = Normal s
       /\ calculateContentScore id acceptAll (page 1000 [])
            (withClass (lit "content nav") (hintedBlock "content"))
          = Normal s'
       /\ (~ centredWithin (widthShare (page 1000 [])) (page 1000 [])
             (hintedBlock "content") ->
           s = fl (2802 # 100) /\ s' = fl (fl (2802 # 100) - 20))
       /\ (centredWithin (widthShare (page 1000 [])) (page 1000 [])
             (hintedBlock "content") ->
           s = fl (fl (2802 # 100) + 5)
           /\ s' = fl (fl (fl (2802 # 100) - 20) + 5))
       /\ ((Z.of_nat (paragraphCount (hintedBlock "content")) < 2 ^ 32)%Z ->
           (Qabs (s - s' - 20) <= 1 # 100000)%Q).
Proof.
  assert (Hno : forall keyword,
            In keyword navigationKeywords ->
            includes
              (toLowerCase id (classAttr (attributes (hintedBlock "content"))))
              keyword = false).
  { intros keyword [<- | [<- | [<- | [<- | []]]]]; reflexivity. }
  assert (Hyes : exists keyword,
            In keyword navigationKeywords
            /\ includes (toLowerCase id (lit "content nav")) keyword = true).
  { exists (lit "nav"). split; [left; reflexivity | reflexivity]. }
  assert (Hb : calculateContentScore id acceptAll (page 1000 [])
                 (withoutGeometry (hintedBlock "content"))
               = Normal (fl (2802 # 100))) by (vm_compute; reflexivity).
  split; [exact Hno|]. split; [exact Hyes|]. split; [exact Hb|].
  exact (proj2 (calculateContentScore_monotone_and_penalty id acceptAll
                  (page 1000 []))
           (hintedBlock "content") (lit "content nav") (fl (2802 # 100))
           Hno Hyes eq_refl Hb).
Defined.

(** C9 (counterexample). A block with four paragraphs, two code units
    of text and content hints in class name and id, centred in the
    viewport, scores the double 33.019999999999996; with [nav] added to
    its class name it scores the double 13.02.  The two differ by less
    than 20, and subtracting them in double arithmetic does not give 20
    either. *)
Lemma navigation_penalty_not_exactly_20 :
  exists s s',
    calculateContentScore id acceptAll (page 1000 []) (hintedBlock "content")
    = Normal s
    /\ calculateContentScore id acceptAll (page 1000 [])
         (hintedBlock "content nav") = Normal s'
    /\ s = (2323575932746465 # 70368744177664)%Q
    /\ s' = (3664804196772741 # 281474976710656)%Q
    /\ ~ (s - s' == 20)%Q
    /\ fl (s - s') <> 20%Q.
Proof.
  eexists _, _. split; [reflexivity|]. split; [reflexivity|].
  split; [reflexivity|]. split; [reflexivity|].
  split; [intros H; vm_compute in H; discriminate|].
  intros H; vm_compute in H; discriminate.
Qed.

(** ** The geometry check of the scorer *)

Section Geometry.

Variable unicodeLower : jsstring -> jsstring.
Variable selectorError : jsstring -> option exn.
Variable doc : Document.

#[local] Abbreviation scoreOf :=
  (calculateContentScore unicodeLower selectorError doc).

Lemma textLength_withoutGeometry (el : elementNode) :
  textLength (withoutGeometry el) = textLength el.
Proof. reflexivity. Qed.

Lemma calculateContentScore_geometry (el : elementNode) :
  scoreOf el
  = (s0 ← scoreOf (withoutGeometry el); Normal (centerBonus doc el s0)).
Proof.
  rewrite !calculateContentScore_eq.
  destruct (selectorError (lit "p")); [reflexivity|].
  cbn [withoutGeometry attributes ns classAttr idAttr].
  destruct (ns (attributes el)); [|reflexivity].
  rewrite paragraphCount_withoutGeometry, textLength_withoutGeometry.
  reflexivity.
Qed.

(** C6 (amended). The scorer adds 5, by one addition of doubles, exactly
    when the node has a layout box whose horizontal centre is less than
    30% of the viewport's full width away from the viewport centre,
    distance and share both computed in double arithmetic; when the
    layout geometry is unavailable the check adds nothing and nothing is
    raised. *)
Theorem calculateContentScore_center_bonus (el : elementNode) (s0 : Q) :
  scoreOf (withoutGeometry el) = Normal s0 ->
  (centredWithin (widthShare doc) doc el ->
   scoreOf el = Normal (fl (s0 + 5)))
  /\ (~ centredWithin (widthShare doc) doc el ->
      scoreOf el = Normal s0)
  /\ (boundingRect (attributes el) = None -> scoreOf el = Normal s0).
Proof.
  intros H0. rewrite calculateContentScore_geometry, H0.
  unfold mbind, completion_bind.
  split; [|split].
  - intros Hc. rewrite (centerBonus_centred doc el s0 Hc). reflexivity.
  - intros Hc. rewrite (centerBonus_not_centred doc el s0 Hc). reflexivity.
  - intros Hr. rewrite centerBonus_eq, Hr. reflexivity.
Qed.

End Geometry.

Lemma calculateContentScore_center_bonus_witness :
  calculateContentScore id acceptAll (page 1000 []) (withoutGeometry sideColumn)
  = Normal (fl (215 # 100))
  /\ ((centredWithin (widthShare (page 1000 [])) (page 1000 []) sideColumn ->
       calculateContentScore id acceptAll (page 1000 []) sideColumn
       = Normal (fl (fl (215 # 100) + 5)))
      /\ (~ centredWithin (widthShare (page 1000 [])) (page 1000 [])
            sideColumn ->
          calculateContentScore id acceptAll (page 1000 []) sideColumn
          = Normal (fl (215 # 100)))
      /\ (boundingRect (attributes sideColumn) = None ->
          calculateContentScore id acceptAll (page 1000 []) sideColumn
          = Normal (fl (215 # 100)))).
Proof.
  split; [reflexivity|].
  apply (calculateContentScore_center_bonus id acceptAll (page 1000 [])
           sideColumn (fl (215 # 100))).
  reflexivity.
Defined.

(** C6 (counterexample). In a viewport 1000 wide a node centred 200 from
    the viewport centre is not within 30% of the half-width (150), yet the
    scorer adds 5 for it: 2.15 becomes 7.15. *)
Lemma center_bonus_beyond_half_width_share :
  halfWidthShare (page 1000 []) = Finite 150
  /\ centerDistance (page 1000 [])
       {| rectLeft := 600; rectWidth := 200 |} = Finite 200
  /\ ~ centredWithin (halfWidthShare (page 1000 [])) (page 1000 [])
         sideColumn
  /\ calculateContentScore id acceptAll (page 1000 [])
       (withoutGeometry sideColumn) = Normal (fl (215 # 100))
  /\ calculateContentScore id acceptAll (page 1000 []) sideColumn
     = Normal (fl (715 # 100)).
Proof.
  split; [reflexivity|]. split; [reflexivity|].
  split; [intros H; vm_compute in H; discriminate|].
  split; reflexivity.
Qed.

(** The comparison is one of doubles.  In a viewport 1001 wide the box
    from 500.8 to 1100.8 has its centre exactly 300.3 = 30% of 1001 from
    the viewport centre, which would not be less; in doubles the
    distance is 300.29999999999995 and the share 300.3, and the scorer
    adds 5.  In a viewport 1366 wide the box from 123.2 to 423.2 has
    distance and share both equal to the double 409.8, and the scorer
    adds nothing. *)
Example center_bonus_rounding :
  centredWithin (widthShare (page 1001 [])) (page 1001 [])
    (columnAt 500.8 600)
  /\ calculateContentScore id acceptAll (page 1001 []) (columnAt 500.8 600)
     = Normal (fl (715 # 100))
  /\ ~ centredWithin (widthShare (page 1366 [])) (page 1366 [])
         (columnAt 123.2 300)
  /\ calculateContentScore id acceptAll (page 1366 []) (columnAt 123.2 300)
     = Normal (fl (215 # 100)).
Proof.
  split; [reflexivity|]. split; [reflexivity|].
  split; [intros H; vm_compute in H; discriminate | reflexivity].
Qed.

(** ** Faults *)

Section Faults.

Variable unicodeLower : jsstring -> jsstring.
Variable selectorError : jsstring -> option exn.
Variable doc : Document.

(** The exclusion loop skips the selectors the host rejects and applies
    all the others. *)
Lemma removeExcluded_skips_rejected (selectors : list jsstring)
  (clone : elementNode) :
  foldl (removeExcluded selectorError) clone selectors
  = foldl (fun c s => removeMatching (parseSelector s) c) clone
          (List.filter (accepted selectorError) selectors).
Proof.
  revert clone. induction selectors as [|s rest IH]; intros clone.
  - reflexivity.
  - cbn [foldl List.filter]. rewrite IH.
    unfold removeExcluded at 1, accepted at 2.
    destruct (selectorError s); reflexivity.
Qed.

(** Only the query for paragraphs and headings can make the normalizer
    throw. *)
Lemma extractTextFromElement_outcome (el : elementNode) :
  match selectorError textSelector with
  | None => exists t, extractTextFromElement selectorError el = Normal t
  | Some e => extractTextFromElement selectorError el = Throw e
  end.
Proof.
  unfold extractTextFromElement, querySelectorAll, mbind, completion_bind.
  destruct (selectorError textSelector); [reflexivity|].
  destruct (length (trim _) =? 0); eauto.
Qed.

(** What the [catch] block returns for a fault. *)
Lemma extractArticleText_catch (st st' : store) (e : exn) :
  extractArticleTextBody unicodeLower selectorError doc st = (Throw e, st') ->
  extractArticleText unicodeLower selectorError doc st
  = ({| success := false;
        error := Some (msgFailedPrefix ++ message e);
        text := [];
        wordCount := 0;
        url := href doc;
        resultTitle := title doc;
        extractionMethod := None |}, st').
Proof. unfold extractArticleText. intros ->. reflexivity. Qed.

(** The body throws exactly when the search throws or the normalizer
    throws on the candidate found. *)
Lemma extractArticleTextBody_throws (st st' : store) (e : exn) :
  extractArticleTextBody unicodeLower selectorError doc st = (Throw e, st')
  <->
  locateContent unicodeLower selectorError doc st = (Throw e, st')
  \/ exists c,
       locateContent unicodeLower selectorError doc st
       = (Normal (Some c), st')
       /\ extractTextFromElement selectorError (content c) = Throw e.
Proof.
  unfold extractArticleTextBody.
  unfold mbind, M_bind, mret, M_ret, lift, getExtractionMethod.
  destruct (locateContent _ _ _ st) as [[[c|]|e0] st1].
  - destruct (extractTextFromElement _ _) as [t|e1] eqn:Ht.
    + destruct (length (cleanText t) <? 100); split;
        try discriminate; intros [H | (c' & H & Hc)]; try discriminate.
      * inversion H; subst. congruence.
      * inversion H; subst. congruence.
    + split.
      * intros H. inversion H; subst. right. exists c. auto.
      * intros [H | (c' & H & Hc)]; [discriminate|].
        inversion H; subst. congruence.
  - split; [discriminate|].
    intros [H | (c' & H & _)]; discriminate.
  - split.
    + intros H. inversion H; subst. left. reflexivity.
    + intros [H | (c' & H & _)]; [|discriminate].
      inversion H; subst. reflexivity.
Qed.

(** C2. [extractArticleText] always returns a result: a fault thrown by
    the search for a content element or by the normalizer comes back as
    a result without success whose error carries the fault's message.
    In the normalizer a rejected exclusion selector is skipped, the
    remaining ones are still applied, and the text is still extracted:
    only the query for paragraphs and headings can make it throw. *)
Theorem extractArticleText_never_raises (st : store) :
  (forall e st',
     locateContent unicodeLower selectorError doc st = (Throw e, st')
     \/ (exists c,
           locateContent unicodeLower selectorError doc st
           = (Normal (Some c), st')
           /\ extractTextFromElement selectorError (content c) = Throw e) ->
     extractArticleText unicodeLower selectorError doc st
     = ({| success := false;
           error := Some (msgFailedPrefix ++ message e);
           text := [];
           wordCount := 0;
           url := href doc;
           resultTitle := title doc;
           extractionMethod := None |}, st'))
  /\ (forall el,
        foldl (removeExcluded selectorError) el selectors_exclude
        = foldl (fun c s => removeMatching (parseSelector s) c) el
                (List.filter (accepted selectorError) selectors_exclude))
  /\ (forall el,
        match selectorError textSelector with
        | None => exists t, extractTextFromElement selectorError el = Normal t
        | Some e => extractTextFromElement selectorError el = Throw e
        end).
Proof.
  split; [|split].
  - intros e st' H. apply extractArticleText_catch.
    apply extractArticleTextBody_throws. exact H.
  - intros el. apply removeExcluded_skips_rejected.
  - apply extractTextFromElement_outcome.
Qed.

End Faults.

(** A fault inside a strategy: the paragraph strategy reads the class
    name of an SVG parent, which throws, and the result reports it. *)
Example extractArticleText_svg_parent :
  fst (extractArticleText id acceptAll svgPage ∅)
  = {| success := false;
       error := Some (msgFailedPrefix ++ message classNameTypeError);
       text := [];
       wordCount := 0;
       url := href svgPage;
       resultTitle := title svgPage;
       extractionMethod := None |}.
Proof. reflexivity. Qed.

(** A rejected exclusion selector: the text is extracted all the same. *)
Example extractTextFromElement_rejected_selector :
  extractTextFromElement rejectAds twoParagraphs
  = extractTextFromElement acceptAll twoParagraphs.
Proof. reflexivity. Qed.

(** ** Trimming does not lengthen a text *)

Lemma trimStart_length (s : jsstring) : length (trimStart s) <= length s.
Proof.
  induction s as [|c s IH]; simpl; [lia|].
  destruct (isWhiteSpace c); simpl; lia.
Qed.

Lemma trim_length (s : jsstring) : length (trim s) <= length s.
Proof.
  unfold trim, trimEnd. rewrite length_rev.
  pose proof (trimStart_length (rev (trimStart s))) as H.
  rewrite length_rev in H. pose proof (trimStart_length s). lia.
Qed.

Example sentences_length : length sentence = 60 /\ length secondSentence = 60.
Proof. split; reflexivity. Qed.

(** * Further properties *)

(** ** Words survive cleaning *)

Lemma trimStart_suffix_ws (s : jsstring) :
  exists ws, s = ws ++ trimStart s /\ forallb isWhiteSpace ws = true.
Proof.
  induction s as [|c s IH]; simpl.
  - exists []. split; reflexivity.
  - destruct (isWhiteSpace c) eqn:E.
    + destruct IH as (ws & IH & Hws). exists (c :: ws). simpl.
      rewrite E, Hws. split; [congruence | reflexivity].
    + exists []. split; reflexivity.
Qed.

Lemma trimEnd_prefix_ws (s : jsstring) :
  exists ws, s = trimEnd s ++ ws /\ forallb isWhiteSpace ws = true.
Proof.
  unfold trimEnd. destruct (trimStart_suffix_ws (rev s)) as (ws & H & Hws).
  exists (rev ws). split.
  - rewrite <- rev_app_distr, <- H. symmetry. apply List.rev_involutive.
  - rewrite forallb_forall in *. intros c Hc. apply Hws.
    apply in_rev. exact Hc.
Qed.

(** Whether the split starts inside a white-space run only decides an
    empty first piece. *)
Lemma splitWsFrom_run_flag (s : jsstring) :
  List.filter nonEmpty (splitWsFrom true [] s)
  = List.filter nonEmpty (splitWsFrom false [] s).
Proof.
  destruct s as [|c s]; simpl; [reflexivity|].
  destruct (isWhiteSpace c); reflexivity.
Qed.

Lemma words_cons_ws (c : N) (s : jsstring) :
  isWhiteSpace c = true -> words (c :: s) = words s.
Proof.
  intros Hc. unfold words, splitWhitespace. simpl. rewrite Hc. simpl.
  apply splitWsFrom_run_flag.
Qed.

Lemma words_trimStart (s : jsstring) : words (trimStart s) = words s.
Proof.
  induction s as [|c s IH]; simpl; [reflexivity|].
  destruct (isWhiteSpace c) eqn:E; [|reflexivity].
  rewrite IH. symmetry. apply words_cons_ws. exact E.
Qed.

Lemma splitWsFrom_snoc_ws (s : jsstring) (c : N) :
  isWhiteSpace c = true ->
  forall b cur, (b = true -> cur = []) ->
    List.filter nonEmpty (splitWsFrom b cur (s ++ [c]))
    = List.filter nonEmpty (splitWsFrom b cur s).
Proof.
  intros Hc. induction s as [|d s IH]; intros b cur Hb; simpl.
  - rewrite Hc. destruct b; simpl.
    + rewrite (Hb eq_refl). reflexivity.
    + destruct (rev cur); reflexivity.
  - destruct (isWhiteSpace d).
    + destruct b; simpl; rewrite (IH true []) by reflexivity; reflexivity.
    + apply IH. discriminate.
Qed.

Lemma words_app_ws (s ws : jsstring) :
  forallb isWhiteSpace ws = true -> words (s ++ ws) = words s.
Proof.
  induction ws as [|c ws IH] using rev_ind; intros H.
  - rewrite app_nil_r. reflexivity.
  - rewrite forallb_app in H. apply andb_true_iff in H as [Hws Hc].
    simpl in Hc. rewrite andb_true_r in Hc.
    rewrite app_assoc. unfold words, splitWhitespace.
    rewrite splitWsFrom_snoc_ws by (auto; discriminate).
    apply IH. exact Hws.
Qed.

Lemma words_trim (s : jsstring) : words (trim s) = words s.
Proof.
  unfold trim. rewrite <- (words_trimStart s).
  destruct (trimEnd_prefix_ws (trimStart s)) as (ws & H & Hws).
  rewrite H at 2. symmetry. apply words_app_ws. exact Hws.
Qed.

Lemma splitWsFrom_collapse (s : jsstring) :
  forall b cur, (b = true -> cur = []) ->
    List.filter nonEmpty (splitWsFrom b cur (collapseWsFrom b s))
    = List.filter nonEmpty (splitWsFrom b cur s).
Proof.
  induction s as [|c s IH]; intros b cur Hb; simpl; [reflexivity|].
  destruct (isWhiteSpace c) eqn:E.
  - destruct b.
    + rewrite (Hb eq_refl). apply IH. reflexivity.
    + simpl. rewrite (IH true []) by reflexivity. reflexivity.
  - simpl. rewrite E.
    destruct b; apply (IH false (c :: cur)); discriminate.
Qed.

Lemma words_collapseWhitespace (s : jsstring) :
  words (collapseWhitespace s) = words s.
Proof. apply (splitWsFrom_collapse s false []). discriminate. Qed.

Lemma countWords_words (s : jsstring) : countWords s = length (words s).
Proof.
  unfold countWords. destruct s as [|c s]; [reflexivity|].
  change (length (words (trim (c :: s))) = length (words (c :: s))).
  rewrite words_trim. reflexivity.
Qed.

Lemma words_cleanText (s : jsstring) : words (cleanText s) = words s.
Proof. rewrite cleanText_eq, words_trim. apply words_collapseWhitespace. Qed.

(** X1. Cleaning a text does not change its word count. *)
Theorem countWords_cleanText_same (s : jsstring) :
  countWords (cleanText s) = countWords s.
Proof.
  rewrite !countWords_words, cleanText_eq, words_trim.
  rewrite words_collapseWhitespace. reflexivity.
Qed.

Lemma words_app_sep (s t : jsstring) (c : N) :
  isWhiteSpace c = true ->
  forall b cur, (b = true -> cur = []) ->
    List.filter nonEmpty (splitWsFrom b cur (s ++ c :: t))
    = List.filter nonEmpty (splitWsFrom b cur s) ++ words t.
Proof.
  intros Hc. induction s as [|d s IH]; intros b cur Hb; simpl.
  - rewrite Hc. destruct b; simpl.
    + rewrite (Hb eq_refl). apply splitWsFrom_run_flag.
    + destruct (rev cur); simpl; rewrite splitWsFrom_run_flag; reflexivity.
  - destruct (isWhiteSpace d).
    + destruct b; simpl; rewrite (IH true []) by reflexivity;
        [reflexivity | destruct (nonEmpty (rev cur)); reflexivity].
    + apply IH. discriminate.
Qed.

(** X2. Word counts add up across white space, and a text of white space
    only has no words. *)
Theorem countWords_additive (s t : jsstring) (c : N) :
  isWhiteSpace c = true ->
  countWords (s ++ c :: t) = countWords s + countWords t
  /\ (forallb isWhiteSpace s = true -> countWords s = 0).
Proof.
  intros Hc. rewrite !countWords_words. split.
  - unfold words at 1, splitWhitespace.
    rewrite words_app_sep by (auto; discriminate).
    rewrite length_app. reflexivity.
  - intros Hs. change s with ([] ++ s). rewrite words_app_ws by exact Hs.
    reflexivity.
Qed.

Lemma countWords_additive_witness :
  isWhiteSpace SPACE = true /\
  (countWords (lit "two words" ++ SPACE :: lit "and three more")
   = countWords (lit "two words") + countWords (lit "and three more")
   /\ (forallb isWhiteSpace (lit "two words") = true ->
       countWords (lit "two words") = 0)).
Proof.
  split; [reflexivity|].
  apply (countWords_additive (lit "two words") (lit "and three more") SPACE).
  reflexivity.
Defined.

(** ** The normal form of a cleaned text *)

Lemma collapseWsFrom_collapsed (s : jsstring) (b : bool) :
  isCollapsed b (collapseWsFrom b s) = true.
Proof.
  revert b. induction s as [|c s IH]; intros b; simpl; [reflexivity|].
  destruct (isWhiteSpace c) eqn:E.
  - destruct b; simpl; [apply IH|]. rewrite IH. reflexivity.
  - simpl. rewrite E. apply IH.
Qed.

Lemma isCollapsed_fixed (s : jsstring) (b : bool) :
  isCollapsed b s = true -> collapseWsFrom b s = s.
Proof.
  revert b. induction s as [|c s IH]; intros b; simpl; [reflexivity|].
  destruct (isWhiteSpace c).
  - intros H. apply andb_true_iff in H as [H Hs].
    apply andb_true_iff in H as [Hc Hb].
    apply N.eqb_eq in Hc. apply negb_true_iff in Hb. subst b c.
    rewrite (IH true Hs). reflexivity.
  - intros H. rewrite (IH false H). reflexivity.
Qed.

Lemma isCollapsed_weaken (s : jsstring) :
  isCollapsed true s = true -> isCollapsed false s = true.
Proof.
  destruct s as [|c s]; simpl; [reflexivity|].
  destruct (isWhiteSpace c); [|auto].
  rewrite andb_false_r. discriminate.
Qed.

Lemma isCollapsed_suffix (x s : jsstring) (b : bool) :
  isCollapsed b (x ++ s) = true -> isCollapsed false s = true.
Proof.
  revert b. induction x as [|c x IH]; intros b; simpl.
  - destruct b; [apply isCollapsed_weaken | auto].
  - destruct (isWhiteSpace c).
    + intros H. apply andb_true_iff in H as [_ H]. exact (IH true H).
    + apply IH.
Qed.

Lemma isCollapsed_prefix (s x : jsstring) (b : bool) :
  isCollapsed b (s ++ x) = true -> isCollapsed b s = true.
Proof.
  revert b. induction s as [|c s IH]; intros b; simpl; [reflexivity|].
  destruct (isWhiteSpace c).
  - intros H. apply andb_true_iff in H as [H Hs]. rewrite H.
    exact (IH true Hs).
  - apply IH.
Qed.

Lemma trim_collapsed (s : jsstring) :
  isCollapsed false s = true -> isCollapsed false (trim s) = true.
Proof.
  intros H. unfold trim.
  destruct (trimStart_suffix s) as [ws Hws].
  rewrite Hws in H. apply isCollapsed_suffix in H.
  destruct (trimEnd_prefix (trimStart s)) as [ws' Hws'].
  rewrite Hws' in H. exact (isCollapsed_prefix _ _ _ H).
Qed.

Lemma cleanText_collapsed (s : jsstring) :
  isCollapsed false (cleanText s) = true.
Proof.
  rewrite cleanText_eq. apply trim_collapsed.
  apply collapseWsFrom_collapsed.
Qed.

Lemma trim_ends_outside (s : jsstring) : endsOutsideWhiteSpace (trim s).
Proof.
  intros r c H. unfold trim, trimEnd in H.
  apply (f_equal (@rev N)) in H.
  rewrite List.rev_involutive, rev_app_distr in H. simpl in H.
  exact (trimStart_head _ _ _ H).
Qed.

Lemma trimStart_idempotent (s : jsstring) :
  trimStart (trimStart s) = trimStart s.
Proof.
  destruct (trimStart s) as [|c r] eqn:E; [reflexivity|].
  apply trimStart_fixed. exact (trimStart_head _ _ _ E).
Qed.

Lemma trim_idempotent (s : jsstring) : trim (trim s) = trim s.
Proof.
  assert (H : trimStart (trim s) = trim s).
  { destruct (trim s) as [|c r] eqn:E; [reflexivity|].
    apply trimStart_fixed. exact (trim_head _ _ _ E). }
  unfold trim at 1. rewrite H. unfold trim, trimEnd.
  rewrite List.rev_involutive, trimStart_idempotent. reflexivity.
Qed.

(** A collapsed text without white space at its ends is clean. *)
Lemma cleanText_fixed (s : jsstring) :
  isCollapsed false s = true -> trim s = s -> cleanText s = s.
Proof.
  intros Hc Ht. rewrite cleanText_eq. unfold collapseWhitespace.
  rewrite (isCollapsed_fixed _ _ Hc). exact Ht.
Qed.

Lemma cleanText_trimmed (s : jsstring) : trim (cleanText s) = cleanText s.
Proof. rewrite cleanText_eq. apply trim_idempotent. Qed.

(** X3. Cleaning is idempotent: a cleaned text is left as it is. *)
Theorem cleanText_idempotent (s : jsstring) :
  cleanText (cleanText s) = cleanText s.
Proof.
  rewrite (cleanText_eq (cleanText s)).
  unfold collapseWhitespace.
  rewrite (isCollapsed_fixed _ _ (cleanText_collapsed s)).
  rewrite cleanText_eq. apply trim_idempotent.
Qed.

Lemma isCollapsed_In (s : jsstring) (b : bool) (c : N) :
  isCollapsed b s = true -> In c s -> isWhiteSpace c = true -> c = SPACE.
Proof.
  revert b. induction s as [|d s IH]; intros b Hs; simpl; [tauto|].
  simpl in Hs. destruct (isWhiteSpace d) eqn:E.
  - apply andb_true_iff in Hs as [Hd Hs].
    apply andb_true_iff in Hd as [Hd _]. apply N.eqb_eq in Hd.
    intros [<-|Hin] Hc; [exact Hd | exact (IH true Hs Hin Hc)].
  - intros [<-|Hin] Hc; [congruence | exact (IH false Hs Hin Hc)].
Qed.

Lemma isCollapsed_adjacent (x y : jsstring) (c d : N) (b : bool) :
  isCollapsed b (x ++ c :: d :: y) = true ->
  isWhiteSpace c = true -> isWhiteSpace d = false.
Proof.
  revert b. induction x as [|e x IH]; intros b; simpl.
  - intros H Hc. rewrite Hc in H.
    apply andb_true_iff in H as [_ H].
    destruct (isWhiteSpace d); [|reflexivity].
    rewrite andb_false_r in H. discriminate.
  - destruct (isWhiteSpace e).
    + intros H. apply andb_true_iff in H as [_ H]. exact (IH true H).
    + apply IH.
Qed.

(** X4. A cleaned text neither starts nor ends with white space, its only
    white space is the space, and no two spaces are adjacent. *)
Theorem cleanText_normal_form (s : jsstring) :
  (forall c r, cleanText s = c :: r -> isWhiteSpace c = false)
  /\ (forall r c, cleanText s = r ++ [c] -> isWhiteSpace c = false)
  /\ (forall c, In c (cleanText s) -> isWhiteSpace c = true -> c = SPACE)
  /\ (forall x c d y, cleanText s = x ++ c :: d :: y ->
        isWhiteSpace c = true -> isWhiteSpace d = false).
Proof.
  pose proof (cleanText_collapsed s) as Hc.
  repeat split.
  - intros c r H. rewrite cleanText_eq in H. exact (trim_head _ _ _ H).
  - intros r c H. rewrite cleanText_eq in H.
    exact (trim_ends_outside _ _ _ H).
  - intros c. exact (isCollapsed_In _ _ _ Hc).
  - intros x c d y H. rewrite H in Hc. exact (isCollapsed_adjacent _ _ _ _ _ Hc).
Qed.

(** ** The fallback listener's word count *)

Lemma splitWsFrom_pieces (s : jsstring) :
  forall b cur,
    isCollapsed b s = true -> endsOutsideWhiteSpace s ->
    (if b then s <> [] else cur <> []) ->
    Forall (fun w => nonEmpty w = true) (splitWsFrom b cur s).
Proof.
  induction s as [|c s IH]; intros b cur Hc He Hb.
  - destruct b; [contradiction|]. simpl. constructor; [|constructor].
    destruct (rev cur) eqn:E; [|reflexivity].
    apply (f_equal (@rev N)) in E. rewrite List.rev_involutive in E.
    contradiction.
  - assert (Hs : endsOutsideWhiteSpace s).
    { intros r d ->. apply (He (c :: r) d). reflexivity. }
    simpl in *. destruct (isWhiteSpace c) eqn:E.
    + apply andb_true_iff in Hc as [Hc Hs'].
      apply andb_true_iff in Hc as [_ Hb']. apply negb_true_iff in Hb'.
      subst b. constructor.
      * destruct (rev cur) eqn:Er; [|reflexivity].
        apply (f_equal (@rev N)) in Er. rewrite List.rev_involutive in Er.
        contradiction.
      * apply IH; [exact Hs' | exact Hs |].
        intros ->. specialize (He [] c eq_refl). congruence.
    + destruct b; apply IH; auto; discriminate.
Qed.

Lemma filter_all {A : Type} (f : A -> bool) (l : list A) :
  Forall (fun x => f x = true) l -> List.filter f l = l.
Proof.
  induction 1 as [|x l Hx _ IH]; simpl; [reflexivity|].
  rewrite Hx, IH. reflexivity.
Qed.

(** On a trimmed, collapsed text the plain split counts the words. *)
Lemma splitWhitespace_trimmed (s : jsstring) :
  trim (collapseWhitespace s) <> [] ->
  length (splitWhitespace (trim (collapseWhitespace s))) = countWords s.
Proof.
  intros Hne. rewrite countWords_words, <- (words_cleanText s).
  rewrite cleanText_eq. unfold words. f_equal. symmetry. apply filter_all.
  destruct (trim (collapseWhitespace s)) as [|c r] eqn:E; [contradiction|].
  unfold splitWhitespace. simpl.
  rewrite (trim_head _ _ _ E).
  pose proof (trim_collapsed _ (collapseWsFrom_collapsed s false)) as Hc.
  fold (collapseWhitespace s) in Hc. rewrite E in Hc. simpl in Hc.
  rewrite (trim_head _ _ _ E) in Hc.
  apply splitWsFrom_pieces; [exact Hc | | discriminate].
  intros r' d ->. apply (trim_ends_outside (collapseWhitespace s) (c :: r') d).
  rewrite E. reflexivity.
Qed.

(** X5. A successful reply of the fallback listener carries the first
    5000 code units of the cleaned body text, and its word count is that
    of the whole cleaned text: it is the word count of the returned text
    only when nothing was cut off. *)
Theorem fallback_success_counts_whole_text (doc : Document) :
  success (fallbackExtractText doc) = true ->
  exists body,
    documentBody doc = Some body
    /\ 100 < length (fallbackCleanText doc body)
    /\ text (fallbackExtractText doc)
       = take 5000 (fallbackCleanText doc body)
    /\ length (text (fallbackExtractText doc)) <= 5000
    /\ wordCount (fallbackExtractText doc)
       = countWords (fallbackCleanText doc body)
    /\ (length (fallbackCleanText doc body) <= 5000 ->
        wordCount (fallbackExtractText doc)
        = countWords (text (fallbackExtractText doc))).
Proof.
  unfold fallbackExtractText.
  destruct (documentBody doc) as [body|]; cbn zeta; [|discriminate].
  fold (fallbackCleanText doc body).
  destruct (Nat.ltb_spec 100 (length (fallbackCleanText doc body)))
    as [Hlen | Hlen]; cbn [success text wordCount]; [|discriminate].
  intros _. exists body. split; [reflexivity|]. split; [exact Hlen|].
  assert (Hw : length (splitWhitespace (fallbackCleanText doc body))
               = countWords (fallbackCleanText doc body)).
  { unfold fallbackCleanText in *.
    rewrite splitWhitespace_trimmed
      by (intros E; rewrite E in Hlen; simpl in Hlen; lia).
    rewrite <- cleanText_eq, !countWords_words, words_cleanText.
    reflexivity. }
  unfold substring0. rewrite length_take.
  repeat split; [lia | exact Hw |].
  intros Hshort. rewrite take_ge by lia. exact Hw.
Qed.

Lemma fallback_success_counts_whole_text_witness :
  success (fallbackExtractText (page 1024 story)) = true /\
  exists body,
    documentBody (page 1024 story) = Some body
    /\ 100 < length (fallbackCleanText (page 1024 story) body)
    /\ text (fallbackExtractText (page 1024 story))
       = take 5000 (fallbackCleanText (page 1024 story) body)
    /\ length (text (fallbackExtractText (page 1024 story))) <= 5000
    /\ wordCount (fallbackExtractText (page 1024 story))
       = countWords (fallbackCleanText (page 1024 story) body)
    /\ (length (fallbackCleanText (page 1024 story) body) <= 5000 ->
        wordCount (fallbackExtractText (page 1024 story))
        = countWords (text (fallbackExtractText (page 1024 story)))).
Proof.
  split; [reflexivity|].
  apply (fallback_success_counts_whole_text (page 1024 story)).
  reflexivity.
Defined.

(** A body of 1001 words: the reply counts 1001 words and returns a text
    of 1000. *)
Example fallback_truncated_text :
  wordCount (fallbackExtractText longBodyPage) = 1001
  /\ length (text (fallbackExtractText longBodyPage)) = 5000
  /\ countWords (text (fallbackExtractText longBodyPage)) = 1000.
Proof. vm_compute. repeat split. Qed.

(** ** The exclusion filter *)

Section ExclusionFilter.

Variable unicodeLower : jsstring -> jsstring.

#[local] Abbreviation lowerCase := (toLowerCase unicodeLower).
#[local] Abbreviation excludes := (shouldExcludeElement unicodeLower).

(** The lower-cased tag name of an HTML element with an excluded local
    name is that local name again. *)
Lemma excludedTags_tagName (el : elementNode) :
  ns (attributes el) = HTML ->
  In (localName (attributes el)) excludedTags ->
  lowerCase (tagName el) = localName (attributes el).
Proof.
  unfold tagName. intros -> Hin.
  repeat (destruct Hin as [<- | Hin]; [reflexivity|]).
  destruct Hin.
Qed.


End ExclusionFilter.

(** The keywords match inside words: [downloads] contains [ads]. *)
Example shouldExcludeElement_substring :
  shouldExcludeElement id (Some downloadsBlock) = Normal true.
Proof. reflexivity. Qed.

(** ** The sort of the heuristic strategy *)

Lemma Qltb_ge (x y : Q) : Qltb x y = false <-> (y <= x)%Q.
Proof.
  split.
  - intros H. apply Qnot_lt_le. intros Hlt. apply Qltb_lt in Hlt. congruence.
  - intros H. destruct (Qltb x y) eqn:E; [|reflexivity].
    apply Qltb_lt in E. exfalso. exact (Qlt_not_le _ _ E H).
Qed.

Lemma insertByScore_perm (c : scoredCandidate) (l : list scoredCandidate) :
  Permutation (insertByScore c l) (c :: l).
Proof.
  induction l as [|d l IH]; simpl; [reflexivity|].
  destruct (Qltb (score c) (score d)); [|reflexivity].
  rewrite IH. apply perm_swap.
Qed.

Lemma sortByScore_perm (l : list scoredCandidate) :
  Permutation (sortByScore l) l.
Proof.
  induction l as [|c l IH]; simpl; [reflexivity|].
  rewrite insertByScore_perm, IH. reflexivity.
Qed.

Lemma insertByScore_sorted (c : scoredCandidate) (l : list scoredCandidate) :
  StronglySorted notBelow l -> StronglySorted notBelow (insertByScore c l).
Proof.
  induction 1 as [|d l Hl IH Hd]; simpl.
  - constructor; constructor.
  - destruct (Qltb (score c) (score d)) eqn:E.
    + constructor; [exact IH|].
      apply Qltb_lt in E.
      rewrite (List.Forall_forall (notBelow d)).
      intros x Hx.
      apply (Permutation_in _ (insertByScore_perm c l)) in Hx.
      destruct Hx as [<- | Hx].
      * unfold notBelow. lra.
      * rewrite (List.Forall_forall (notBelow d)) in Hd. exact (Hd x Hx).
    + apply Qltb_ge in E.
      constructor; [constructor; assumption|].
      constructor; [exact E|].
      rewrite (List.Forall_forall (notBelow d)) in Hd.
      rewrite (List.Forall_forall (notBelow c)).
      intros x Hx. specialize (Hd x Hx). unfold notBelow in *. lra.
Qed.

Lemma sortByScore_sorted (l : list scoredCandidate) :
  StronglySorted notBelow (sortByScore l).
Proof.
  induction l as [|c l IH]; simpl; [constructor|].
  apply insertByScore_sorted. exact IH.
Qed.

(** The first of the sorted candidates is the first of the highest
    score in the original order. *)
Lemma sortByScore_head (l : list scoredCandidate) (best : scoredCandidate)
  (rest : list scoredCandidate) :
  sortByScore l = best :: rest ->
  exists before after,
    l = before ++ best :: after
    /\ (forall c, In c before -> (score c < score best)%Q)
    /\ (forall c, In c after -> (score c <= score best)%Q).
Proof.
  revert best rest. induction l as [|x l IH]; intros best rest; simpl.
  - discriminate.
  - destruct (sortByScore l) as [|d sorted] eqn:E; simpl.
    + intros H. injection H as <- _.
      assert (l = []) as ->.
      { apply Permutation_nil. rewrite <- E. apply sortByScore_perm. }
      exists [], []. repeat split; intros c [].
    + destruct (IH d sorted eq_refl) as (before & after & -> & Hb & Ha).
      destruct (Qltb (score x) (score d)) eqn:Ex.
      * intros H. injection H as <- _. apply Qltb_lt in Ex.
        exists (x :: before), after. repeat split; [|exact Ha].
        intros c [<- | Hc]; [exact Ex | exact (Hb c Hc)].
      * intros H. injection H as <- _. apply Qltb_ge in Ex.
        exists [], (before ++ d :: after). repeat split; [intros c []|].
        intros c Hc. apply in_app_or in Hc as [Hc | [<- | Hc]].
        -- specialize (Hb c Hc). lra.
        -- exact Ex.
        -- specialize (Ha c Hc). lra.
Qed.

(** X7. The sort of the heuristic strategy returns the same candidates in
    descending score order, and its first element is the earliest
    candidate of the highest score. *)
Theorem sortByScore_stable_descending (l : list scoredCandidate) :
  Permutation (sortByScore l) l
  /\ StronglySorted notBelow (sortByScore l)
  /\ (forall best rest,
        sortByScore l = best :: rest ->
        exists before after,
          l = before ++ best :: after
          /\ (forall c, In c before -> (score c < score best)%Q)
          /\ (forall c, In c after -> (score c <= score best)%Q)).
Proof.
  split; [apply sortByScore_perm|].
  split; [apply sortByScore_sorted|].
  apply sortByScore_head.
Qed.

(** ** The heuristic strategy picks the best container *)

Section HeuristicProperties.

Variable unicodeLower : jsstring -> jsstring.
Variable selectorError : jsstring -> option exn.
Variable doc : Document.

#[local] Abbreviation excludes := (shouldExcludeElement unicodeLower).
#[local] Abbreviation scoreOf :=
  (calculateContentScore unicodeLower selectorError doc).
#[local] Abbreviation contribution :=
  (candidateFor unicodeLower selectorError doc).
#[local] Abbreviation collect :=
  (collectCandidates unicodeLower selectorError doc).

Lemma collectCandidates_cons (x : located) (cs : list located) :
  collect (x :: cs)
  = (r ← contribution x;
     rest ← collect cs;
     Normal match r with Some sc => sc :: rest | None => rest end).
Proof.
  cbn [collectCandidates]. unfold candidateFor, mbind, completion_bind.
  destruct (excludes _) as [[|]|e]; [| |reflexivity].
  - destruct (collect cs); reflexivity.
  - destruct (scoreOf _) as [s|e]; [|reflexivity].
    destruct (collect cs); [|reflexivity].
    destruct (Qltb 0 s); reflexivity.
Qed.

Lemma candidateFor_Some (x : located) (sc : scoredCandidate) :
  contribution x = Normal (Some sc) ->
  excludes (Some (element x)) = Normal false
  /\ scoreOf (element x) = Normal (score sc)
  /\ (0 < score sc)%Q
  /\ scoredElement sc = x.
Proof.
  unfold candidateFor, mbind, completion_bind.
  destruct (excludes _) as [[|]|e]; try discriminate.
  destruct (scoreOf _) as [s|e]; try discriminate.
  destruct (Qltb 0 s) eqn:E; try discriminate.
  intros H. injection H as <-. apply Qltb_lt in E. auto.
Qed.

Lemma candidateFor_None (x : located) :
  contribution x = Normal None ->
  excludes (Some (element x)) = Normal true
  \/ exists s, scoreOf (element x) = Normal s /\ (s <= 0)%Q.
Proof.
  unfold candidateFor, mbind, completion_bind.
  destruct (excludes _) as [[|]|e]; try discriminate; [auto|].
  destruct (scoreOf _) as [s|e]; try discriminate.
  destruct (Qltb 0 s) eqn:E; try discriminate.
  intros _. right. exists s. split; [reflexivity|].
  apply Qltb_ge. exact E.
Qed.

(** Every container either contributes nothing or one of the collected
    candidates. *)
Lemma collectCandidates_all (cs : list located)
  (cands : list scoredCandidate) :
  collect cs = Normal cands ->
  forall x, In x cs ->
    contribution x = Normal None
    \/ exists sc, In sc cands /\ contribution x = Normal (Some sc).
Proof.
  revert cands. induction cs as [|y cs IH]; intros cands H x Hx.
  - destruct Hx.
  - rewrite collectCandidates_cons in H.
    unfold mbind, completion_bind in H.
    destruct (contribution y) as [r|e] eqn:Ey; [|discriminate].
    destruct (collect cs) as [rest|e]; [|discriminate].
    injection H as <-. destruct Hx as [<- | Hx].
    + destruct r as [sc|]; [|auto]. right. exists sc. split; [left|]; auto.
    + destruct (IH rest eq_refl x Hx) as [Hn | (sc & Hsc & Hc)]; [auto|].
      right. exists sc. split; [|exact Hc].
      destruct r; [right|]; exact Hsc.
Qed.

(** A collected candidate sits among the containers where it sits among
    the candidates. *)
Lemma collectCandidates_split (cs : list located) :
  forall cands before' sc after',
    collect cs = Normal cands ->
    cands = before' ++ sc :: after' ->
    exists before after,
      cs = before ++ scoredElement sc :: after
      /\ contribution (scoredElement sc) = Normal (Some sc)
      /\ (forall x, In x before ->
            contribution x = Normal None
            \/ exists sc', In sc' before'
                           /\ contribution x = Normal (Some sc'))
      /\ (forall x, In x after ->
            contribution x = Normal None
            \/ exists sc', In sc' after'
                           /\ contribution x = Normal (Some sc')).
Proof.
  induction cs as [|y cs IH]; intros cands before' sc after' H Hsplit.
  - injection H as <-. destruct before'; discriminate.
  - rewrite collectCandidates_cons in H.
    unfold mbind, completion_bind in H.
    destruct (contribution y) as [r|e] eqn:Ey; [|discriminate].
    destruct (collect cs) as [rest|e] eqn:Ecs; [|discriminate].
    injection H as <-. destruct r as [scy|].
    + destruct before' as [|b before'']; simpl in Hsplit;
        injection Hsplit as -> ->.
      * destruct (candidateFor_Some _ _ Ey) as (_ & _ & _ & Hel).
        exists [], cs. rewrite Hel. repeat split; [exact Ey | intros x [] |].
        apply (collectCandidates_all cs after' Ecs).
      * destruct (IH _ before'' sc after' eq_refl eq_refl)
          as (before & after & -> & Hsc & Hb & Ha).
        exists (y :: before), after.
        repeat split; [exact Hsc | | exact Ha].
        intros x [<- | Hx].
        -- right. exists b. split; [left; reflexivity | exact Ey].
        -- destruct (Hb x Hx) as [Hn | (sc' & Hin & Hc)]; [auto|].
           right. exists sc'. split; [right; exact Hin | exact Hc].
    + destruct (IH _ before' sc after' eq_refl Hsplit)
        as (before & after & -> & Hsc & Hb & Ha).
      exists (y :: before), after.
      repeat split; [exact Hsc | | exact Ha].
      intros x [<- | Hx]; [left; exact Ey | exact (Hb x Hx)].
Qed.

(** X8. The node the heuristic strategy returns is a container that is
    not excluded and scores above 10; every container before it in
    document order is excluded or scores strictly lower, and every
    container after it is excluded or scores no higher. *)
Theorem findContentByHeuristics_best (st st' : store) (c : candidate) :
  findContentByHeuristics unicodeLower selectorError doc st
  = (Normal (Some c), st') ->
  exists before best after s,
    querySelectorAll selectorError (documentElements doc) containerSelector
    = Normal (before ++ best :: after)
    /\ c = candidateOf best
    /\ st' = <[InDocument (path best) := tagHeuristic]> st
    /\ shouldExcludeElement unicodeLower (Some (element best)) = Normal false
    /\ calculateContentScore unicodeLower selectorError doc (element best)
       = Normal s
    /\ (10 < s)%Q
    /\ (forall x, In x before ->
          shouldExcludeElement unicodeLower (Some (element x)) = Normal true
          \/ exists sx,
               calculateContentScore unicodeLower selectorError doc
                 (element x) = Normal sx /\ (sx < s)%Q)
    /\ (forall x, In x after ->
          shouldExcludeElement unicodeLower (Some (element x)) = Normal true
          \/ exists sx,
               calculateContentScore unicodeLower selectorError doc
                 (element x) = Normal sx /\ (sx <= s)%Q).
Proof.
  unfold findContentByHeuristics.
  unfold mbind, M_bind, mret, M_ret, lift, setExtractionMethod.
  destruct (querySelectorAll _ _ _) as [containers|e]; [|discriminate].
  destruct (collect containers) as [cands|e] eqn:Ec; [|discriminate].
  destruct (sortByScore cands) as [|top rest] eqn:Es; [discriminate|].
  destruct (Qltb 10 (score top)) eqn:E10; [|discriminate].
  intros H. injection H as <- <-. apply Qltb_lt in E10.
  destruct (sortByScore_head _ _ _ Es) as (before' & after' & -> & Hb' & Ha').
  destruct (collectCandidates_split _ _ _ _ _ Ec eq_refl)
    as (before & after & -> & Htop & Hb & Ha).
  destruct (candidateFor_Some _ _ Htop) as (Hex & Hs & _ & _).
  exists before, (scoredElement top), after, (score top).
  repeat split; auto.
  - intros x Hx. destruct (Hb x Hx) as [Hn | (sc' & Hin & Hc)].
    + destruct (candidateFor_None _ Hn) as [He | (sx & Hsx & Hle)]; [auto|].
      right. exists sx. split; [exact Hsx | lra].
    + destruct (candidateFor_Some _ _ Hc) as (_ & Hsx & _ & _).
      right. exists (score sc'). split; [exact Hsx | exact (Hb' _ Hin)].
  - intros x Hx. destruct (Ha x Hx) as [Hn | (sc' & Hin & Hc)].
    + destruct (candidateFor_None _ Hn) as [He | (sx & Hsx & Hle)]; [auto|].
      right. exists sx. split; [exact Hsx | lra].
    + destruct (candidateFor_Some _ _ Hc) as (_ & Hsx & _ & _).
      right. exists (score sc'). split; [exact Hsx | exact (Ha' _ Hin)].
Qed.

End HeuristicProperties.

Lemma findContentByHeuristics_best_witness :
  findContentByHeuristics id acceptAll tiePage ∅
  = (Normal (Some (candidateOf (tieContainer 1 "" 8))),
     <[InDocument [0; 1; 1] := tagHeuristic]> ∅)
  /\ exists before best after s,
       querySelectorAll acceptAll (documentElements tiePage)
         containerSelector
       = Normal (before ++ best :: after)
       /\ candidateOf (tieContainer 1 "" 8) = candidateOf best
       /\ <[InDocument [0; 1; 1] := tagHeuristic]> ∅
          = <[InDocument (path best) := tagHeuristic]> (∅ : store)
       /\ shouldExcludeElement id (Some (element best)) = Normal false
       /\ calculateContentScore id acceptAll tiePage (element best)
          = Normal s
       /\ (10 < s)%Q
       /\ (forall x, In x before ->
             shouldExcludeElement id (Some (element x)) = Normal true
             \/ exists sx,
                  calculateContentScore id acceptAll tiePage
                    (element x) = Normal sx /\ (sx < s)%Q)
       /\ (forall x, In x after ->
             shouldExcludeElement id (Some (element x)) = Normal true
             \/ exists sx,
                  calculateContentScore id acceptAll tiePage
                    (element x) = Normal sx /\ (sx <= s)%Q).
Proof.
  assert (H : findContentByHeuristics id acceptAll tiePage ∅
              = (Normal (Some (candidateOf (tieContainer 1 "" 8))),
                 <[InDocument [0; 1; 1] := tagHeuristic]> ∅))
    by (vm_compute; reflexivity).
  split; [exact H|].
  exact (findContentByHeuristics_best id acceptAll tiePage ∅ _ _ H).
Defined.

(** Scores that differ only by rounding.  The three containers would
    score 16.01 alike in exact arithmetic, and the first would win; as
    doubles the first scores 16.009999999999998 and the other two 16.01,
    so the strategy returns the second: the container before it scores
    strictly lower, the one after it no higher. *)
Example findContentByHeuristics_rounding_tie :
  querySelectorAll acceptAll (documentElements tiePage) containerSelector
  = Normal [ tieContainer 0 "content" 3; tieContainer 1 "" 8;
             tieContainer 2 "" 8 ]
  /\ calculateContentScore id acceptAll tiePage (sparseBlock "content" 3)
     = Normal (2253207188568801 # 140737488355328)
  /\ calculateContentScore id acceptAll tiePage (sparseBlock "" 8)
     = Normal (4506414377137603 # 281474976710656)
  /\ ((2253207188568801 # 140737488355328)
      < (4506414377137603 # 281474976710656))%Q
  /\ fst (findContentByHeuristics id acceptAll tiePage ∅)
     = Normal (Some (candidateOf (tieContainer 1 "" 8))).
Proof. vm_compute. repeat split. Qed.

(** ** The paragraph strategy *)

Section ParagraphStrategy.

Variable unicodeLower : jsstring -> jsstring.
Variable selectorError : jsstring -> option exn.
Variable doc : Document.

#[local] Abbreviation keeps := (qualifies unicodeLower).

Lemma gatherParagraphs_step (p : located) (rest : list located)
  (kids : list node) (totalText : jsstring) (r : list node * jsstring) :
  gatherParagraphs unicodeLower (p :: rest) kids totalText = Normal r ->
  (keeps p = true
   /\ gatherParagraphs unicodeLower rest (kids ++ [toNode (element p)])
        (totalText ++ paragraphShare p) = Normal r)
  \/ (keeps p = false
      /\ gatherParagraphs unicodeLower rest kids totalText = Normal r).
Proof.
  cbn [gatherParagraphs]. unfold qualifies, paragraphShare, mbind,
    completion_bind.
  destruct (50 <? length (trim (textContent (element p)))); simpl; [|auto].
  destruct (shouldExcludeElement unicodeLower (parentElement p))
    as [[|]|e]; [auto | auto | discriminate].
Qed.

Lemma gatherParagraphs_spec (paragraphs : list located) :
  forall kids totalText kids' totalText',
    gatherParagraphs unicodeLower paragraphs kids totalText
    = Normal (kids', totalText') ->
    kids' = kids ++ List.map (fun p => toNode (element p))
                             (List.filter keeps paragraphs)
    /\ totalText' = totalText ++ concat (List.map paragraphShare
                                           (List.filter keeps paragraphs)).
Proof.
  induction paragraphs as [|p rest IH]; intros kids tt kids' tt' H.
  - injection H as <- <-. simpl. rewrite !app_nil_r. auto.
  - apply gatherParagraphs_step in H as [[Hk H] | [Hk H]];
      cbn [List.filter]; rewrite Hk; apply IH in H as [-> ->].
    + simpl. rewrite <- !app_assoc. auto.
    + auto.
Qed.

Lemma length_concat_shares (l : list located) :
  length (concat (List.map paragraphShare l))
  = list_sum (List.map (fun p => length (trim (textContent (element p))) + 1)
                       l).
Proof.
  induction l as [|p l IH]; simpl; [reflexivity|].
  rewrite length_app, IH. unfold paragraphShare. rewrite length_app.
  reflexivity.
Qed.

(** X9. The paragraph strategy gives up when the document has fewer than
    three paragraphs, whatever their length.  When it returns a
    container, that container is a new [<div>] tagged [paragraphs] whose
    children are, in document order, exactly the paragraphs with a
    trimmed text of more than 50 code units and a parent that is not
    excluded; their text lengths, plus one each, exceed 200; and no
    element of the document has its dataset touched. *)
Theorem findContentFromParagraphs_container (st : store) :
  (forall paragraphs,
     querySelectorAll selectorError (documentElements doc) (lit "p")
     = Normal paragraphs ->
     length paragraphs < 3 ->
     findContentFromParagraphs unicodeLower selectorError doc st
     = (Normal None, st))
  /\ (forall c st',
        findContentFromParagraphs unicodeLower selectorError doc st
        = (Normal (Some c), st') ->
        exists paragraphs,
          querySelectorAll selectorError (documentElements doc) (lit "p")
          = Normal paragraphs
          /\ 3 <= length paragraphs
          /\ ref c = Created
          /\ attributes (content c) = emptyDiv
          /\ childNodes (content c)
             = List.map (fun p => toNode (element p))
                        (List.filter keeps paragraphs)
          /\ 200 < list_sum
                     (List.map
                        (fun p => length (trim (textContent (element p))) + 1)
                        (List.filter keeps paragraphs))
          /\ st' !! Created = Some tagParagraphs
          /\ forall p, st' !! InDocument p = st !! InDocument p).
Proof.
  unfold findContentFromParagraphs.
  unfold mbind, M_bind, mret, M_ret, lift, setExtractionMethod, createElement.
  split.
  - intros paragraphs -> Hlen.
    destruct (Nat.ltb_spec (length paragraphs) 3); [reflexivity | lia].
  - intros c st'.
    destruct (querySelectorAll _ _ _) as [paragraphs|e]; [|discriminate].
    destruct (Nat.ltb_spec (length paragraphs) 3) as [|Hlen];
      [discriminate|].
    destruct (gatherParagraphs _ _ _ _) as [[kids totalText]|e] eqn:Eg;
      [|discriminate].
    destruct (Nat.ltb_spec 200 (length totalText)) as [Htotal|];
      [|discriminate].
    intros H. injection H as <- <-.
    apply gatherParagraphs_spec in Eg as [-> ->]. simpl in Htotal.
    rewrite length_concat_shares in Htotal.
    exists paragraphs. repeat split; auto.
    + apply lookup_insert_eq.
    + intros p. rewrite lookup_insert_ne by discriminate.
      apply lookup_delete_ne. discriminate.
Qed.

End ParagraphStrategy.

(** One long paragraph among three is enough for the strategy. *)
Example findContentFromParagraphs_one_long :
  exists c st',
    findContentFromParagraphs id acceptAll oneLongParagraphPage ∅
    = (Normal (Some c), st')
    /\ length (childNodes (content c)) = 1.
Proof. eexists _, _. split; reflexivity. Qed.

(** ** Removal of excluded nodes *)

Lemma prune_Element (sel : list simpleSelector) (a : attrs)
  (kids : list node) :
  prune sel (Element a kids) = Element a (pruneForest sel kids).
Proof.
  cbn [prune]. f_equal.
  induction kids as [|k kids IH]; [reflexivity|].
  cbn [pruneForest]. rewrite <- IH. reflexivity.
Qed.

Lemma removeMatching_eq (sel : list simpleSelector) (el : elementNode) :
  removeMatching sel el
  = {| attributes := attributes el;
       childNodes := pruneForest sel (childNodes el) |}.
Proof.
  unfold removeMatching, toNode. rewrite prune_Element. reflexivity.
Qed.

(** Matching reads the attributes only. *)
Lemma elementMatches_attributes (sel : list simpleSelector) (x y : located) :
  attributes (element x) = attributes (element y) ->
  elementMatches sel x = elementMatches sel y.
Proof.
  unfold elementMatches, matchesSelector, toNode. intros ->. reflexivity.
Qed.

Lemma pruneForest_noneMatches (sel : list simpleSelector) (kids : list node) :
  Forall (fun n => forall parent p,
            matchesSelector sel n = false ->
            noneMatches sel (subtreeElements parent p (prune sel n))) kids ->
  forall parent p i,
    noneMatches sel (forestElements parent p i (pruneForest sel kids)).
Proof.
  unfold noneMatches.
  induction 1 as [|k kids Hk _ IH]; intros parent p i; cbn [pruneForest].
  - constructor.
  - destruct (matchesSelector sel k) eqn:E; [apply IH|].
    cbn [forestElements]. apply Forall_app. split; [|apply IH].
    apply Hk. reflexivity.
Qed.

Lemma prune_noneMatches (sel : list simpleSelector) (n : node) :
  forall parent p,
    matchesSelector sel n = false ->
    noneMatches sel (subtreeElements parent p (prune sel n)).
Proof.
  induction n as [s | a kids IH] using node_forall_ind; intros parent p Hn.
  - constructor.
  - rewrite prune_Element, subtreeElements_Element.
    constructor; [exact Hn|].
    apply pruneForest_noneMatches. exact IH.
Qed.

Lemma pruneForest_attributesAmong (sel : list simpleSelector)
  (kids : list node) :
  Forall (fun n => forall parent p parent' p',
            attributesAmong (subtreeElements parent p (prune sel n))
                            (subtreeElements parent' p' n)) kids ->
  forall parent p i parent' p' i',
    attributesAmong (forestElements parent p i (pruneForest sel kids))
                    (forestElements parent' p' i' kids).
Proof.
  unfold attributesAmong.
  induction 1 as [|k kids Hk _ IH]; intros parent p i parent' p' i' x;
    cbn [pruneForest forestElements].
  - intros [].
  - destruct (matchesSelector sel k).
    + intros Hx.
      destruct (IH parent p i parent' p' (S i') x Hx) as (x' & Hx' & Ha).
      exists x'. split; [apply in_or_app; right; exact Hx' | exact Ha].
    + cbn [forestElements]. intros Hx. apply in_app_or in Hx as [Hx | Hx].
      * destruct (Hk parent (p ++ [i]) parent' (p' ++ [i']) x Hx)
          as (x' & Hx' & Ha).
        exists x'. split; [apply in_or_app; left; exact Hx' | exact Ha].
      * destruct (IH parent p (S i) parent' p' (S i') x Hx)
          as (x' & Hx' & Ha).
        exists x'. split; [apply in_or_app; right; exact Hx' | exact Ha].
Qed.

Lemma prune_attributesAmong (sel : list simpleSelector) (n : node) :
  forall parent p parent' p',
    attributesAmong (subtreeElements parent p (prune sel n))
                    (subtreeElements parent' p' n).
Proof.
  induction n as [s | a kids IH] using node_forall_ind;
    intros parent p parent' p' x.
  - intros [].
  - rewrite prune_Element, !subtreeElements_Element.
    intros [<- | Hx].
    + eexists. split; [left; reflexivity | reflexivity].
    + destruct (pruneForest_attributesAmong sel kids IH _ _ _
                  (Some {| attributes := a; childNodes := kids |}) p' 0 x Hx)
        as (x' & Hx' & Ha).
      exists x'. split; [right; exact Hx' | exact Ha].
Qed.

Section ExclusionLoop.

Variable selectorError : jsstring -> option exn.

#[local] Abbreviation strip := (removeExcluded selectorError).

(** One turn of the loop removes every descendant matching an accepted
    selector. *)
Lemma removeExcluded_noneMatches (clone : elementNode) (selector : jsstring) :
  selectorError selector = None ->
  noneMatches (parseSelector selector)
              (descendantElements (strip clone selector)).
Proof.
  intros Hs. unfold removeExcluded. rewrite Hs, removeMatching_eq.
  unfold descendantElements. cbn [childNodes].
  apply pruneForest_noneMatches.
  apply Forall_forall. intros n _ parent p. apply prune_noneMatches.
Qed.

(** A turn of the loop adds no element and changes no attribute. *)
Lemma removeExcluded_attributesAmong (clone : elementNode)
  (selector : jsstring) :
  attributesAmong (descendantElements (strip clone selector))
                  (descendantElements clone).
Proof.
  unfold removeExcluded.
  destruct (selectorError selector).
  - intros x Hx. exists x. auto.
  - rewrite removeMatching_eq. unfold descendantElements. cbn [childNodes].
    apply pruneForest_attributesAmong.
    apply Forall_forall. intros n _ parent p parent' p'.
    apply prune_attributesAmong.
Qed.

Lemma removeExcluded_attributes (clone : elementNode) (selector : jsstring) :
  attributes (strip clone selector) = attributes clone.
Proof.
  unfold removeExcluded. destruct (selectorError selector); [reflexivity|].
  rewrite removeMatching_eq. reflexivity.
Qed.

Lemma foldl_removeExcluded_keeps (sel : list simpleSelector)
  (selectors : list jsstring) :
  forall clone,
    noneMatches sel (descendantElements clone) ->
    noneMatches sel (descendantElements (foldl strip clone selectors)).
Proof.
  induction selectors as [|s rest IH]; intros clone H; [exact H|].
  cbn [foldl]. apply IH. unfold noneMatches in *.
  apply List.Forall_forall. intros x Hx.
  destruct (removeExcluded_attributesAmong clone s x Hx) as (x' & Hx' & Ha).
  rewrite (elementMatches_attributes sel x x' Ha).
  rewrite List.Forall_forall in H. exact (H x' Hx').
Qed.

Lemma foldl_removeExcluded_noneMatches (selectors : list jsstring) :
  forall clone selector,
    In selector selectors ->
    selectorError selector = None ->
    noneMatches (parseSelector selector)
                (descendantElements (foldl strip clone selectors)).
Proof.
  induction selectors as [|s rest IH]; intros clone selector Hin Hs.
  - destruct Hin.
  - cbn [foldl]. destruct Hin as [<- | Hin].
    + apply foldl_removeExcluded_keeps.
      apply removeExcluded_noneMatches. exact Hs.
    + apply IH; assumption.
Qed.

Lemma foldl_removeExcluded_attributes (selectors : list jsstring) :
  forall clone, attributes (foldl strip clone selectors) = attributes clone.
Proof.
  induction selectors as [|s rest IH]; intros clone; [reflexivity|].
  cbn [foldl]. rewrite IH. apply removeExcluded_attributes.
Qed.

(** X10. After the exclusion loop of the normalizer, no descendant of
    the clone matches any exclusion selector the host accepts, while the
    clone's own root is kept with its attributes, whatever it matches. *)
Theorem exclusion_loop_removes_all (el : elementNode) :
  (forall selector x,
     In selector selectors_exclude ->
     selectorError selector = None ->
     In x (descendantElements
             (foldl (removeExcluded selectorError) el selectors_exclude)) ->
     elementMatches (parseSelector selector) x = false)
  /\ attributes (foldl (removeExcluded selectorError) el selectors_exclude)
     = attributes el.
Proof.
  split; [|apply foldl_removeExcluded_attributes].
  intros selector x Hin Hs Hx.
  pose proof (foldl_removeExcluded_noneMatches _ el selector Hin Hs) as H.
  unfold noneMatches in H. rewrite List.Forall_forall in H. exact (H x Hx).
Qed.

End ExclusionLoop.

(** ** The text the normalizer extracts *)

Lemma joinParagraphs_spec (paragraphs : list located) (text : jsstring) :
  joinParagraphs paragraphs text
  = text ++ concat (List.map withBreak
                      (List.filter nonEmpty
                         (List.map (fun p => trim (textContent (element p)))
                                   paragraphs))).
Proof.
  revert text. induction paragraphs as [|p rest IH]; intros text; simpl.
  - rewrite app_nil_r. reflexivity.
  - destruct (trim (textContent (element p))) as [|c r]; simpl.
    + apply IH.
    + rewrite IH. unfold withBreak. simpl.
      repeat (rewrite <- app_assoc; simpl). reflexivity.
Qed.

(** A text that begins with a text block is not blank. *)
Lemma trim_block_nonempty (block rest : jsstring) :
  nonEmpty block = true -> trim block = block -> trim (block ++ rest) <> [].
Proof.
  destruct block as [|c r]; [discriminate|]. intros _ Ht.
  assert (Hc : isWhiteSpace c = false) by exact (trim_head _ _ _ Ht).
  simpl. destruct (trim_keeps_head c (r ++ rest) Hc) as [r' ->].
  discriminate.
Qed.

Lemma textBlocks_trimmed (l : list located) :
  forall block,
    In block (List.filter nonEmpty
                (List.map (fun p => trim (textContent (element p))) l)) ->
    nonEmpty block = true /\ trim block = block.
Proof.
  intros block H. apply filter_In in H as [H Hne]. split; [exact Hne|].
  apply in_map_iff in H as (p & <- & _). apply trim_idempotent.
Qed.

(** X11. When the host accepts the query for paragraphs and headings, the
    normalizer returns the trimmed, non-empty texts of the paragraphs and
    headings left after the exclusion loop, each followed by two line
    feeds; it falls back to the whole text content of the filtered clone
    exactly when there is no such text. *)
Theorem extractTextFromElement_blocks
  (selectorError : jsstring -> option exn) (el : elementNode) :
  selectorError textSelector = None ->
  extractTextFromElement selectorError el
  = Normal match textBlocks selectorError el with
           | [] => textContent (filteredClone selectorError el)
           | blocks => concat (List.map withBreak blocks)
           end.
Proof.
  intros Hs. unfold extractTextFromElement, querySelectorAll.
  rewrite Hs. unfold mbind, completion_bind.
  fold (filteredClone selectorError el).
  rewrite joinParagraphs_spec. cbn [app]. fold (textBlocks selectorError el).
  pose proof (textBlocks_trimmed
                (List.filter (elementMatches (parseSelector textSelector))
                   (descendantElements (filteredClone selectorError el))))
    as Hb.
  fold (textBlocks selectorError el) in Hb.
  destruct (textBlocks selectorError el) as [|block blocks];
    [reflexivity|].
  destruct (Hb block (or_introl eq_refl)) as [Hne Ht].
  cbn [List.map concat]. unfold withBreak at 1. rewrite <- app_assoc.
  pose proof (trim_block_nonempty block
                ([LF; LF] ++ concat (List.map withBreak blocks)) Hne Ht) as H.
  destruct (Nat.eqb_spec
              (length (trim (block ++ [LF; LF]
                             ++ concat (List.map withBreak blocks)))) 0)
    as [E|E]; [|reflexivity].
  exfalso. apply H. apply length_zero_iff_nil. exact E.
Qed.

Lemma extractTextFromElement_blocks_witness :
  acceptAll textSelector = None /\
  extractTextFromElement acceptAll twoParagraphs
  = Normal match textBlocks acceptAll twoParagraphs with
           | [] => textContent (filteredClone acceptAll twoParagraphs)
           | blocks => concat (List.map withBreak blocks)
           end.
Proof.
  split; [reflexivity|].
  apply (extractTextFromElement_blocks acceptAll twoParagraphs).
  reflexivity.
Defined.

(** ** What a run writes into the document *)

Section DatasetFrame.

Variable unicodeLower : jsstring -> jsstring.
Variable selectorError : jsstring -> option exn.
Variable doc : Document.

Lemma datasetFrame_refl (r : completion (option candidate)) (st : store) :
  datasetFrame r st st.
Proof. intros p _. reflexivity. Qed.

Lemma datasetFrame_tag (el : located) (tag : jsstring) (st : store) :
  datasetFrame (Normal (Some (candidateOf el))) st
               (<[InDocument (path el) := tag]> st).
Proof.
  intros p Hp. cbn [candidateOf ref] in Hp.
  apply lookup_insert_ne. congruence.
Qed.

(** After a strategy that returned nothing, the next one starts from
    unchanged datasets. *)
Lemma datasetFrame_then (r : completion (option candidate))
  (st st1 st' : store) :
  datasetFrame (Normal None) st st1 ->
  datasetFrame r st1 st' ->
  datasetFrame r st st'.
Proof.
  intros H1 H2 p Hp. rewrite (H2 p Hp). apply (H1 p). exact I.
Qed.

Lemma findSemanticContent_frame (st : store) :
  datasetFrame (fst (findSemanticContent selectorError doc st)) st
               (snd (findSemanticContent selectorError doc st)).
Proof.
  unfold findSemanticContent.
  unfold mbind, M_bind, mret, M_ret, lift, setExtractionMethod.
  destruct (querySelector selectorError _ selectors_article) as [[a|]|e];
    [| |apply datasetFrame_refl].
  - destruct (isValidContent selectorError (Some (element a))) as [[|]|e];
      [apply datasetFrame_tag | | apply datasetFrame_refl].
    destruct (querySelector selectorError _ selectors_main) as [[m|]|e];
      [| apply datasetFrame_refl | apply datasetFrame_refl].
    destruct (isValidContent selectorError (Some (element m))) as [[|]|e];
      [apply datasetFrame_tag | apply datasetFrame_refl
       | apply datasetFrame_refl].
  - destruct (querySelector selectorError _ selectors_main) as [[m|]|e];
      [| apply datasetFrame_refl | apply datasetFrame_refl].
    destruct (isValidContent selectorError (Some (element m))) as [[|]|e];
      [apply datasetFrame_tag | apply datasetFrame_refl
       | apply datasetFrame_refl].
Qed.

Lemma findContentByClassFrom_frame (selectors : list jsstring) (st : store) :
  datasetFrame (fst (findContentByClassFrom selectorError doc selectors st))
               st
               (snd (findContentByClassFrom selectorError doc selectors st)).
Proof.
  induction selectors as [|s rest IH]; cbn [findContentByClassFrom].
  - apply datasetFrame_refl.
  - unfold mbind, M_bind, mret, M_ret, lift, setExtractionMethod.
    destruct (querySelector selectorError _ s) as [[el|]|e];
      [| exact IH | apply datasetFrame_refl].
    destruct (isValidContent selectorError (Some (element el))) as [[|]|e];
      [apply datasetFrame_tag | exact IH | apply datasetFrame_refl].
Qed.

Lemma findContentByHeuristics_frame (st : store) :
  datasetFrame
    (fst (findContentByHeuristics unicodeLower selectorError doc st)) st
    (snd (findContentByHeuristics unicodeLower selectorError doc st)).
Proof.
  unfold findContentByHeuristics.
  unfold mbind, M_bind, mret, M_ret, lift, setExtractionMethod.
  destruct (querySelectorAll _ _ _) as [containers|e];
    [|apply datasetFrame_refl].
  destruct (collectCandidates _ _ _ _) as [cands|e];
    [|apply datasetFrame_refl].
  destruct (sortByScore cands) as [|best rest]; [apply datasetFrame_refl|].
  destruct (Qltb 10 (score best));
    [apply datasetFrame_tag | apply datasetFrame_refl].
Qed.

Lemma findContentFromParagraphs_frame (st : store) :
  datasetFrame
    (fst (findContentFromParagraphs unicodeLower selectorError doc st)) st
    (snd (findContentFromParagraphs unicodeLower selectorError doc st)).
Proof.
  unfold findContentFromParagraphs.
  unfold mbind, M_bind, mret, M_ret, lift, setExtractionMethod, createElement.
  destruct (querySelectorAll _ _ _) as [paragraphs|e];
    [|apply datasetFrame_refl].
  destruct (length paragraphs <? 3); [apply datasetFrame_refl|].
  assert (Hdel : forall r, datasetFrame r st (delete Created st)).
  { intros r p _. apply lookup_delete_ne. discriminate. }
  destruct (gatherParagraphs _ _ _ _) as [[kids totalText]|e];
    [|apply Hdel].
  destruct (200 <? length totalText); [|apply Hdel].
  intros p _. cbn [snd]. rewrite lookup_insert_ne by discriminate.
  apply lookup_delete_ne. discriminate.
Qed.

Lemma locateContent_frame (st : store) :
  datasetFrame (fst (locateContent unicodeLower selectorError doc st)) st
               (snd (locateContent unicodeLower selectorError doc st)).
Proof.
  unfold locateContent. unfold mbind, M_bind, mret, M_ret.
  pose proof (findSemanticContent_frame st) as H1.
  destruct (findSemanticContent selectorError doc st) as [[[c|]|e] st1];
    cbn [fst snd] in *; try exact H1.
  pose proof (findContentByClassFrom_frame selectors_content st1) as H2.
  fold (findContentByClass selectorError doc) in H2.
  destruct (findContentByClass selectorError doc st1) as [[[c|]|e] st2];
    cbn [fst snd] in *;
    try exact (datasetFrame_then _ _ _ _ H1 H2).
  pose proof (datasetFrame_then _ _ _ _ H1 H2) as H12.
  pose proof (findContentByHeuristics_frame st2) as H3.
  destruct (findContentByHeuristics unicodeLower selectorError doc st2)
    as [[[c|]|e] st3]; cbn [fst snd] in *;
    try exact (datasetFrame_then _ _ _ _ H12 H3).
  pose proof (datasetFrame_then _ _ _ _ H12 H3) as H123.
  pose proof (findContentFromParagraphs_frame st3) as H4.
  destruct (findContentFromParagraphs unicodeLower selectorError doc st3)
    as [r st4]; cbn [fst snd] in *.
  exact (datasetFrame_then _ _ _ _ H123 H4).
Qed.

(** X12. A run of [extractArticleText] leaves the store as the search for
    a content element left it, so a candidate stays tagged even when its
    text turns out too short; and the search changes the dataset of no
    element of the document other than the candidate it returns. *)
Theorem extractArticleText_dataset_frame (st : store) :
  snd (extractArticleText unicodeLower selectorError doc st)
  = snd (locateContent unicodeLower selectorError doc st)
  /\ datasetFrame (fst (locateContent unicodeLower selectorError doc st)) st
       (snd (extractArticleText unicodeLower selectorError doc st)).
Proof.
  assert (H : snd (extractArticleText unicodeLower selectorError doc st)
              = snd (locateContent unicodeLower selectorError doc st)).
  { unfold extractArticleText, extractArticleTextBody.
    unfold mbind, M_bind, mret, M_ret, lift, getExtractionMethod.
    destruct (locateContent _ _ _ st) as [[[c|]|e] st1]; try reflexivity.
    destruct (extractTextFromElement _ _) as [t|e]; try reflexivity.
    destruct (length (cleanText t) <? 100); reflexivity. }
  split; [exact H|]. rewrite H. apply locateContent_frame.
Qed.

End DatasetFrame.

(** * Properties of the background service *)

Import BiasDetectionService.

(** ** Which pages can be analysed *)

(** X13. [canInjectScript] accepts exactly the URLs that start with
    [http://] or [https://]: its block list never decides anything. *)
Theorem canInjectScript_http_only (url : option jsstring) :
  canInjectScript url
  = match url with
    | Some u => urlStartsWith u (lit "http://")
                || urlStartsWith u (lit "https://")
    | None => false
    end.
Proof.
  destruct url as [[|c u]|]; [reflexivity | | reflexivity].
  unfold canInjectScript, urlStartsWith.
  destruct (N.eqb_spec 104 c) as [<- | Hc].
  - reflexivity.
  - assert (H : forall k s, startsWith (104%N :: k) (c :: s) = false).
    { intros k s. cbn [startsWith].
      destruct (N.eqb_spec 104 c); [contradiction | reflexivity]. }
    change (lit "http://") with (104%N :: lit "ttp://").
    change (lit "https://") with (104%N :: lit "ttps://").
    rewrite !H. destruct (_ || _); reflexivity.
Qed.

(** ** The cache key *)

Lemma toInt32_range (z : Z) : (- 2 ^ 31 <= toInt32 z < 2 ^ 31)%Z.
Proof.
  unfold toInt32. change (2 ^ 31)%Z with 2147483648%Z.
  change (2 ^ 32)%Z with 4294967296%Z. Z.div_mod_to_equations. lia.
Qed.

Lemma hashStep_mod (h h' : Z) (c : N) :
  (h mod 2 ^ 32 = h' mod 2 ^ 32)%Z ->
  (hashStep h c mod 2 ^ 32 = (31 * h' + Z.of_N c) mod 2 ^ 32)%Z.
Proof.
  unfold hashStep, andSelf, shiftLeft, toInt32.
  change (2 ^ 31)%Z with 2147483648%Z. change (2 ^ 32)%Z with 4294967296%Z.
  change (2 ^ 5)%Z with 32%Z. intros H. Z.div_mod_to_equations. lia.
Qed.

Lemma fold_hashStep_mod (text : jsstring) :
  forall h h',
    (h mod 2 ^ 32 = h' mod 2 ^ 32)%Z ->
    (fold_left hashStep text h mod 2 ^ 32
     = fold_left (fun a c => 31 * a + Z.of_N c) text h' mod 2 ^ 32)%Z.
Proof.
  induction text as [|c text IH]; intros h h' H; simpl; [exact H|].
  apply IH. apply hashStep_mod. exact H.
Qed.

Lemma fold_hashStep_range (text : jsstring) :
  forall h, (- 2 ^ 31 <= h < 2 ^ 31)%Z ->
            (- 2 ^ 31 <= fold_left hashStep text h < 2 ^ 31)%Z.
Proof.
  induction text as [|c text IH]; intros h H; simpl; [exact H|].
  apply IH. apply toInt32_range.
Qed.

Lemma toInt32_unique (a b : Z) :
  (- 2 ^ 31 <= a < 2 ^ 31)%Z ->
  (a mod 2 ^ 32 = b mod 2 ^ 32)%Z ->
  a = toInt32 b.
Proof.
  unfold toInt32. change (2 ^ 31)%Z with 2147483648%Z.
  change (2 ^ 32)%Z with 4294967296%Z. intros Ha H.
  Z.div_mod_to_equations. lia.
Qed.

(** X14. The number behind a cache key is the polynomial hash of the
    text's code units in base 31, wrapped to a signed 32-bit integer. *)
Theorem hashOf_polynomial (text : jsstring) :
  hashOf text = toInt32 (polynomialHash text)
  /\ (- 2 ^ 31 <= hashOf text < 2 ^ 31)%Z.
Proof.
  assert (Hr : (- 2 ^ 31 <= hashOf text < 2 ^ 31)%Z).
  { apply fold_hashStep_range. split; [discriminate | reflexivity]. }
  split; [|exact Hr]. apply toInt32_unique; [exact Hr|].
  apply fold_hashStep_mod. reflexivity.
Qed.

(** Two texts with one key: the second would be served the cached
    analysis of the first. *)
Example generateCacheKey_collision :
  generateCacheKey (lit "Aa") = generateCacheKey (lit "BB")
  /\ generateCacheKey (lit "Aa") = lit "2112".
Proof. split; reflexivity. Qed.

Lemma lit_inj (s s' : string) : lit s = lit s' -> s = s'.
Proof.
  unfold lit. intros H.
  apply (f_equal (List.map ascii_of_N)) in H.
  rewrite !List.map_map in H.
  rewrite !(List.map_ext _ (fun a => a) ascii_N_embedding), !List.map_id in H.
  apply (f_equal string_of_list_ascii) in H.
  rewrite !string_of_list_ascii_of_string in H. exact H.
Qed.

Lemma to_int_nonnil (z : Z) :
  Z.to_int z <> Decimal.Pos Decimal.Nil
  /\ Z.to_int z <> Decimal.Neg Decimal.Nil.
Proof.
  destruct z; simpl; split; try discriminate; intros [= H];
    exact (DecimalPos.Unsigned.to_uint_nonnil _ H).
Qed.

(** Two integers with the same decimal notation are equal. *)
Lemma numberToString_inj (a b : Z) :
  numberToString a = numberToString b -> a = b.
Proof.
  unfold numberToString. intros H. apply lit_inj in H.
  apply (f_equal NilZero.int_of_string) in H.
  rewrite !NilZero.isi in H by apply to_int_nonnil.
  injection H as H. exact (DecimalZ.to_int_inj _ _ H).
Qed.

Lemma hashOf_mod (text : jsstring) :
  (hashOf text mod 2 ^ 32 = polynomialHash text mod 2 ^ 32)%Z.
Proof. apply fold_hashStep_mod. reflexivity. Qed.

Lemma hashOf_range (text : jsstring) : (- 2 ^ 31 <= hashOf text < 2 ^ 31)%Z.
Proof. apply fold_hashStep_range. split; [discriminate | reflexivity]. Qed.

(** X21. Two texts get the same cache key exactly when their polynomial
    hashes in base 31 agree modulo 2^32: the key identifies the text no
    further than that. *)
Theorem generateCacheKey_eq_iff (t1 t2 : jsstring) :
  generateCacheKey t1 = generateCacheKey t2
  <-> (polynomialHash t1 mod 2 ^ 32 = polynomialHash t2 mod 2 ^ 32)%Z.
Proof.
  unfold generateCacheKey. split.
  - intros H. apply numberToString_inj in H.
    rewrite <- !hashOf_mod, H. reflexivity.
  - intros H. f_equal.
    rewrite (toInt32_unique (hashOf t1) (polynomialHash t2)).
    + symmetry. apply toInt32_unique; [apply hashOf_range | apply hashOf_mod].
    + apply hashOf_range.
    + rewrite hashOf_mod. exact H.
Qed.

(** ** The cache *)

Section CacheProperties.

Variable R : Type.

Implicit Types (c : cache R) (key : jsstring) (v : cacheEntry R).

Lemma mapSet_present key v c :
  In key (keys c) ->
  keys (mapSet key v c) = keys c /\ length (mapSet key v c) = length c.
Proof.
  induction c as [|[k w] c IH]; simpl; [tauto|].
  destruct (bool_decide_reflect (k = key)) as [-> | Hk]; simpl; [auto|].
  intros [Heq | Hin]; [contradiction|].
  destruct (IH Hin) as [-> ->]. auto.
Qed.

Lemma mapSet_absent key v c :
  ~ In key (keys c) -> mapSet key v c = c ++ [(key, v)].
Proof.
  induction c as [|[k w] c IH]; simpl; [reflexivity|].
  intros Hn. destruct (bool_decide_reflect (k = key)) as [-> | Hk];
    [tauto|]. rewrite IH by tauto. reflexivity.
Qed.

Lemma mapGet_mapSet key v c : mapGet key (mapSet key v c) = Some v.
Proof.
  induction c as [|[k w] c IH]; simpl.
  - rewrite bool_decide_eq_true_2; reflexivity.
  - destruct (bool_decide_reflect (k = key)) as [-> | Hk]; simpl.
    + rewrite bool_decide_eq_true_2; reflexivity.
    + rewrite bool_decide_eq_false_2 by exact Hk. exact IH.
Qed.

Lemma mapGet_mapSet_other key key' v c :
  key' <> key -> mapGet key' (mapSet key v c) = mapGet key' c.
Proof.
  intros Hne. induction c as [|[k w] c IH]; simpl.
  - rewrite bool_decide_eq_false_2 by congruence. reflexivity.
  - destruct (bool_decide_reflect (k = key)) as [-> | Hk]; simpl.
    + rewrite bool_decide_eq_false_2 by congruence. reflexivity.
    + rewrite IH. reflexivity.
Qed.

Lemma mapGet_absent key c : ~ In key (keys c) -> mapGet key c = None.
Proof.
  induction c as [|[k w] c IH]; simpl; [reflexivity|].
  intros Hn. rewrite bool_decide_eq_false_2 by tauto. apply IH. tauto.
Qed.

Lemma mapGet_app_absent key c c' :
  ~ In key (keys c) -> mapGet key (c ++ c') = mapGet key c'.
Proof.
  induction c as [|[k w] c IH]; simpl; [reflexivity|].
  intros Hn. rewrite bool_decide_eq_false_2 by tauto. apply IH. tauto.
Qed.

Lemma mapGet_app_present key c c' :
  In key (keys c) -> mapGet key (c ++ c') = mapGet key c.
Proof.
  induction c as [|[k w] c IH]; simpl; [tauto|].
  destruct (bool_decide_reflect (k = key)); [reflexivity|].
  intros [Heq | Hin]; [contradiction | exact (IH Hin)].
Qed.

(** The eviction drops the first entry. *)
Lemma saveToCache_eq key (r : R) (now : Z) c :
  saveToCache key r now c
  = let c1 := mapSet key {| result := r; timestamp := now |} c in
    if 100 <? length c1 then tail c1 else c1.
Proof.
  unfold saveToCache. cbn zeta.
  destruct (100 <? length _); [|reflexivity].
  destruct (mapSet _ _ _) as [|[k w] c1]; [reflexivity|].
  simpl. rewrite bool_decide_eq_true_2; reflexivity.
Qed.

Lemma saveToCache_present key (r : R) (now : Z) c :
  length c <= 100 -> In key (keys c) ->
  saveToCache key r now c = mapSet key {| result := r; timestamp := now |} c.
Proof.
  intros Hlen Hin. rewrite saveToCache_eq. cbn zeta.
  rewrite (proj2 (mapSet_present key _ c Hin)).
  destruct (Nat.ltb_spec 100 (length c)); [lia | reflexivity].
Qed.

Lemma saveToCache_new key (r : R) (now : Z) c :
  ~ In key (keys c) -> length c < 100 ->
  saveToCache key r now c = c ++ [(key, {| result := r; timestamp := now |})].
Proof.
  intros Hn Hl. rewrite saveToCache_eq. cbn zeta.
  rewrite (mapSet_absent _ _ _ Hn), length_app. simpl.
  destruct (Nat.ltb_spec 100 (length c + 1)); [lia | reflexivity].
Qed.

Lemma saveToCache_full key (r : R) (now : Z) c :
  ~ In key (keys c) -> length c = 100 ->
  saveToCache key r now c
  = tail c ++ [(key, {| result := r; timestamp := now |})].
Proof.
  intros Hn Hl. rewrite saveToCache_eq. cbn zeta.
  rewrite (mapSet_absent _ _ _ Hn), length_app. simpl.
  destruct (Nat.ltb_spec 100 (length c + 1)); [|lia].
  destruct c; [discriminate | reflexivity].
Qed.

(** X15. How [saveToCache] changes the cache: a key already present has
    its entry replaced where it stands, so re-saving does not renew its
    place in the order of eviction; a new key is appended; and when the
    cache already holds 100 entries the first entry in insertion order is
    dropped to make room. *)
Theorem saveToCache_shape key (r : R) (now : Z) c :
  length c <= 100 ->
  (In key (keys c) ->
   saveToCache key r now c = mapSet key {| result := r; timestamp := now |} c
   /\ keys (saveToCache key r now c) = keys c)
  /\ (~ In key (keys c) -> length c < 100 ->
      saveToCache key r now c
      = c ++ [(key, {| result := r; timestamp := now |})])
  /\ (~ In key (keys c) -> length c = 100 ->
      saveToCache key r now c
      = tail c ++ [(key, {| result := r; timestamp := now |})]).
Proof.
  intros Hlen. split; [|split].
  - intros Hin. rewrite (saveToCache_present key r now c Hlen Hin).
    split; [reflexivity|]. apply mapSet_present. exact Hin.
  - apply saveToCache_new.
  - apply saveToCache_full.
Qed.

(** X16. [saveToCache] keeps the cache well formed: the keys stay
    distinct and there are never more than 100 entries. *)
Theorem saveToCache_wellFormed key (r : R) (now : Z) c :
  wellFormed c -> wellFormed (saveToCache key r now c).
Proof.
  intros [Hnd Hlen]. unfold wellFormed.
  pose proof (saveToCache_new key r now c) as Ha.
  pose proof (saveToCache_full key r now c) as Hf.
  destruct (List.in_dec (List.list_eq_dec N.eq_dec) key (keys c)) as [Hin | Hn].
  - rewrite (saveToCache_present key r now c Hlen Hin).
    destruct (mapSet_present key {| result := r; timestamp := now |} c Hin)
      as [-> ->].
    split; [exact Hnd | exact Hlen].
  - assert (Hnd' : NoDup (keys (c ++ [(key, {| result := r;
                                               timestamp := now |})]))).
    { unfold keys. rewrite List.map_app. simpl.
      apply NoDup_app. repeat split; [exact Hnd | | apply NoDup_singleton].
      intros k Hk Hk'. apply list_elem_of_In in Hk.
      apply list_elem_of_In in Hk'. destruct Hk' as [<- | []]. tauto. }
    destruct (Nat.eq_dec (length c) 100) as [H100 | H100].
    + rewrite (Hf Hn H100). destruct c as [|e c]; [discriminate|].
      simpl in *. split.
      * inversion Hnd'. assumption.
      * rewrite length_app. simpl. lia.
    + rewrite (Ha Hn) by lia. split; [exact Hnd'|].
      rewrite length_app. simpl. lia.
Qed.


End CacheProperties.

Lemma oneEntryCache_wellFormed : wellFormed oneEntryCache.
Proof. split; [apply NoDup_singleton | simpl; lia]. Qed.

Lemma saveToCache_shape_witness :
  length oneEntryCache <= 100 /\
  ((In (lit "7") (keys oneEntryCache) ->
    saveToCache (lit "7") 9 5 oneEntryCache
    = mapSet (lit "7") {| result := 9; timestamp := 5 |} oneEntryCache
    /\ keys (saveToCache (lit "7") 9 5 oneEntryCache) = keys oneEntryCache)
   /\ (~ In (lit "7") (keys oneEntryCache) -> length oneEntryCache < 100 ->
       saveToCache (lit "7") 9 5 oneEntryCache
       = oneEntryCache ++ [(lit "7", {| result := 9; timestamp := 5 |})])
   /\ (~ In (lit "7") (keys oneEntryCache) -> length oneEntryCache = 100 ->
       saveToCache (lit "7") 9 5 oneEntryCache
       = tail oneEntryCache
         ++ [(lit "7", {| result := 9; timestamp := 5 |})])).
Proof.
  split; [simpl; lia|].
  apply (saveToCache_shape nat (lit "7") 9 5 oneEntryCache). simpl. lia.
Defined.

Lemma saveToCache_wellFormed_witness :
  wellFormed oneEntryCache /\
  wellFormed (saveToCache (lit "7") 9 5 oneEntryCache).
Proof.
  split; [exact oneEntryCache_wellFormed|].
  apply (saveToCache_wellFormed nat (lit "7") 9 5 oneEntryCache).
  exact oneEntryCache_wellFormed.
Defined.


(** * The text of a result *)

(** X18. The text of every result of [extractArticleText] is already
    clean: cleaning it again changes nothing, and it holds no line
    feed. *)
Theorem extractArticleText_text_clean
  (unicodeLower : jsstring -> jsstring)
  (selectorError : jsstring -> option exn) (doc : Document) (st : store) :
  let r := fst (extractArticleText unicodeLower selectorError doc st) in
  cleanText (text r) = text r /\ ~ In LF (text r).
Proof.
  intros r. subst r.
  destruct (extractArticleText_shape unicodeLower selectorError doc st)
    as [(_ & Ht & _) | (t & Ht & _)]; rewrite Ht.
  - split; [reflexivity | intros []].
  - split; [|apply cleanText_no_LF].
    apply cleanText_fixed; [apply cleanText_collapsed|].
    apply cleanText_trimmed.
Qed.

(** * From the page to the result *)

(** ** A valid article *)

Section ValidArticle.

Variable unicodeLower : jsstring -> jsstring.
Variable selectorError : jsstring -> option exn.
Variable doc : Document.

Lemma locateContent_valid_article (a : located) (st : store) :
  querySelector selectorError (documentElements doc) selectors_article
  = Normal (Some a) ->
  isValidContent selectorError (Some (element a)) = Normal true ->
  locateContent unicodeLower selectorError doc st
  = (Normal (Some (candidateOf a)),
     <[InDocument (path a) := tagSemanticArticle]> st).
Proof.
  intros Hq Hv. unfold locateContent, findSemanticContent.
  unfold mbind at 1 2 3, M_bind at 1 2 3. unfold mbind at 1, M_bind at 1.
  unfold lift at 1. rewrite Hq.
  unfold mbind at 1, M_bind at 1, lift at 1. rewrite Hv. reflexivity.
Qed.

(** X19. When the first [<article>] of the document is valid content, the
    run tags it [semantic-article] and tries no other strategy; the
    result carries the cleaned text taken from that article and succeeds
    exactly when this text has at least 100 code units, reporting
    [semantic-article]; a shorter text is returned with the too-short
    message, and a fault of the text extraction with the failure
    message. *)
Theorem valid_article_outcome (a : located) (st : store) :
  querySelector selectorError (documentElements doc) selectors_article
  = Normal (Some a) ->
  isValidContent selectorError (Some (element a)) = Normal true ->
  let r := fst (extractArticleText unicodeLower selectorError doc st) in
  snd (extractArticleText unicodeLower selectorError doc st)
  = <[InDocument (path a) := tagSemanticArticle]> st
  /\ (forall t,
        extractTextFromElement selectorError (element a) = Normal t ->
        text r = cleanText t
        /\ success r = negb (length (cleanText t) <? 100)
        /\ (success r = true ->
            extractionMethod r = Some tagSemanticArticle)
        /\ (success r = false -> error r = Some msgTooShort))
  /\ (forall e,
        extractTextFromElement selectorError (element a) = Throw e ->
        success r = false /\ text r = []
        /\ error r = Some (msgFailedPrefix ++ message e)).
Proof.
  intros Hq Hv r. subst r.
  unfold extractArticleText, extractArticleTextBody.
  unfold mbind, M_bind, mret, M_ret, lift, getExtractionMethod.
  rewrite (locateContent_valid_article a st Hq Hv).
  cbn [content ref candidateOf].
  destruct (extractTextFromElement selectorError (element a)) as [t|e].
  - destruct (length (cleanText t) <? 100) eqn:E;
      cbn [fst snd success text error extractionMethod].
    + split; [reflexivity|]. split; [|intros e [=]].
      intros t' [= <-]. rewrite E.
      split; [reflexivity|]. split; [reflexivity|].
      split; [discriminate | reflexivity].
    + split; [reflexivity|]. split; [|intros e [=]].
      intros t' [= <-]. rewrite E.
      split; [reflexivity|]. split; [reflexivity|].
      split; [|discriminate].
      intros _. rewrite lookup_insert_eq. reflexivity.
  - cbn [fst snd success text error]. split; [reflexivity|].
    split; [intros t [=]|]. intros e' [= <-].
    split; [reflexivity|]. split; reflexivity.
Qed.

End ValidArticle.

Lemma valid_article_outcome_witness :
  querySelector acceptAll (documentElements captionedPage) selectors_article
  = Normal (Some captionedLocated)
  /\ isValidContent acceptAll (Some (element captionedLocated)) = Normal true
  /\ (let r := fst (extractArticleText id acceptAll captionedPage ∅) in
      snd (extractArticleText id acceptAll captionedPage ∅)
      = <[InDocument (path captionedLocated) := tagSemanticArticle]> ∅
      /\ (forall t,
            extractTextFromElement acceptAll (element captionedLocated)
            = Normal t ->
            text r = cleanText t
            /\ success r = negb (length (cleanText t) <? 100)
            /\ (success r = true ->
                extractionMethod r = Some tagSemanticArticle)
            /\ (success r = false -> error r = Some msgTooShort))
      /\ (forall e,
            extractTextFromElement acceptAll (element captionedLocated)
            = Throw e ->
            success r = false /\ text r = []
            /\ error r = Some (msgFailedPrefix ++ message e))).
Proof.
  split; [reflexivity|]. split; [reflexivity|].
  apply (valid_article_outcome id acceptAll captionedPage captionedLocated ∅);
    reflexivity.
Defined.

(** A valid article is not enough for a success: the text outside its
    paragraphs and headings is not extracted. *)
Example valid_article_too_short :
  isValidContent acceptAll (Some captionedArticle) = Normal true
  /\ success (fst (extractArticleText id acceptAll captionedPage ∅)) = false
  /\ text (fst (extractArticleText id acceptAll captionedPage ∅))
     = lit "Photo: agency Updated today"
  /\ error (fst (extractArticleText id acceptAll captionedPage ∅))
     = Some msgTooShort.
Proof. repeat split; reflexivity. Qed.

(** ** A page without markers *)

Lemma hasMarker_no_match (l : located) (sel : jsstring) :
  hasMarker l = false ->
  In sel (selectors_article :: selectors_main :: containerSelector
          :: selectors_content) ->
  elementMatches (parseSelector sel) l = false.
Proof.
  intros Hm Hsel. apply orb_false_iff in Hm as [Hn Hc].
  apply bool_decide_eq_false in Hn.
  assert (Hc' : forall cls,
            In cls (classList (attributes (element l))) ->
            bool_decide (DOT :: cls ∈ selectors_content) = false).
  { intros cls Hin. destruct (bool_decide _) eqn:E; [|reflexivity].
    rewrite <- Hc. symmetry. apply existsb_exists. eauto. }
  unfold selectors_content in Hsel. cbn [In] in Hsel.
  unfold elementMatches, matchesSelector.
  repeat destruct Hsel as [<- | Hsel]; try contradiction.
  all: match goal with
       | |- existsb _ (parseSelector ?s) = false =>
           let p := eval vm_compute in (parseSelector s) in
           change (parseSelector s) with p
       end.
  all: cbn [existsb matchesSimple toNode].
  all: repeat rewrite bool_decide_eq_false_2 by
         (let E := fresh "E" in
          intros E;
          first [ apply Hn; rewrite E; apply (bool_decide_unpack _);
                  vm_compute; exact I
                | apply list_elem_of_In in E; apply Hc' in E;
                  vm_compute in E; discriminate ]).
  all: reflexivity.
Qed.

Section WithoutMarkers.

Variable selectorError : jsstring -> option exn.
Variable doc : Document.

Hypothesis accepted_selectors :
  forall sel, In sel locatorSelectors -> selectorError sel = None.
Hypothesis no_markers : withoutMarkers doc = true.

Lemma query_marker_none (sel : jsstring) :
  In sel (selectors_article :: selectors_main :: containerSelector
          :: selectors_content) ->
  querySelectorAll selectorError (documentElements doc) sel = Normal [].
Proof.
  intros Hsel. unfold querySelectorAll.
  rewrite accepted_selectors
    by (unfold locatorSelectors; cbn [In] in *; tauto).
  f_equal. unfold withoutMarkers in no_markers.
  rewrite forallb_forall in no_markers.
  induction (documentElements doc) as [|l ls IH]; [reflexivity|].
  simpl. rewrite hasMarker_no_match.
  - apply IH. intros x Hx. apply no_markers. right. exact Hx.
  - apply negb_true_iff. apply no_markers. left. reflexivity.
  - exact Hsel.
Qed.

Lemma findSemanticContent_none (st : store) :
  findSemanticContent selectorError doc st = (Normal None, st).
Proof.
  unfold findSemanticContent, querySelector.
  rewrite !query_marker_none by (cbn [In]; tauto). reflexivity.
Qed.

Lemma findContentByClassFrom_none (selectors : list jsstring) (st : store) :
  (forall sel, In sel selectors -> In sel selectors_content) ->
  findContentByClassFrom selectorError doc selectors st = (Normal None, st).
Proof.
  induction selectors as [|sel rest IH]; intros Hsub; [reflexivity|].
  cbn [findContentByClassFrom].
  unfold mbind, M_bind, lift, querySelector.
  rewrite query_marker_none
    by (right; right; right; apply Hsub; left; reflexivity).
  cbn. apply IH. intros s Hs. apply Hsub. right. exact Hs.
Qed.

Lemma findContentByHeuristics_none (unicodeLower : jsstring -> jsstring)
  (st : store) :
  findContentByHeuristics unicodeLower selectorError doc st
  = (Normal None, st).
Proof.
  unfold findContentByHeuristics.
  rewrite query_marker_none by (cbn [In]; tauto). reflexivity.
Qed.

End WithoutMarkers.

(** X20. On a host that accepts the selectors of the search, a document
    without [<div>], [<section>], [<article>] and [<main>] elements,
    without any of the ten class names of the class-based strategy, and
    with fewer than three paragraphs has no content: the result is the
    failure with the no-content message, an empty text and a word count
    of 0, and no dataset is written. *)
Theorem page_without_markers_no_content
  (unicodeLower : jsstring -> jsstring)
  (selectorError : jsstring -> option exn) (doc : Document) (st : store) :
  (forall sel, In sel locatorSelectors -> selectorError sel = None) ->
  withoutMarkers doc = true ->
  documentParagraphCount doc < 3 ->
  extractArticleText unicodeLower selectorError doc st
  = ({| success := false;
        error := Some msgNoContent;
        text := [];
        wordCount := 0;
        url := href doc;
        resultTitle := title doc;
        extractionMethod := None |}, st).
Proof.
  intros Ha Hm Hp.
  assert (Hl : findContentFromParagraphs unicodeLower selectorError doc st
               = (Normal None, st)).
  { unfold findContentFromParagraphs, querySelectorAll.
    rewrite Ha by (unfold locatorSelectors; cbn [In]; tauto).
    unfold mbind, M_bind, lift. fold (documentParagraphCount doc).
    destruct (Nat.ltb_spec (documentParagraphCount doc) 3);
      [reflexivity | lia]. }
  unfold extractArticleText, extractArticleTextBody, locateContent.
  unfold mbind, M_bind, findContentByClass.
  rewrite (findSemanticContent_none selectorError doc Ha Hm).
  rewrite (findContentByClassFrom_none selectorError doc Ha Hm) by auto.
  rewrite (findContentByHeuristics_none selectorError doc Ha Hm).
  rewrite Hl. reflexivity.
Qed.

Lemma page_without_markers_no_content_witness :
  (forall sel, In sel locatorSelectors -> acceptAll sel = None)
  /\ withoutMarkers menuPage = true
  /\ documentParagraphCount menuPage < 3
  /\ extractArticleText id acceptAll menuPage ∅
     = ({| success := false;
           error := Some msgNoContent;
           text := [];
           wordCount := 0;
           url := href menuPage;
           resultTitle := title menuPage;
           extractionMethod := None |}, ∅).
Proof.
  assert (Ha : forall sel, In sel locatorSelectors -> acceptAll sel = None)
    by reflexivity.
  assert (Hp : documentParagraphCount menuPage < 3) by (vm_compute; lia).
  split; [exact Ha|]. split; [reflexivity|]. split; [exact Hp|].
  exact (page_without_markers_no_content id acceptAll menuPage ∅
           Ha eq_refl Hp).
Defined.

(** * The word count of a result *)

Lemma nonEmpty_rev (s : jsstring) : nonEmpty (rev s) = nonEmpty s.
Proof.
  destruct s as [|c s]; [reflexivity|]. simpl.
  destruct (rev s ++ [c]) eqn:E; [|reflexivity].
  apply app_eq_nil in E as [_ E]. discriminate.
Qed.

Lemma splitWsFrom_tokens (s : jsstring) :
  forall b cur, (b = true -> cur = []) ->
    length (List.filter nonEmpty (splitWsFrom b cur s))
    = (if nonEmpty cur then 1 else 0) + countTokens (negb (nonEmpty cur)) s.
Proof.
  induction s as [|c s IH]; intros b cur Hb.
  - simpl. rewrite nonEmpty_rev. destruct (nonEmpty cur); reflexivity.
  - cbn [splitWsFrom countTokens]. destruct (isWhiteSpace c).
    + destruct b.
      * rewrite (Hb eq_refl). rewrite (IH true []) by reflexivity.
        reflexivity.
      * cbn [List.filter]. rewrite nonEmpty_rev.
        destruct (nonEmpty cur); cbn [length];
          rewrite (IH true []) by reflexivity; reflexivity.
    + rewrite (IH false (c :: cur)) by discriminate.
      destruct cur; reflexivity.
Qed.

(** [countWords] counts the tokens. *)
Lemma countWords_tokenCount (s : jsstring) : countWords s = tokenCount s.
Proof.
  rewrite countWords_words. unfold words, splitWhitespace, tokenCount.
  rewrite splitWsFrom_tokens by discriminate. reflexivity.
Qed.

(** C10. In every result of [extractArticleText] the word count is the
    number of tokens that white space delimits in the result's own text,
    which is what [countWords] returns for that text. *)
Theorem extractArticleText_wordCount_of_text
  (unicodeLower : jsstring -> jsstring)
  (selectorError : jsstring -> option exn) (doc : Document) (st : store) :
  let r := fst (extractArticleText unicodeLower selectorError doc st) in
  wordCount r = tokenCount (text r)
  /\ wordCount r = countWords (text r).
Proof.
  intros r. subst r.
  assert (H : wordCount
                (fst (extractArticleText unicodeLower selectorError doc st))
              = countWords
                  (text (fst (extractArticleText unicodeLower selectorError
                                doc st)))).
  { destruct (extractArticleText_shape unicodeLower selectorError doc st)
      as [(_ & Ht & Hw & _) | (t & Ht & Hw & _)];
      rewrite Ht, Hw; reflexivity. }
  split; [|exact H]. rewrite H. apply countWords_tokenCount.
Qed.

(** Three tokens between white space of several kinds. *)
Example tokenCount_demo :
  tokenCount (lit "  one two" ++ [LF; LF] ++ lit "three ") = 3.
Proof. reflexivity. Qed.

(** * The end-to-end example: an article with a heading and two
    paragraphs *)

(** ** Clean blocks of text *)

(** The parts of a clean, non-empty text. *)
Lemma clean_text_parts (p : jsstring) :
  cleanText p = p -> p <> [] ->
  isCollapsed false p = true
  /\ trim p = p
  /\ (exists c r, p = c :: r /\ isWhiteSpace c = false)
  /\ (exists r d, p = r ++ [d] /\ isWhiteSpace d = false).
Proof.
  intros Hc Hne.
  assert (Ht : trim p = p) by (rewrite <- Hc; apply cleanText_trimmed).
  split; [rewrite <- Hc; apply cleanText_collapsed|].
  split; [exact Ht|]. split.
  - destruct p as [|c r]; [contradiction|]. exists c, r.
    split; [reflexivity|]. exact (trim_head _ _ _ Ht).
  - destruct (exists_last Hne) as (r & d & ->). exists r, d.
    split; [reflexivity|].
    pose proof (trim_ends_outside (r ++ [d])) as He. rewrite Ht in He.
    exact (He r d eq_refl).
Qed.

Lemma collapseWsFrom_block (rest : jsstring) (p : jsstring) :
  forall b,
    isCollapsed b p = true -> endsOutsideWhiteSpace p ->
    (p = [] -> b = false) ->
    collapseWsFrom b (p ++ LF :: rest)
    = p ++ SPACE :: collapseWsFrom true rest.
Proof.
  induction p as [|c p IH]; intros b Hc He Hb.
  - rewrite (Hb eq_refl). reflexivity.
  - assert (He' : endsOutsideWhiteSpace p).
    { intros r d ->. apply (He (c :: r) d). reflexivity. }
    cbn [app collapseWsFrom]. cbn [isCollapsed] in Hc.
    destruct (isWhiteSpace c) eqn:E.
    + apply andb_true_iff in Hc as [Hc Hp].
      apply andb_true_iff in Hc as [Hs Hn].
      apply N.eqb_eq in Hs. apply negb_true_iff in Hn. subst b c.
      f_equal. apply IH; [exact Hp | exact He' |].
      intros ->. specialize (He [] SPACE eq_refl). discriminate.
    + f_equal. apply IH; [exact Hc | exact He' | reflexivity].
Qed.

(** A clean block followed by a paragraph break: the break becomes one
    space. *)
Lemma collapseWsFrom_clean_block (p rest : jsstring) (b : bool) :
  cleanText p = p -> p <> [] ->
  collapseWsFrom b (p ++ LF :: LF :: rest)
  = p ++ SPACE :: collapseWsFrom true rest.
Proof.
  intros Hc Hne.
  destruct (clean_text_parts p Hc Hne) as (Hcol & Ht & (c & r & -> & Hh) & _).
  assert (He : endsOutsideWhiteSpace (c :: r)).
  { pose proof (trim_ends_outside (c :: r)) as He. rewrite Ht in He.
    exact He. }
  assert (Hb : collapseWsFrom b ((c :: r) ++ LF :: LF :: rest)
               = collapseWsFrom false ((c :: r) ++ LF :: LF :: rest)).
  { cbn [app collapseWsFrom]. rewrite Hh. reflexivity. }
  rewrite Hb, (collapseWsFrom_block (LF :: rest) (c :: r) false Hcol He)
    by discriminate.
  reflexivity.
Qed.

(** A text that neither starts nor ends with white space is trimmed, and
    a space after it is trimmed away. *)
Lemma trim_between (c d : N) (m : jsstring) :
  isWhiteSpace c = false -> isWhiteSpace d = false ->
  trim (c :: m ++ [d]) = c :: m ++ [d]
  /\ trim (c :: m ++ [d; SPACE]) = c :: m ++ [d].
Proof.
  intros Hc Hd. unfold trim. rewrite !trimStart_fixed by exact Hc.
  unfold trimEnd. split.
  - change (c :: m ++ [d]) with ((c :: m) ++ [d]).
    rewrite rev_app_distr. cbn [rev app].
    rewrite trimStart_fixed by exact Hd.
    change (d :: rev m ++ [c]) with ([d] ++ rev (c :: m)).
    rewrite rev_app_distr, List.rev_involutive. reflexivity.
  - change (c :: m ++ [d; SPACE]) with ((c :: m) ++ [d; SPACE]).
    rewrite rev_app_distr. cbn [rev app].
    assert (Hs : forall s, trimStart (SPACE :: s) = trimStart s)
      by reflexivity.
    rewrite Hs, trimStart_fixed by exact Hd.
    change (d :: rev m ++ [c]) with ([d] ++ rev (c :: m)).
    rewrite rev_app_distr, List.rev_involutive. reflexivity.
Qed.

(** Three clean blocks, each followed by a paragraph break, clean to the
    blocks joined by single spaces. *)
Lemma cleanText_three_blocks (a b c : jsstring) :
  cleanText a = a -> a <> [] ->
  cleanText b = b -> b <> [] ->
  cleanText c = c -> c <> [] ->
  cleanText (a ++ [LF; LF] ++ b ++ [LF; LF] ++ c ++ [LF; LF])
  = a ++ SPACE :: b ++ SPACE :: c.
Proof.
  intros Ha Hna Hb Hnb Hc Hnc. rewrite cleanText_eq.
  unfold collapseWhitespace. cbn [app].
  rewrite (collapseWsFrom_clean_block a _ false Ha Hna).
  rewrite (collapseWsFrom_clean_block b _ true Hb Hnb).
  rewrite (collapseWsFrom_clean_block c _ true Hc Hnc).
  cbn [collapseWsFrom].
  destruct (clean_text_parts a Ha Hna) as (_ & _ & (x & r & -> & Hx) & _).
  destruct (clean_text_parts c Hc Hnc) as (_ & _ & _ & (r' & d & -> & Hd)).
  pose proof (trim_between x d (r ++ SPACE :: b ++ SPACE :: r') Hx Hd)
    as [_ H].
  repeat (rewrite <- ?app_assoc in *; cbn [app] in * ). exact H.
Qed.

(** ** The page with the example article *)

Section ArticleExample.

Variable unicodeLower : jsstring -> jsstring.
Variable width : Q.
Variable rect : option DOMRect.
Variables p1 p2 : jsstring.

Hypothesis p1_short : length p1 <= 97.
Hypothesis p2_short : length p2 <= 97.

#[local] Abbreviation doc := (articlePage width rect p1 p2).
#[local] Abbreviation article := (exampleArticle rect p1 p2).
#[local] Abbreviation articleAt := (articleLocated rect p1 p2).
#[local] Abbreviation score0 := (exampleScore rect p1 p2).

Lemma example_textLength : textLength article <= 199.
Proof.
  unfold textLength. etransitivity; [apply trim_length|].
  change (textContent article)
    with ((lit "Title" ++ []) ++ (p1 ++ []) ++ (p2 ++ []) ++ []).
  rewrite !length_app. simpl. lia.
Qed.

Lemma sentenceLike_nonempty (p : jsstring) : sentenceLike p -> p <> [].
Proof. intros [_ H] E. rewrite E in H. simpl in H. lia. Qed.

Lemma example_textLength_sentences :
  sentenceLike p1 -> sentenceLike p2 ->
  textLength article = 5 + length p1 + length p2.
Proof.
  intros H1 H2. unfold textLength.
  change (textContent article)
    with ((lit "Title" ++ []) ++ (p1 ++ []) ++ (p2 ++ []) ++ []).
  rewrite !app_nil_r.
  destruct (clean_text_parts p2 (proj1 H2) (sentenceLike_nonempty p2 H2))
    as (_ & _ & _ & (r & d & E & Hd)).
  assert (Ht : trim (lit "Title" ++ p1 ++ p2) = lit "Title" ++ p1 ++ p2).
  { rewrite E.
    pose proof (trim_between 84 d (lit "itle" ++ p1 ++ r) eq_refl Hd)
      as [H _].
    repeat (rewrite <- ?app_assoc in *; cbn [app] in * ). exact H. }
  rewrite Ht, !length_app. reflexivity.
Qed.

(** The article is not valid content: its text does not exceed 200. *)
Lemma example_not_valid :
  isValidContent acceptAll (Some article) = Normal false.
Proof.
  unfold isValidContent.
  replace (querySelectorAll acceptAll (descendantElements article) (lit "p"))
    with (Normal (List.filter (elementMatches (parseSelector (lit "p")))
                              (descendantElements article)))
    by reflexivity.
  unfold mbind, completion_bind.
  pose proof example_textLength as H. unfold textLength in H.
  destruct (Nat.ltb_spec 200 (length (trim (textContent article))));
    [lia | reflexivity].
Qed.

Lemma example_semantic (st : store) :
  findSemanticContent acceptAll doc st = (Normal None, st).
Proof.
  unfold findSemanticContent.
  replace (querySelector acceptAll (documentElements doc) selectors_article)
    with (Normal (Some articleAt)) by reflexivity.
  replace (querySelector acceptAll (documentElements doc) selectors_main)
    with (@Normal (option located) None) by reflexivity.
  unfold mbind, M_bind, lift. cbn [element articleLocated].
  rewrite example_not_valid. reflexivity.
Qed.

Lemma exampleScore_eq :
  score0 = scoreBeforeGeometry 2 (textLength article) [] [].
Proof.
  unfold exampleScore, scoreBeforeGeometry.
  change (hasContentHint []) with false.
  change (hasNavigationHint []) with false.
  cbv beta iota zeta. reflexivity.
Qed.

Lemma example_score :
  calculateContentScore unicodeLower acceptAll doc article
  = Normal (centerBonus doc article score0).
Proof.
  rewrite calculateContentScore_eq, exampleScore_eq. cbn [acceptAll].
  replace (paragraphCount article) with 2 by reflexivity.
  change (toLowerCase unicodeLower (classAttr (attributes article)))
    with ([] : jsstring).
  change (toLowerCase unicodeLower (idAttr (attributes article)))
    with ([] : jsstring).
  change (ns (attributes article)) with HTML. cbv beta iota.
  reflexivity.
Qed.

(** The score before the geometry check lies between those of no text
    and of 199 code units of text, 4 and the double 5.99; with two
    sentences it is at least that of 101 code units, the double 5.01. *)
Lemma exampleScore_bounds :
  (scoreBeforeGeometry 2 0 [] [] <= score0
   /\ score0 <= scoreBeforeGeometry 2 199 [] [])%Q.
Proof.
  rewrite exampleScore_eq. pose proof example_textLength.
  split; apply scoreBeforeGeometry_mono; lia.
Qed.

Lemma exampleScore_sentences :
  sentenceLike p1 -> sentenceLike p2 ->
  (scoreBeforeGeometry 2 101 [] [] <= score0)%Q.
Proof.
  intros H1 H2.
  rewrite exampleScore_eq, (example_textLength_sentences H1 H2).
  destruct H1 as [_ H1], H2 as [_ H2].
  apply scoreBeforeGeometry_mono; lia.
Qed.

Lemma centerBonus_positive : (0 < centerBonus doc article score0)%Q.
Proof.
  destruct exampleScore_bounds as [Hlo _].
  assert (H0 : (0 < scoreBeforeGeometry 2 0 [] [])%Q)
    by (vm_compute; reflexivity).
  destruct (centredWithin_dec doc (widthShare doc) article) as [Hc | Hc].
  - rewrite (centerBonus_centred doc article score0 Hc).
    assert (H : (0 < fl (scoreBeforeGeometry 2 0 [] [] + 5))%Q)
      by (vm_compute; reflexivity).
    eapply Qlt_le_trans; [exact H|]. apply fl_le. lra.
  - rewrite (centerBonus_not_centred doc article score0 Hc). lra.
Qed.

Lemma example_centred :
  sentenceLike p1 -> sentenceLike p2 ->
  centredWithin (widthShare doc) doc article ->
  (10 < centerBonus doc article score0)%Q.
Proof.
  intros H1 H2 Hc. rewrite (centerBonus_centred doc article score0 Hc).
  pose proof (exampleScore_sentences H1 H2) as Hlo.
  assert (H : (10 < fl (scoreBeforeGeometry 2 101 [] [] + 5))%Q)
    by (vm_compute; reflexivity).
  eapply Qlt_le_trans; [exact H|]. apply fl_le. lra.
Qed.

Lemma example_not_centred :
  ~ centredWithin (widthShare doc) doc article ->
  (centerBonus doc article score0 <= 10)%Q.
Proof.
  intros Hc. rewrite (centerBonus_not_centred doc article score0 Hc).
  destruct exampleScore_bounds as [_ Hhi].
  assert (H1 : (scoreBeforeGeometry 2 199 [] [] <= 10)%Q)
    by (vm_compute; discriminate).
  lra.
Qed.

(** The heuristic strategy has the article as its only candidate and
    takes it when its score exceeds 10. *)
Lemma example_heuristics (st : store) :
  findContentByHeuristics unicodeLower acceptAll doc st
  = if Qltb 10 (centerBonus doc article score0)
    then (Normal (Some (candidateOf articleAt)),
          <[InDocument [0; 1; 0] := tagHeuristic]> st)
    else (Normal None, st).
Proof.
  unfold findContentByHeuristics.
  replace (querySelectorAll acceptAll (documentElements doc) containerSelector)
    with (Normal [articleAt]) by reflexivity.
  unfold mbind at 1, M_bind at 1, lift at 1.
  cbn [collectCandidates element articleLocated].
  replace (shouldExcludeElement unicodeLower (Some article))
    with (Normal false) by reflexivity.
  rewrite example_score.
  unfold mbind, M_bind, lift, completion_bind, setExtractionMethod,
    mret, M_ret.
  rewrite (proj2 (Qltb_lt _ _) centerBonus_positive).
  cbn [sortByScore foldr insertByScore score scoredElement].
  destruct (Qltb 10 _); reflexivity.
Qed.

Lemma example_locate (st : store) :
  locateContent unicodeLower acceptAll doc st
  = findContentByHeuristics unicodeLower acceptAll doc st.
Proof.
  unfold locateContent, mbind, M_bind.
  rewrite example_semantic.
  replace (findContentByClass acceptAll doc st)
    with (@Normal (option candidate) None, st) by reflexivity.
  rewrite example_heuristics.
  destruct (Qltb 10 _); reflexivity.
Qed.

(** With two sentences the normalizer returns the heading and the two
    paragraphs, each followed by a paragraph break. *)
Lemma example_extract :
  sentenceLike p1 -> sentenceLike p2 ->
  extractTextFromElement acceptAll article
  = Normal (lit "Title" ++ [LF; LF] ++ p1 ++ [LF; LF] ++ p2 ++ [LF; LF]).
Proof.
  intros S1 S2.
  destruct (clean_text_parts p1 (proj1 S1) (sentenceLike_nonempty p1 S1))
    as (_ & Ht1 & H1 & _).
  destruct (clean_text_parts p2 (proj1 S2) (sentenceLike_nonempty p2 S2))
    as (_ & Ht2 & H2 & _).
  unfold extractTextFromElement.
  replace (foldl (removeExcluded acceptAll) article selectors_exclude)
    with article by reflexivity.
  replace (querySelectorAll acceptAll (descendantElements article)
             textSelector)
    with (Normal
            [ {| path := [0]; element := plainElement "h1" [Text (lit "Title")];
                 parentElement := Some article |};
              {| path := [1]; element := plainElement "p" [Text p1];
                 parentElement := Some article |};
              {| path := [2]; element := plainElement "p" [Text p2];
                 parentElement := Some article |} ])
    by reflexivity.
  unfold mbind, completion_bind.
  assert (Hjoin :
            joinParagraphs
              [ {| path := [0];
                   element := plainElement "h1" [Text (lit "Title")];
                   parentElement := Some article |};
                {| path := [1]; element := plainElement "p" [Text p1];
                   parentElement := Some article |};
                {| path := [2]; element := plainElement "p" [Text p2];
                   parentElement := Some article |} ] []
            = lit "Title" ++ [LF; LF] ++ p1 ++ [LF; LF] ++ p2 ++ [LF; LF]).
  { rewrite joinParagraphs_spec. cbn [List.map element].
    change (textContent (plainElement "h1" [Text (lit "Title")]))
      with (lit "Title").
    change (textContent (plainElement "p" [Text p1])) with (p1 ++ []).
    change (textContent (plainElement "p" [Text p2])) with (p2 ++ []).
    rewrite !app_nil_r, Ht1, Ht2.
    change (trim (lit "Title")) with (lit "Title").
    destruct H1 as (c1 & r1 & -> & _). destruct H2 as (c2 & r2 & -> & _).
    change (List.filter nonEmpty [lit "Title"; c1 :: r1; c2 :: r2])
      with [lit "Title"; c1 :: r1; c2 :: r2].
    cbn [concat List.map]. unfold withBreak.
    rewrite <- !app_assoc, app_nil_r. reflexivity. }
  rewrite Hjoin.
  destruct (Nat.eqb_spec
              (length (trim (lit "Title" ++ [LF; LF] ++ p1 ++ [LF; LF]
                             ++ p2 ++ [LF; LF]))) 0) as [E | E];
    [|reflexivity].
  exfalso. apply length_zero_iff_nil in E. revert E.
  apply trim_block_nonempty; reflexivity.
Qed.


End ArticleExample.


(** The two example sentences are sentences, and the example article is
    centred in a viewport 1000 wide: the premises of the last part of
    the theorem hold there. *)
Example article_example_premises :
  sentenceLike sentence
  /\ sentenceLike secondSentence
  /\ centredWithin
       (widthShare (articlePage 1000 (Some centredBox) sentence
                      secondSentence))
       (articlePage 1000 (Some centredBox) sentence secondSentence)
       (exampleArticle (Some centredBox) sentence secondSentence)
  /\ 1 + countWords sentence + countWords secondSentence = 21.
Proof.
  split; [split; [vm_compute; reflexivity | vm_compute; lia]|].
  split; [split; [vm_compute; reflexivity | vm_compute; lia]|].
  split; [vm_compute; reflexivity | vm_compute; reflexivity].
Qed.

